(** * Verilog structural parser and instance counter (parser.py)

    A shallow embedding of [parser.py]: the design tree, the memoised
    instance counter, the regex scanner and the recursive-descent parser,
    followed by the properties proved about them.

    Python objects that are mutated in place (the [cntr] cache of a module)
    live in the dictionary that owns them; a reference to such an object is
    the key under which the dictionary holds it.  Python integers are
    unbounded and are modelled by [Z]; the interpreter's recursion limit and
    its limit on the number of digits accepted by [int] are not modelled. *)

From Stdlib Require Import ZArith Ascii String List.
From stdpp Require Import gmap strings list relations.

Open Scope Z_scope.

(** ** Values, tokens and the design tree *)

(** A token's [value] is a Python [str] or, for numbers, a Python [int];
    the parser copies it into the tree without looking at its type. *)
Inductive Value :=
| Str (s : string)
| Int (z : Z).

#[global] Instance Value_eq_dec : EqDecision Value.
Proof. solve_decision. Defined.

#[global] Instance Value_countable : Countable Value :=
  inj_countable'
    (λ v, match v with Str s => inl s | Int z => inr z end)
    (λ x, match x with inl s => Str s | inr z => Int z end)
    (λ v, match v with Str _ => eq_refl | Int _ => eq_refl end).

(** [Token = namedtuple('Token', ['type', 'value', 'line', 'column'])] *)
Record Token := mkToken {
  type : string;
  value : Value;
  line : Z;
  column : Z
}.

(** [collections.Counter]: a dictionary of counts; a missing key reads 0. *)
Abbreviation Counter := (gmap Value Z).

(** [class Argument] *)
Record Argument := mkArgument {
  param : Value;
  arg : Value;
  msb : Value;
  lsb : Value
}.

(** [class Instance]; [self.type], [self.name], [self.args]. *)
Record Instance := mkInstance {
  inst_type : Value;
  inst_name : Value;
  inst_args : list Argument
}.

(** [class Net]; [self.type], [self.name], [self.msb], [self.lsb]. *)
Record Net := mkNet {
  net_type : string;
  net_name : Value;
  net_msb : Value;
  net_lsb : Value
}.

(** [class Module] ([Module] is reserved in Rocq).  [cntr] is [None] until
    the first count. *)
Record Mod := mkMod {
  name : Value;
  params : list Value;
  nets : list Net;
  instances : list Instance;
  cntr : option Counter
}.

#[global] Instance Argument_eq_dec : EqDecision Argument.
Proof. solve_decision. Defined.

#[global] Instance Instance_eq_dec : EqDecision Instance.
Proof. solve_decision. Defined.

#[global] Instance Net_eq_dec : EqDecision Net.
Proof. solve_decision. Defined.

#[global] Instance Mod_eq_dec : EqDecision Mod.
Proof. solve_decision. Defined.

(** [Module.__init__]: the cache starts empty. *)
Definition Mod_init (n : Value) (ps : list Value) (ns : list Net)
    (insts : list Instance) : Mod :=
  mkMod n ps ns insts None.

(** [class Design]: [self.modules], a dictionary from names to modules. *)
Record Design := mkDesign {
  modules : gmap Value Mod
}.

(** [Design.__init__]: [{module.name: module for module in modules}].  The
    comprehension stores the entries in list order, so a later module
    replaces an earlier one of the same name. *)
Definition Design_init (ms : list Mod) : Design :=
  mkDesign (foldl (λ d m, <[name m := m]> d) ∅ ms).

(** ** Exceptions and results *)

Inductive SyntaxMsg :=
| Expected (kind : string) (col ln : Z)   (* f'Expected {kind} on column {column} of line {line}' *)
| UnexpectedEndOfFile.                    (* 'Unexpected end of file' *)

Inductive exn :=
| KeyError (k : Value)
| SyntaxError (msg : SyntaxMsg)
| RuntimeError (val : string) (col ln : Z) (* f'Unexpected token {value!r} on column {column} of line {line}' *)
| AttributeError.

(** The outcome of a call: a returned value, a raised exception, or, for the
    functions that recurse on a step budget, an exhausted budget. *)
Inductive result (A : Type) :=
| Ok (a : A)
| Raise (e : exn)
| OutOfFuel.
Arguments Ok {A} a.
Arguments Raise {A} e.
Arguments OutOfFuel {A}.

(** ** The instance counter *)

(** [c[k]] on a [Counter]: [__missing__] gives 0. *)
Definition Counter_get (c : Counter) (k : Value) : Z :=
  default 0 (c !! k).

(** [c[k] += 1] *)
Definition Counter_incr (k : Value) (c : Counter) : Counter :=
  <[k := Counter_get c k + 1]> c.

(** [Counter._keep_positive]: drop the entries whose count is not positive. *)
Definition Counter_keep_positive (c : Counter) : Counter :=
  filter (λ kv, 0 < kv.2) c.

(** [Counter.__iadd__]: [for elem, count in other.items(): self[elem] += count],
    then [_keep_positive].  When [other] is [self] itself the loop only
    rewrites existing keys, reading each count once before it is changed, so
    folding over the value of [other] gives what the in-place loop gives. *)
Definition Counter_iadd (c other : Counter) : Counter :=
  Counter_keep_positive
    (map_fold (λ elem count acc, <[elem := Counter_get acc elem + count]> acc)
              c other).

Definition set_cntr (c : option Counter) (m : Mod) : Mod :=
  mkMod (name m) (params m) (nets m) (instances m) c.

(** The counter object of the module stored under [k], if it has one. *)
Definition cntr_of (ms : gmap Value Mod) (k : Value) : option Counter :=
  ms !! k ≫= cntr.

(** Apply an in-place update to the counter object of module [self]. *)
Definition update_cntr (f : Counter → Counter) (self : Value)
    (ms : gmap Value Mod) : gmap Value Mod :=
  alter (λ m, set_cntr (f <$> cntr m) m) self ms.

(** The body of [for instance in self.instances: ...].  [rec] is the
    recursive call [module.count_instances(modules)]; it returns a reference
    to the callee's counter, which [+=] reads from the store after the call.
    [None] stands for a call that did not return. *)
Fixpoint for_instances (rec : Value → gmap Value Mod → option (gmap Value Mod))
    (self : Value) (insts : list Instance) (ms : gmap Value Mod)
    : option (gmap Value Mod) :=
  match insts with
  | [] => Some ms
  | instance :: rest =>
      let module := ms !! inst_type instance in            (* modules.get(instance.type) *)
      let ms := update_cntr (Counter_incr (inst_type instance)) self ms in
      match module with
      | None => for_instances rec self rest ms
      | Some _ =>
          match rec (inst_type instance) ms with
          | None => None
          | Some ms' =>
              match cntr_of ms' (inst_type instance) with
              | None => None
              | Some other =>
                  for_instances rec self rest
                    (update_cntr (λ c, Counter_iadd c other) self ms')
              end
          end
      end
  end.

(** [Module.count_instances(self, modules)], where [self] is the module that
    [modules] holds under the key [self].  The function returns the store
    after the call; the returned counter is [cntr_of] of [self] in it.
    [fuel] bounds the depth of the recursion. *)
Fixpoint count_instances (fuel : nat) (self : Value) (ms : gmap Value Mod)
    : option (gmap Value Mod) :=
  match fuel with
  | O => None
  | S fuel =>
      match ms !! self with
      | None => None
      | Some m =>
          match cntr m with
          | Some _ => Some ms                                  (* return self.cntr *)
          | None =>
              for_instances (count_instances fuel) self (instances m)
                (<[self := set_cntr (Some ∅) m]> ms)          (* self.cntr = Counter() *)
          end
      end
  end.

(** [Design.count_instances(self, module)]:
    [self.modules[module].count_instances(self.modules)].  Returns the
    counter together with the design as the call leaves it. *)
Definition Design_count_instances (fuel : nat) (d : Design) (module : Value)
    : result (Counter * Design) :=
  match modules d !! module with
  | None => Raise (KeyError module)
  | Some _ =>
      match count_instances fuel module (modules d) with
      | None => OutOfFuel
      | Some ms' =>
          match cntr_of ms' module with
          | None => OutOfFuel
          | Some c => Ok (c, mkDesign ms')
          end
      end
  end.

(** ** Notions used to state the properties of the counter *)

(** The design without its caches: what parsing built. *)
Definition erase (ms : gmap Value Mod) : gmap Value Mod := set_cntr None <$> ms.

(** [ms'] has the modules of [ms], and every counter that [ms] has cached
    is cached unchanged in [ms']. *)
Definition stable (ms ms' : gmap Value Mod) : Prop :=
  erase ms' = erase ms ∧ ∀ k c, cntr_of ms k = Some c → cntr_of ms' k = Some c.

(** Module [k] has an instance whose type is the module [k']. *)
Definition instantiates (ms : gmap Value Mod) (k k' : Value) : Prop :=
  ∃ m i, ms !! k = Some m ∧ i ∈ instances m ∧ inst_type i = k' ∧ is_Some (ms !! k').

(** No module instantiates itself, directly or indirectly. *)
Definition acyclic (ms : gmap Value Mod) : Prop :=
  ∀ k, ¬ tc (instantiates ms) k k.

(** What one instance adds to the count of [key]: 1 if it is of that type,
    plus the count of [key] in the multiset [sub] gives for its type, if it
    gives one. *)
Definition contribution (sub : Value → option Counter) (key : Value)
    (i : Instance) : Z :=
  (if decide (inst_type i = key) then 1 else 0)
  + Counter_get (default ∅ (sub (inst_type i))) key.

(** The sum of the contributions of a list of instances. *)
Definition instance_sum (sub : Value → option Counter) (key : Value)
    (insts : list Instance) : Z :=
  foldr (λ i acc, contribution sub key i + acc) 0 insts.

(** Every stored count is positive. *)
Definition Counter_pos (c : Counter) : Prop :=
  ∀ k v, c !! k = Some v → 0 < v.

(** The cached counter [c] of module [m] is complete with respect to the
    caches of [ms]: the modules it instantiates are cached, and [c] counts
    [m]'s instances and theirs. *)
Definition complete (ms : gmap Value Mod) (m : Mod) (c : Counter) : Prop :=
  Counter_pos c
  ∧ (∀ i, i ∈ instances m → is_Some (ms !! inst_type i) →
          is_Some (cntr_of ms (inst_type i)))
  ∧ ∀ key, Counter_get c key = instance_sum (cntr_of ms) key (instances m).

(** Every cache of the design is complete: the state between two calls of
    [Design.count_instances], in particular after parsing, when no cache is
    filled. *)
Definition coherent (ms : gmap Value Mod) : Prop :=
  ∀ k m c, ms !! k = Some m → cntr m = Some c → complete ms m c.

(** The cache of [k], if filled, is complete. *)
Definition ok (ms : gmap Value Mod) (k : Value) : Prop :=
  ∀ m c, ms !! k = Some m → cntr m = Some c → complete ms m c.

(** During the loop of [self]: the modules are those of [ms], the caches of
    the other modules are kept, and [self] has a counter. *)
Definition grows (self : Value) (ms ms' : gmap Value Mod) : Prop :=
  erase ms' = erase ms
  ∧ (∀ k c, k ≠ self → cntr_of ms k = Some c → cntr_of ms' k = Some c)
  ∧ is_Some (cntr_of ms' self).

(** The modules whose cache is still empty. *)
Definition uncached (ms : gmap Value Mod) : gset Value :=
  dom (filter (λ kv, cntr kv.2 = None) ms).

(** A sequence of calls of [Design.count_instances], one after the other on
    the same design. *)
Fixpoint count_each (fuel : nat) (d : Design) (ks : list Value) : option Design :=
  match ks with
  | [] => Some d
  | k :: ks =>
      match Design_count_instances fuel d k with
      | Ok (_, d') => count_each fuel d' ks
      | _ => None
      end
  end.

(** A design as parsing builds it: no cache is filled. *)
Definition fresh (d : Design) : Prop :=
  ∀ k m, modules d !! k = Some m → cntr m = None.

(** The multiset a call of [Design.count_instances] returns, if it returns
    one. *)
Definition counted (fuel : nat) (d : Design) (k : Value) : option Counter :=
  match Design_count_instances fuel d k with
  | Ok (c, _) => Some c
  | _ => None
  end.

(** The counting equation for module [M] of [d]: the call returns, and what
    it returns counts, for every type, the instances of [M] of that type plus
    what counting returns for each instance whose type is a module of [d];
    a module without instances counts to the empty multiset. *)
Definition counting_equation (fuel : nat) (d : Design) (M : Value) : Prop :=
  ∃ m c d', modules d !! M = Some m
    ∧ Design_count_instances fuel d M = Ok (c, d')
    ∧ (∀ key, Counter_get c key = instance_sum (counted fuel d) key (instances m))
    ∧ (instances m = [] → c = ∅).

(** Module [k] instantiates itself, directly or indirectly. *)
Definition on_cycle (d : Design) (k : Value) : Prop :=
  tc (instantiates (modules d)) k k.

(** The call never returns, whatever the depth allowed. *)
Definition diverges (d : Design) (k : Value) : Prop :=
  ∀ fuel, Design_count_instances fuel d k = OutOfFuel.

(** [module A(a); A u(.a(a)); endmodule]: a module that instantiates
    itself. *)
Definition self_instance : Design :=
  Design_init
    [Mod_init (Str "A") [Str "a"] []
       [mkInstance (Str "A") (Str "u") [mkArgument (Str "a") (Str "a") (Int 0) (Int 0)]]].

(** The design of the scenario of the specification:
    [module cellB(a); wire a; endmodule] and [TopCell], which instantiates
    [AND2] and [cellB]. *)
Definition top_cell : Design :=
  Design_init
    [Mod_init (Str "cellB") [Str "a"] [mkNet "wire" (Str "a") (Int 0) (Int 0)] [];
     Mod_init (Str "TopCell") [Str "x"] [mkNet "wire" (Str "x") (Int 0) (Int 0)]
       [mkInstance (Str "AND2") (Str "u1")
          [mkArgument (Str "A") (Str "x") (Int 0) (Int 0);
           mkArgument (Str "B") (Str "x") (Int 0) (Int 0)];
        mkInstance (Str "cellB") (Str "u2")
          [mkArgument (Str "a") (Str "x") (Int 0) (Int 0)]]].

(** ** The scanner *)

(** The source text is a sequence of characters with codes below 256.  The
    character classes of the pattern are those of Python's [re] on [str]:
    [\d] is a decimal digit, [\w] an alphanumeric character or the
    underscore, which below 256 also covers the letters and numeric signs of
    the Latin-1 block. *)
Definition code (c : ascii) : N := N_of_ascii c.

Definition in_range (lo hi : N) (c : ascii) : bool :=
  ((lo <=? code c) && (code c <=? hi))%N.

(** [\d] *)
Definition is_digit (c : ascii) : bool := in_range 48 57 c.

(** [\w] *)
Definition is_word (c : ascii) : bool :=
  is_digit c || in_range 65 90 c || in_range 97 122 c || (code c =? 95)%N
  || (code c =? 170)%N || (code c =? 178)%N || (code c =? 179)%N
  || (code c =? 181)%N || (code c =? 185)%N || (code c =? 186)%N
  || in_range 188 190 c || in_range 192 214 c || in_range 216 246 c
  || in_range 248 255 c.

(** [\n] *)
Definition is_newline (c : ascii) : bool := (code c =? 10)%N.

(** [[\(\)\[\]:\.,;]] *)
Definition is_punct (c : ascii) : bool :=
  (code c =? 40)%N || (code c =? 41)%N || (code c =? 91)%N || (code c =? 93)%N
  || (code c =? 58)%N || (code c =? 46)%N || (code c =? 44)%N || (code c =? 59)%N.

(** [[ \t]] *)
Definition is_blank (c : ascii) : bool := (code c =? 32)%N || (code c =? 9)%N.

(** The longest prefix of [s] whose characters satisfy [p], and what is
    left: a greedy [+] or [*] over a character class. *)
Fixpoint span (p : ascii → bool) (s : list ascii) : list ascii * list ascii :=
  match s with
  | [] => ([], [])
  | c :: s' =>
      if p c then let '(l, r) := span p s' in (c :: l, r) else ([], s)
  end.

(** The named groups of [Scanner.regexes], in the order of the alternation. *)
Inductive group :=
| COMMENT | NEWLINE | NUMBER | IDENTIFIER | PUNCTUATOR | WHITESPACE | MISMATCH.

(** [//.*\n]: two slashes, the rest of the line, and the newline that ends
    it.  [.] does not match a newline, so [.*] stops at the first one; if
    the text ends before a newline the alternative fails. *)
Definition match_comment (s : list ascii) : option (list ascii * list ascii) :=
  match s with
  | "/"%char :: "/"%char :: s' =>
      let '(body, r) := span (λ c, negb (is_newline c)) s' in
      match r with
      | nl :: r' => Some ("/"%char :: "/"%char :: body ++ [nl], r')
      | [] => None
      end
  | _ => None
  end.

(** One match of [Scanner.regex] at the head of [s]: the first alternative
    that matches, its lexeme and the text after it ([match.lastgroup],
    [match.group()]).  Every non-empty text matches some alternative at its
    head, so [re.finditer] never skips a character. *)
Definition regex_match (s : list ascii) : option (group * list ascii * list ascii) :=
  match s with
  | [] => None
  | c :: s' =>
      match match_comment s with
      | Some (lexeme, r) => Some (COMMENT, lexeme, r)
      | None =>
          if is_newline c then Some (NEWLINE, [c], s')
          else if is_digit c then let '(l, r) := span is_digit s in Some (NUMBER, l, r)
          else if is_word c then let '(l, r) := span is_word s in Some (IDENTIFIER, l, r)
          else if is_punct c then Some (PUNCTUATOR, [c], s')
          else if is_blank c then let '(l, r) := span is_blank s in Some (WHITESPACE, l, r)
          else Some (MISMATCH, [c], s')
      end
  end.

(** [Scanner.keywords] *)
Definition keywords : list string :=
  ["module"; "endmodule"; "input"; "output"; "wire"]%string.

(** [int(value)] on a string of decimal digits. *)
Definition int (digits : list ascii) : Z :=
  foldl (λ acc c, 10 * acc + (Z.of_N (code c) - 48)) 0 digits.

(** What a generator still has to do: yield a token and go on, stop, or
    raise.  The scanner does not depend on its consumer, so the lazily
    produced sequence is this value, inspected one step at a time. *)
Inductive stream :=
| SNil                               (* StopIteration *)
| SCons (t : Token) (s : stream)     (* yield t *)
| SRaise (e : exn).                  (* raise e *)

(** The loop of [Scanner.scan] over the matches of [re.finditer], from the
    match that starts at offset [pos] with [rest] the text from there on.
    Each match is non-empty, so [fuel] = the length of [rest] is never
    used up before the text is. *)
Fixpoint scan_loop (fuel : nat) (rest : list ascii) (pos ln start : Z) : stream :=
  match fuel with
  | O => SNil
  | S fuel =>
      match regex_match rest with
      | None => SNil
      | Some (kind, lexeme, rest') =>
          let val := string_of_list_ascii lexeme in
          let col := pos - start + 1 in
          let stop := pos + Z.of_nat (length lexeme) in       (* match.end() *)
          match kind with
          | NUMBER =>
              SCons (mkToken "NUMBER" (Int (int lexeme)) ln col)
                    (scan_loop fuel rest' stop ln start)
          | IDENTIFIER =>
              SCons (mkToken (if bool_decide (val ∈ keywords) then val else "IDENTIFIER")
                             (Str val) ln col)
                    (scan_loop fuel rest' stop ln start)
          | PUNCTUATOR =>
              SCons (mkToken val (Str val) ln col) (scan_loop fuel rest' stop ln start)
          | COMMENT | NEWLINE => scan_loop fuel rest' stop (ln + 1) stop
          | WHITESPACE => scan_loop fuel rest' stop ln start
          | MISMATCH => SRaise (RuntimeError val col ln)
          end
      end
  end.

(** [Scanner.scan] on the characters of the input. *)
Definition scan_text (inp : list ascii) : stream :=
  scan_loop (length inp) inp 0 1 0.

Definition scan (inp : string) : stream :=
  scan_text (list_ascii_of_string inp).

(** *** Notions used to state the properties of the scanner *)

(** A stream that yields the tokens [ts] and then behaves as [s]. *)
Definition stream_app (ts : list Token) (s : stream) : stream :=
  foldr SCons s ts.

(** A generator that yields the tokens [ts] and stops. *)
Definition stream_of_list (ts : list Token) : stream := stream_app ts SNil.

(** The tokens a generator yields before it stops or raises. *)
Fixpoint tokens_of (s : stream) : list Token :=
  match s with
  | SCons t s => t :: tokens_of s
  | _ => []
  end.

(** [s1], and [s2] where [s1] stops; a raise of [s1] stays. *)
Fixpoint stream_then (s1 s2 : stream) : stream :=
  match s1 with
  | SNil => s2
  | SCons t s => SCons t (stream_then s s2)
  | SRaise e => SRaise e
  end.

(** The stream ends by stopping, not by raising. *)
Fixpoint no_raise (s : stream) : Prop :=
  match s with
  | SNil => True
  | SCons _ s => no_raise s
  | SRaise _ => False
  end.

(** The number of newline characters of a text. *)
Definition count_nl (s : list ascii) : Z :=
  foldl (λ n c, if is_newline c then n + 1 else n) 0 s.

(** The number of characters after the last newline of [s], counting from
    [col] if [s] has no newline. *)
Definition col_after (col : Z) (s : list ascii) : Z :=
  foldl (λ n c, if is_newline c then 0 else n + 1) col s.

(** The 1-based line and column of the character that follows the text
    [pre]. *)
Definition line_of (pre : list ascii) : Z := 1 + count_nl pre.
Definition column_of (pre : list ascii) : Z := col_after 0 pre + 1.

(** No alternative of the pattern but the last, [MISMATCH], matches at the
    head of [c :: post]: [c] is in none of the character classes and does
    not start a comment. *)
Definition unrecognized (c : ascii) (post : list ascii) : Prop :=
  is_newline c = false ∧ is_word c = false ∧ is_punct c = false
  ∧ is_blank c = false ∧ match_comment (c :: post) = None.

(** The text [suf] cannot lengthen a number, a word or a run of blanks that
    ends just before it. *)
Definition head_ok (suf : list ascii) : Prop :=
  match suf with
  | [] => True
  | c :: _ => is_word c = false ∧ is_blank c = false
  end.

(** ** The parser *)

(** [class Parser]: the generator, the current token and the lookahead. *)
Record Parser := mkParser {
  token_gen : stream;
  token : option Token;
  next_token : option Token
}.

(** A method of [Parser]: it reads and updates the parser's attributes and
    returns, raises, or runs out of budget. *)
Definition M (A : Type) : Type := Parser → result (A * Parser).

Definition ret {A} (a : A) : M A := λ p, Ok (a, p).

Definition bind {A B} (m : M A) (k : A → M B) : M B :=
  λ p, match m p with
       | Ok (a, p') => k a p'
       | Raise e => Raise e
       | OutOfFuel => OutOfFuel
       end.

Definition raise {A} (e : exn) : M A := λ _, Raise e.

Notation "'let*' x := m 'in' k" := (bind m (λ x, k))
  (at level 10, x name, m at level 100, k at level 200).
Notation "m ';;' k" := (bind m (λ _, k))
  (at level 100, k at level 200, right associativity).

(** [Parser._advance] *)
Definition _advance : M unit :=
  λ p, match token_gen p with
       | SCons t g => Ok (tt, mkParser g (next_token p) (Some t))
       | SNil => Ok (tt, mkParser SNil (next_token p) None)    (* except StopIteration *)
       | SRaise e => Raise e
       end.

(** [Parser._accept]: [getattr(self.next_token, 'type', None) == kind] *)
Definition _accept (kind : string) : M bool :=
  λ p, match next_token p with
       | Some t =>
           if String.eqb (type t) kind then (_advance ;; ret true) p
           else Ok (false, p)
       | None => Ok (false, p)
       end.

(** [Parser._expect]; reading [self.token.line] when no token has been
    consumed yet raises [AttributeError]. *)
Definition _expect (kind : string) : M unit :=
  let* ok := _accept kind in
  if ok : bool then ret tt
  else λ p, match token p with
            | Some t => Raise (SyntaxError (Expected kind (column t) (line t)))
            | None => Raise AttributeError
            end.

(** [self.token.value] and [self.token.type] *)
Definition token_value : M Value :=
  λ p, match token p with
       | Some t => Ok (value t, p)
       | None => Raise AttributeError
       end.

Definition token_type : M string :=
  λ p, match token p with
       | Some t => Ok (type t, p)
       | None => Raise AttributeError
       end.

(** The [while self._accept(','):] loop of [_parse_params]. *)
Fixpoint _parse_params_loop (fuel : nat) (ps : list Value) : M (list Value) :=
  match fuel with
  | O => λ _, OutOfFuel
  | S fuel =>
      let* more := _accept "," in
      if more : bool then
        _expect "IDENTIFIER" ;;
        let* v := token_value in
        _parse_params_loop fuel (ps ++ [v])
      else ret ps
  end.

(** [Parser._parse_params]; EBNF: params = identifier {"," identifier} *)
Definition _parse_params (fuel : nat) : M (list Value) :=
  _expect "IDENTIFIER" ;;
  let* v := token_value in
  _parse_params_loop fuel [v].

(** [Parser._parse_dimensions]; EBNF: dimensions = ["[" number ":" number "]"] *)
Definition _parse_dimensions : M (Value * Value) :=
  let* open := _accept "[" in
  if open : bool then
    _expect "NUMBER" ;;
    let* m := token_value in
    _expect ":" ;;
    _expect "NUMBER" ;;
    let* l := token_value in
    _expect "]" ;;
    ret (m, l)
  else ret (Int 0, Int 0).

(** [self._accept('output') or self._accept('input') or self._accept('wire')] *)
Definition accept_net_kind : M bool :=
  let* o := _accept "output" in
  if o : bool then ret true
  else let* i := _accept "input" in
       if i : bool then ret true else _accept "wire".

(** [Parser._parse_nets];
    EBNF: {("output" | "input" | "wire") [dimensions] identifier ";"} *)
Fixpoint _parse_nets_loop (fuel : nat) (outputs : list Net) : M (list Net) :=
  match fuel with
  | O => λ _, OutOfFuel
  | S fuel =>
      let* more := accept_net_kind in
      if more : bool then
        let* kind := token_type in
        let* dims := _parse_dimensions in
        _expect "IDENTIFIER" ;;
        let* n := token_value in
        _expect ";" ;;
        _parse_nets_loop fuel (outputs ++ [mkNet kind n dims.1 dims.2])
      else ret outputs
  end.

Definition _parse_nets (fuel : nat) : M (list Net) := _parse_nets_loop fuel [].

(** [Parser._parse_arg];
    EBNF: arg = "." identifier "(" identifier ["[" number [":" number] "]"] ")" *)
Definition _parse_arg : M Argument :=
  _expect "." ;;
  _expect "IDENTIFIER" ;;
  let* prm := token_value in
  _expect "(" ;;
  _expect "IDENTIFIER" ;;
  let* a := token_value in
  let* sel :=
    (let* open := _accept "[" in
     if open : bool then
       _expect "NUMBER" ;;
       let* n := token_value in                 (* msb = lsb = self.token.value *)
       let* colon := _accept ":" in
       let* l :=
         (if colon : bool then _expect "NUMBER" ;; token_value else ret n) in
       _expect "]" ;;
       ret (n, l)
     else ret (Int 0, Int 0)) in
  _expect ")" ;;
  ret (mkArgument prm a sel.1 sel.2).

(** [Parser._parse_args]; EBNF: args = arg {"," arg} *)
Fixpoint _parse_args_loop (fuel : nat) (args : list Argument) : M (list Argument) :=
  match fuel with
  | O => λ _, OutOfFuel
  | S fuel =>
      let* more := _accept "," in
      if more : bool then
        let* a := _parse_arg in
        _parse_args_loop fuel (args ++ [a])
      else ret args
  end.

Definition _parse_args (fuel : nat) : M (list Argument) :=
  let* a := _parse_arg in
  _parse_args_loop fuel [a].

(** [Parser._parse_instances];
    EBNF: instance = {identifier identifier "(" args ")" ";"} *)
Fixpoint _parse_instances_loop (fuel : nat) (insts : list Instance) : M (list Instance) :=
  match fuel with
  | O => λ _, OutOfFuel
  | S fuel =>
      let* more := _accept "IDENTIFIER" in
      if more : bool then
        let* kind := token_value in
        _expect "IDENTIFIER" ;;
        let* n := token_value in
        _expect "(" ;;
        let* args := _parse_args fuel in
        _expect ")" ;;
        _expect ";" ;;
        _parse_instances_loop fuel (insts ++ [mkInstance kind n args])
      else ret insts
  end.

Definition _parse_instances (fuel : nat) : M (list Instance) :=
  _parse_instances_loop fuel [].

(** [Parser._parse_file];
    EBNF: file = {"module" identifier "(" params ")" ";" nets instances "endmodule"} *)
Fixpoint _parse_file_loop (fuel : nat) (mods : list Mod) : M Design :=
  match fuel with
  | O => λ _, OutOfFuel
  | S fuel =>
      let* more := _accept "module" in
      if more : bool then
        _expect "IDENTIFIER" ;;
        let* n := token_value in
        _expect "(" ;;
        let* ps := _parse_params fuel in
        _expect ")" ;;
        _expect ";" ;;
        let* ns := _parse_nets fuel in
        let* insts := _parse_instances fuel in
        _expect "endmodule" ;;
        _parse_file_loop fuel (mods ++ [Mod_init n ps ns insts])
      else ret (Design_init mods)
  end.

Definition _parse_file (fuel : nat) : M Design := _parse_file_loop fuel [].

(** [Parser.__init__] followed by [self.token_gen = scanner.scan(inp)]. *)
Definition Parser_init (g : stream) : Parser := mkParser g None None.

(** [Parser.parse] from the generator on. *)
Definition parse_tokens (fuel : nat) : M Design :=
  _advance ;;
  let* parsed_design := _parse_file fuel in
  λ p, match next_token p with
       | Some _ => Raise (SyntaxError UnexpectedEndOfFile)
       | None => Ok (parsed_design, p)
       end.

(** [Parser.parse]; [fuel] bounds the number of iterations of each loop. *)
Definition parse (fuel : nat) (inp : string) : result Design :=
  match parse_tokens fuel (Parser_init (scan inp)) with
  | Ok (d, _) => Ok d
  | Raise e => Raise e
  | OutOfFuel => OutOfFuel
  end.

(** *** Notions used to state the properties of the parser *)

(** The parser with current token [cur] whose generator has the tokens [ts]
    left, the first of them already pulled into the lookahead. *)
Definition Parser_on (cur : option Token) (ts : list Token) : Parser :=
  mkParser (stream_of_list (tail ts)) cur (head ts).

(** The kind of the first token of [ts], if any. *)
Definition peek (ts : list Token) : option string := type <$> head ts.

(** The current token after the tokens [ts] have been consumed. *)
Definition last_token (cur : option Token) (ts : list Token) : option Token :=
  match last ts with
  | Some t => Some t
  | None => cur
  end.

(** The grammar of the docstrings, as relations between a sequence of
    tokens and the value it stands for. *)

(** [{ x }]: zero or more [x], one after the other. *)
Inductive g_rep {A} (g : list Token → A → Prop) : list Token → list A → Prop :=
| g_rep_nil : g_rep g [] []
| g_rep_cons ts a tss l :
    g ts a → g_rep g tss l → g_rep g (ts ++ tss) (a :: l).

(** [sep x] *)
Inductive g_sep {A} (sep : string) (g : list Token → A → Prop)
    : list Token → A → Prop :=
| g_sep_intro s ts a : type s = sep → g ts a → g_sep sep g (s :: ts) a.

(** [identifier] *)
Inductive g_identifier : list Token → Value → Prop :=
| g_identifier_intro t : type t = "IDENTIFIER" → g_identifier [t] (value t).

(** params = identifier {"," identifier} *)
Inductive g_params : list Token → list Value → Prop :=
| g_params_intro t ts vs :
    type t = "IDENTIFIER" → g_rep (g_sep "," g_identifier) ts vs →
    g_params (t :: ts) (value t :: vs).

(** dimensions = ["[" number ":" number "]"] *)
Inductive g_dimensions : list Token → Value * Value → Prop :=
| g_dimensions_none : g_dimensions [] (Int 0, Int 0)
| g_dimensions_range lb m c l rb :
    type lb = "[" → type m = "NUMBER" → type c = ":" → type l = "NUMBER" →
    type rb = "]" → g_dimensions [lb; m; c; l; rb] (value m, value l).

(** ("output" | "input" | "wire") [dimensions] identifier ";" *)
Inductive g_net : list Token → Net → Prop :=
| g_net_intro kw ds dims id semi :
    type kw ∈ ["output"; "input"; "wire"]%string → g_dimensions ds dims →
    type id = "IDENTIFIER" → type semi = ";" →
    g_net (kw :: ds ++ [id; semi]) (mkNet (type kw) (value id) dims.1 dims.2).

(** ["[" number [":" number] "]"] *)
Inductive g_select : list Token → Value * Value → Prop :=
| g_select_none : g_select [] (Int 0, Int 0)
| g_select_bit lb n rb :
    type lb = "[" → type n = "NUMBER" → type rb = "]" →
    g_select [lb; n; rb] (value n, value n)
| g_select_range lb m c l rb :
    type lb = "[" → type m = "NUMBER" → type c = ":" → type l = "NUMBER" →
    type rb = "]" → g_select [lb; m; c; l; rb] (value m, value l).

(** arg = "." identifier "(" identifier ["[" number [":" number] "]"] ")" *)
Inductive g_arg : list Token → Argument → Prop :=
| g_arg_intro dot p lp a sel ml rp :
    type dot = "." → type p = "IDENTIFIER" → type lp = "(" →
    type a = "IDENTIFIER" → g_select sel ml → type rp = ")" →
    g_arg (dot :: p :: lp :: a :: sel ++ [rp])
          (mkArgument (value p) (value a) ml.1 ml.2).

(** args = arg {"," arg} *)
Inductive g_args : list Token → list Argument → Prop :=
| g_args_intro ts a tss l :
    g_arg ts a → g_rep (g_sep "," g_arg) tss l → g_args (ts ++ tss) (a :: l).

(** identifier identifier "(" args ")" ";" *)
Inductive g_instance : list Token → Instance → Prop :=
| g_instance_intro kind nm lp ts args rp semi :
    type kind = "IDENTIFIER" → type nm = "IDENTIFIER" → type lp = "(" →
    g_args ts args → type rp = ")" → type semi = ";" →
    g_instance (kind :: nm :: lp :: ts ++ [rp; semi])
               (mkInstance (value kind) (value nm) args).

(** "module" identifier "(" params ")" ";" nets instances "endmodule" *)
Inductive g_module : list Token → Mod → Prop :=
| g_module_intro kw nm lp tps ps rp semi tns ns tis insts endkw :
    type kw = "module" → type nm = "IDENTIFIER" → type lp = "(" →
    g_params tps ps → type rp = ")" → type semi = ";" →
    g_rep g_net tns ns → g_rep g_instance tis insts → type endkw = "endmodule" →
    g_module (kw :: nm :: lp :: tps ++ rp :: semi :: tns ++ tis ++ [endkw])
             (Mod_init (value nm) ps ns insts).

(** file = {module}: the token sequences of the well-formed inputs, with
    the modules they define, in source order. *)
Definition g_file : list Token → list Mod → Prop := g_rep g_module.

(** The generator raises nothing but the scanner's [RuntimeError]. *)
Fixpoint lexical (g : stream) : Prop :=
  match g with
  | SNil => True
  | SCons _ g => lexical g
  | SRaise (RuntimeError _ _ _) => True
  | SRaise _ => False
  end.

(** A token has been consumed, and the generator is a scanner's. *)
Definition started (p : Parser) : Prop :=
  token p ≠ None ∧ lexical (token_gen p).

(** From a parser that satisfies [pre], the method [m] does not raise
    [AttributeError], and what it returns satisfies [post]. *)
Definition triple {A} (pre : Parser → Prop) (m : M A)
    (post : A → Parser → Prop) : Prop :=
  ∀ p, pre p →
    match m p with
    | Ok (a, p') => post a p'
    | Raise e => e ≠ AttributeError
    | OutOfFuel => True
    end.

(** [m] keeps a started parser started. *)
Definition safe {A} (m : M A) : Prop := triple started m (λ _, started).

(** The tokens of an input that defines the module [m] twice. *)
Definition dup_tokens : list Token :=
  Eval vm_compute in tokens_of (scan "module m(a); endmodule module m(b); endmodule").

(** *** Notions used for the further properties of the parser *)

(** The tokens the parser has not consumed: the lookahead, then what the
    generator still yields. *)
Definition upcoming (p : Parser) : stream :=
  match next_token p with
  | Some t => SCons t (token_gen p)
  | None => token_gen p
  end.

(** From [p] to [p'] the parser consumed exactly the tokens [ts]. *)
Definition consumes (p p' : Parser) (ts : list Token) : Prop :=
  upcoming p = stream_app ts (upcoming p') ∧ token p' = last_token (token p) ts.

(** A parser without lookahead has an exhausted generator: once [next]
    has raised [StopIteration], the generator yields nothing more. *)
Definition drained (p : Parser) : Prop :=
  next_token p = None → token_gen p = SNil.

(** The number of tokens a stream yields. *)
Fixpoint stream_len (s : stream) : nat :=
  match s with
  | SCons _ s => S (stream_len s)
  | _ => O
  end.

(** The number of tokens the parser has not consumed. *)
Definition remaining (p : Parser) : nat := stream_len (upcoming p).

(** From a parser with fewer than [n] tokens left, [m] does not exhaust its
    budget, and it leaves no more tokens than it found. *)
Definition bounded {A} (n : nat) (m : M A) : Prop :=
  ∀ p, (remaining p < n)%nat →
    match m p with
    | Ok (_, p') => (remaining p' ≤ remaining p)%nat
    | Raise _ => True
    | OutOfFuel => False
    end.

(** A test that consumes a token when it answers [true] and nothing when it
    answers [false]. *)
Definition acceptor (m : M bool) : Prop :=
  ∀ p, match m p with
       | Ok (true, p') => (remaining p' < remaining p)%nat
       | Ok (false, p') => p' = p
       | Raise _ => True
       | OutOfFuel => False
       end.

(** The exception with which a generator ends, if it raises. *)
Fixpoint stream_error (g : stream) : option exn :=
  match g with
  | SNil => None
  | SCons _ g => stream_error g
  | SRaise e => Some e
  end.

(** The tokens the parser holds or can still pull are tokens of [g0], and
    its generator ends as [g0] does. *)
Definition within (g0 : stream) (p : Parser) : Prop :=
  (∀ t, token p = Some t → t ∈ tokens_of g0)
  ∧ (∀ t, next_token p = Some t → t ∈ tokens_of g0)
  ∧ (∀ t, t ∈ tokens_of (token_gen p) → t ∈ tokens_of g0)
  ∧ stream_error (token_gen p) = stream_error g0.

(** What a parser that reads [g0] may raise: a syntax error at the position
    of a token of [g0], the end-of-file error, the exception of [g0] itself,
    or [AttributeError]. *)
Definition from_input (g0 : stream) (e : exn) : Prop :=
  stream_error g0 = Some e
  ∨ match e with
    | SyntaxError (Expected _ col ln) =>
        ∃ t, t ∈ tokens_of g0 ∧ column t = col ∧ line t = ln
    | SyntaxError UnexpectedEndOfFile => True
    | AttributeError => True
    | _ => False
    end.

(** The method [m] keeps the parser within [g0] and raises from the input
    only. *)
Definition relays (g0 : stream) {A} (m : M A) : Prop :=
  ∀ p, within g0 p →
    match m p with
    | Ok (_, p') => within g0 p'
    | Raise e => from_input g0 e
    | OutOfFuel => True
    end.

(** The token [t], found [d] lines further down. *)
Definition shift_lines (d : Z) (t : Token) : Token :=
  mkToken (type t) (value t) (line t + d) (column t).

(** *** Notions used for the further properties of the scanner *)

(** The token the scanner makes of a lexeme: a number, a keyword or
    identifier, or a punctuation character. *)
Definition lexeme_token (lexeme : list ascii) (t : Token) : Prop :=
  let s := string_of_list_ascii lexeme in
  (Forall (λ c, is_digit c = true) lexeme
   ∧ type t = "NUMBER"%string ∧ value t = Int (int lexeme))
  ∨ (Forall (λ c, is_word c = true) lexeme
     ∧ type t = (if bool_decide (s ∈ keywords) then s else "IDENTIFIER"%string)
     ∧ value t = Str s)
  ∨ (∃ c, lexeme = [c] ∧ is_punct c = true ∧ type t = s ∧ value t = Str s).

(** The kinds of token the scanner yields. *)
Definition token_kinds : list string :=
  ["NUMBER"; "IDENTIFIER"; "module"; "endmodule"; "input"; "output"; "wire";
   "("; ")"; "["; "]"; ":"; "."; ","; ";"]%string.

(** *** Notions used for the further properties of the counter *)

(** Every cached counter has positive counts only. *)
Definition all_pos (ms : gmap Value Mod) : Prop :=
  ∀ k c, cntr_of ms k = Some c → Counter_pos c.

(** Module [k], or a module below it in the hierarchy, has an instance of
    type [key]. *)
Definition uses (ms : gmap Value Mod) (k key : Value) : Prop :=
  ∃ k' m i, rtc (instantiates ms) k k' ∧ ms !! k' = Some m
            ∧ i ∈ instances m ∧ inst_type i = key.

(** The keys of every cached counter are types used in the hierarchy of
    its module. *)
Definition keys_used (ms : gmap Value Mod) : Prop :=
  ∀ k c key, cntr_of ms k = Some c → is_Some (c !! key) → uses ms k key.

(** * Properties *)

(** ** Counters *)

Lemma Counter_get_nonneg (c : Counter) k : Counter_pos c → 0 ≤ Counter_get c k.
Proof.
  intros Hc. unfold Counter_get. destruct (c !! k) as [v|] eqn:E; simpl; [|lia].
  specialize (Hc _ _ E). lia.
Qed.

Lemma Counter_get_incr k (c : Counter) key :
  Counter_get (Counter_incr k c) key
  = Counter_get c key + (if decide (k = key) then 1 else 0).
Proof.
  unfold Counter_incr, Counter_get at 1. rewrite lookup_insert.
  destruct (decide (k = key)) as [->|]; simpl; [done|].
  unfold Counter_get. lia.
Qed.

Lemma Counter_pos_incr k (c : Counter) : Counter_pos c → Counter_pos (Counter_incr k c).
Proof.
  intros Hc key v. unfold Counter_incr. rewrite lookup_insert.
  destruct (decide (k = key)) as [->|]; [|by apply Hc].
  intros [= <-]. pose proof (Counter_get_nonneg c key Hc). lia.
Qed.

Lemma Counter_pos_empty : Counter_pos ∅.
Proof. intros k v. by rewrite lookup_empty. Qed.

Lemma Counter_fold_lookup (c other : Counter) key :
  map_fold (λ elem count acc, <[elem := Counter_get acc elem + count]> acc) c other !! key
  = match other !! key with
    | Some v => Some (Counter_get c key + v)
    | None => c !! key
    end.
Proof.
  revert key.
  apply (map_fold_weak_ind (λ r (m : Counter), ∀ key,
    r !! key = match m !! key with Some v => Some (Counter_get c key + v) | None => c !! key end)).
  - intros key. by rewrite lookup_empty.
  - intros i x m r Hi IH key. rewrite !lookup_insert.
    destruct (decide (i = key)) as [->|]; [|apply IH].
    f_equal. unfold Counter_get at 1. rewrite IH, Hi. done.
Qed.

Lemma Counter_keep_positive_id (c : Counter) :
  Counter_pos c → Counter_keep_positive c = c.
Proof.
  intros Hc. unfold Counter_keep_positive. apply map_filter_id.
  intros k v Hkv. simpl. by apply (Hc k).
Qed.

Lemma Counter_iadd_pos (c other : Counter) :
  Counter_pos c → Counter_pos other →
  Counter_pos (Counter_iadd c other)
  ∧ ∀ key, Counter_get (Counter_iadd c other) key
           = Counter_get c key + Counter_get other key.
Proof.
  intros Hc Ho.
  assert (Hp : Counter_pos (map_fold (λ elem count acc,
               <[elem := Counter_get acc elem + count]> acc) c other)).
  { intros key v. rewrite Counter_fold_lookup.
    destruct (other !! key) as [w|] eqn:E; [|by apply Hc].
    intros [= <-]. pose proof (Counter_get_nonneg c key Hc).
    specialize (Ho _ _ E). lia. }
  unfold Counter_iadd. rewrite Counter_keep_positive_id by done.
  split; [done|]. intros key. unfold Counter_get at 1.
  rewrite Counter_fold_lookup. unfold Counter_get at 3.
  destruct (other !! key); simpl; [done|]. unfold Counter_get. lia.
Qed.

Lemma Counter_pos_zero (c : Counter) :
  Counter_pos c → (∀ key, Counter_get c key = 0) → c = ∅.
Proof.
  intros Hc H0. apply map_eq. intros k. rewrite lookup_empty.
  destruct (c !! k) as [v|] eqn:E; [|done].
  specialize (Hc _ _ E). specialize (H0 k). unfold Counter_get in H0.
  rewrite E in H0. simpl in H0. lia.
Qed.

(** ** The store of modules *)

Lemma erase_lookup ms k : erase ms !! k = set_cntr None <$> ms !! k.
Proof. apply lookup_fmap. Qed.

Lemma erase_lookup_Some ms ms' k m :
  erase ms' = erase ms → ms !! k = Some m →
  ∃ m', ms' !! k = Some m' ∧ name m' = name m ∧ params m' = params m
        ∧ nets m' = nets m ∧ instances m' = instances m.
Proof.
  intros He Hk. assert (H := erase_lookup ms' k).
  rewrite He, erase_lookup, Hk in H. simpl in H.
  destruct (ms' !! k) as [m'|]; [|done]. exists m'. split; [done|].
  destruct m, m'. simpl in *. by simplify_eq.
Qed.

Lemma erase_lookup_None ms ms' k :
  erase ms' = erase ms → ms !! k = None → ms' !! k = None.
Proof.
  intros He Hk. assert (H := erase_lookup ms' k).
  rewrite He, erase_lookup, Hk in H. simpl in H.
  by destruct (ms' !! k).
Qed.

Lemma erase_is_Some ms ms' k :
  erase ms' = erase ms → is_Some (ms !! k) → is_Some (ms' !! k).
Proof.
  intros He [m Hm]. destruct (erase_lookup_Some _ _ _ _ He Hm) as (m' & -> & _). eauto.
Qed.

Lemma erase_update_cntr f self ms : erase (update_cntr f self ms) = erase ms.
Proof.
  apply map_eq. intros k. unfold update_cntr. rewrite !erase_lookup, lookup_alter.
  destruct (decide (self = k)) as [->|]; [|done].
  by destruct (ms !! k).
Qed.

Lemma erase_insert self m c ms :
  ms !! self = Some m → erase (<[self := set_cntr c m]> ms) = erase ms.
Proof.
  intros Hm. apply map_eq. intros k. rewrite !erase_lookup, lookup_insert.
  destruct (decide (self = k)) as [->|]; [|done]. by rewrite Hm.
Qed.

Lemma cntr_of_update_cntr f self ms k :
  cntr_of (update_cntr f self ms) k
  = if decide (self = k) then f <$> cntr_of ms k else cntr_of ms k.
Proof.
  unfold cntr_of, update_cntr. rewrite lookup_alter.
  destruct (decide (self = k)) as [->|]; [|done].
  by destruct (ms !! k).
Qed.

Lemma cntr_of_insert self m c ms k :
  cntr_of (<[self := set_cntr c m]> ms) k
  = if decide (self = k) then c else cntr_of ms k.
Proof.
  unfold cntr_of. rewrite lookup_insert. by destruct (decide (self = k)).
Qed.

Lemma cntr_of_Some ms k c :
  cntr_of ms k = Some c ↔ ∃ m, ms !! k = Some m ∧ cntr m = Some c.
Proof.
  unfold cntr_of. destruct (ms !! k) as [m|]; simpl; naive_solver.
Qed.

Lemma stable_refl ms : stable ms ms.
Proof. by split. Qed.

Lemma stable_trans ms1 ms2 ms3 : stable ms1 ms2 → stable ms2 ms3 → stable ms1 ms3.
Proof. intros [E1 H1] [E2 H2]. split; [congruence | eauto]. Qed.

Lemma grows_refl self ms : is_Some (cntr_of ms self) → grows self ms ms.
Proof. by repeat split. Qed.

Lemma grows_trans self ms1 ms2 ms3 :
  grows self ms1 ms2 → grows self ms2 ms3 → grows self ms1 ms3.
Proof.
  intros (E1 & H1 & _) (E2 & H2 & S2). split; [congruence|]. split; eauto.
Qed.

Lemma grows_update_cntr f self ms :
  is_Some (cntr_of ms self) → grows self ms (update_cntr f self ms).
Proof.
  intros [c Hc]. split; [apply erase_update_cntr|]. split.
  - intros k c' Hk. rewrite cntr_of_update_cntr. by destruct (decide (self = k)).
  - rewrite cntr_of_update_cntr, decide_True, Hc by done. simpl. eauto.
Qed.

Lemma stable_grows self ms ms' :
  is_Some (cntr_of ms self) → stable ms ms' → grows self ms ms'.
Proof.
  intros [c Hc] [E H]. split; [done|]. split; eauto.
Qed.

Lemma for_instances_grows rec self :
  (∀ k ms ms', rec k ms = Some ms' → stable ms ms') →
  ∀ insts ms ms', is_Some (cntr_of ms self) →
    for_instances rec self insts ms = Some ms' → grows self ms ms'.
Proof.
  intros Hrec. induction insts as [|i rest IH]; intros ms ms' Hself; simpl.
  - intros [= <-]. by apply grows_refl.
  - pose proof (grows_update_cntr (Counter_incr (inst_type i)) self ms Hself) as G1.
    destruct (ms !! inst_type i) as [mi|].
    + destruct (rec _ _) as [ms1|] eqn:Er; [|done].
      destruct (cntr_of ms1 _) as [other|]; [|done].
      intros Hfor. apply Hrec in Er.
      assert (G2 : grows self (update_cntr (Counter_incr (inst_type i)) self ms) ms1).
      { apply stable_grows; [apply G1|done]. }
      assert (G3 := grows_update_cntr (λ c, Counter_iadd c other) self ms1 (proj2 (proj2 G2))).
      apply IH in Hfor; [|apply G3].
      eauto using grows_trans.
    + intros Hfor. apply IH in Hfor; [|apply G1]. eauto using grows_trans.
Qed.

Lemma count_instances_stable fuel :
  ∀ k ms ms', count_instances fuel k ms = Some ms' →
    stable ms ms' ∧ is_Some (cntr_of ms' k).
Proof.
  induction fuel as [|fuel IH]; intros k ms ms'; simpl; [done|].
  destruct (ms !! k) as [m|] eqn:Hk; [|done].
  destruct (cntr m) as [c|] eqn:Hc.
  - intros [= <-]. split; [apply stable_refl|].
    exists c. apply cntr_of_Some. eauto.
  - intros Hfor. apply for_instances_grows in Hfor.
    + destruct Hfor as (E & H & S). split; [|done]. split.
      * by rewrite E, erase_insert.
      * intros k' c' Hk'. apply H.
        -- intros ->. apply cntr_of_Some in Hk' as (m' & ? & ?). congruence.
        -- rewrite cntr_of_insert. destruct (decide (k = k')) as [->|]; [|done].
           apply cntr_of_Some in Hk' as (m' & ? & ?). congruence.
    + intros k' ms1 ms2 Hr. by apply IH in Hr as [? _].
    + rewrite cntr_of_insert, decide_True by done. eauto.
Qed.

(** ** Termination of the counter *)

Lemma elem_of_uncached ms k :
  k ∈ uncached ms ↔ ∃ m, ms !! k = Some m ∧ cntr m = None.
Proof.
  unfold uncached. rewrite elem_of_dom. split.
  - intros [m Hm]. apply map_lookup_filter_Some in Hm as [? ?]. eauto.
  - intros (m & ? & ?). exists m. by apply map_lookup_filter_Some.
Qed.

Lemma uncached_stable ms ms' : erase ms' = erase ms →
  (∀ k c, cntr_of ms k = Some c → is_Some (cntr_of ms' k)) →
  uncached ms' ⊆ uncached ms.
Proof.
  intros E H k. rewrite !elem_of_uncached. intros (m' & Hm' & Hc').
  destruct (erase_lookup_Some _ _ _ _ (eq_sym E) Hm') as (m & Hm & _).
  exists m. split; [done|]. destruct (cntr m) as [c|] eqn:Hc; [|done].
  destruct (H k c) as [c' Hk']; [apply cntr_of_Some; eauto|].
  apply cntr_of_Some in Hk' as (m'' & ? & ?). congruence.
Qed.

Lemma uncached_insert ms k m c :
  ms !! k = Some m → cntr m = None →
  (size (uncached (<[k := set_cntr (Some c) m]> ms)) < size (uncached ms))%nat.
Proof.
  intros Hk Hc. apply subset_size. split.
  - apply uncached_stable; [by apply erase_insert|].
    intros k' c' Hk'. rewrite cntr_of_insert. destruct (decide (k = k')); eauto.
  - intros Hsub. assert (Hin : k ∈ uncached ms) by (apply elem_of_uncached; eauto).
    apply Hsub, elem_of_uncached in Hin as (m' & Hm' & Hc').
    rewrite lookup_insert_eq in Hm'. by simplify_eq.
Qed.

Lemma uncached_size ms : (size (uncached ms) ≤ size ms)%nat.
Proof.
  unfold uncached. rewrite size_dom. apply map_subseteq_size, map_filter_subseteq.
Qed.

Lemma for_instances_total rec self (n : nat) :
  (∀ k ms ms', rec k ms = Some ms' → stable ms ms' ∧ is_Some (cntr_of ms' k)) →
  (∀ k ms, (size (uncached ms) ≤ n)%nat → is_Some (ms !! k) → is_Some (rec k ms)) →
  ∀ insts ms, is_Some (cntr_of ms self) → (size (uncached ms) ≤ n)%nat →
    is_Some (for_instances rec self insts ms).
Proof.
  intros Hst Hrec. induction insts as [|i rest IH]; intros ms Hself Hn; simpl; [eauto|].
  pose proof (grows_update_cntr (Counter_incr (inst_type i)) self ms Hself) as G1.
  assert (Hn1 : (size (uncached (update_cntr (Counter_incr (inst_type i)) self ms)) ≤ n)%nat).
  { etrans; [|apply Hn]. apply subseteq_size, uncached_stable; [apply G1|].
    intros k c Hk. rewrite cntr_of_update_cntr, Hk. destruct (decide (self = k)); simpl; eauto. }
  destruct (ms !! inst_type i) as [mi|] eqn:Hi.
  - destruct (Hrec (inst_type i) (update_cntr (Counter_incr (inst_type i)) self ms))
      as [ms1 Hr]; [done| |].
    { apply (erase_is_Some ms); [apply G1|eauto]. }
    rewrite Hr. destruct (Hst _ _ _ Hr) as [S1 [other Ho]]. rewrite Ho.
    assert (G2 := stable_grows self _ _ (proj2 (proj2 G1)) S1).
    apply IH.
    + apply grows_update_cntr, G2.
    + etrans; [|apply Hn1]. apply subseteq_size, uncached_stable.
      * rewrite erase_update_cntr. apply S1.
      * intros k c Hk. rewrite cntr_of_update_cntr.
        apply (proj2 S1) in Hk. rewrite Hk. destruct (decide (self = k)); simpl; eauto.
  - by apply IH; [apply G1|].
Qed.

Lemma count_instances_total fuel :
  ∀ k ms, (size (uncached ms) < fuel)%nat → is_Some (ms !! k) →
    is_Some (count_instances fuel k ms).
Proof.
  induction fuel as [|fuel IH]; intros k ms Hn [m Hk]; [lia|]. simpl.
  rewrite Hk. destruct (cntr m) as [c|] eqn:Hc; [eauto|].
  pose proof (uncached_insert ms k m ∅ Hk Hc) as Hlt.
  apply (for_instances_total _ _ (fuel - 1)).
  - apply count_instances_stable.
  - intros k' ms' Hs Hk'. apply IH; [lia|done].
  - rewrite cntr_of_insert, decide_True by done. eauto.
  - lia.
Qed.

Lemma count_instances_fuel fuel :
  ∀ fuel' k ms ms', (fuel ≤ fuel')%nat →
    count_instances fuel k ms = Some ms' → count_instances fuel' k ms = Some ms'.
Proof.
  induction fuel as [|fuel IH]; intros fuel' k ms ms' Hle; [done|].
  destruct fuel' as [|fuel']; [lia|]. simpl.
  destruct (ms !! k) as [m|]; [|done]. destruct (cntr m); [done|].
  generalize (instances m) (<[k:=set_cntr (Some ∅) m]> ms).
  induction l as [|i rest IHl]; intros ms0; simpl; [done|].
  destruct (ms0 !! inst_type i); [|apply IHl].
  destruct (count_instances fuel _ _) as [ms1|] eqn:E; [|done].
  rewrite (IH fuel' _ _ _ ltac:(lia) E).
  destruct (cntr_of ms1 _); [apply IHl|done].
Qed.

(** ** Correctness of the counter on acyclic designs *)

Lemma instance_sum_app sub key l1 l2 :
  instance_sum sub key (l1 ++ l2) = instance_sum sub key l1 + instance_sum sub key l2.
Proof.
  unfold instance_sum. induction l1 as [|i l1 IH]; simpl; [done|]. rewrite IH. lia.
Qed.

Lemma instance_sum_ext sub sub' key insts :
  (∀ i, i ∈ insts → default ∅ (sub (inst_type i)) = default ∅ (sub' (inst_type i))) →
  instance_sum sub key insts = instance_sum sub' key insts.
Proof.
  unfold instance_sum. induction insts as [|i l IH]; intros H; simpl; [done|].
  rewrite IH by (intros; apply H; by right).
  unfold contribution. rewrite (H i) by left. done.
Qed.

Lemma complete_agree ms ms' m c :
  erase ms' = erase ms →
  (∀ i o, i ∈ instances m → cntr_of ms (inst_type i) = Some o →
          cntr_of ms' (inst_type i) = Some o) →
  complete ms m c → complete ms' m c.
Proof.
  intros E H (Hp & Hch & Hsum). split; [done|].
  assert (Hch' : ∀ i, i ∈ instances m → is_Some (ms' !! inst_type i) →
                 ∃ o, cntr_of ms (inst_type i) = Some o ∧ cntr_of ms' (inst_type i) = Some o).
  { intros i Hi Hpres. destruct (Hch i Hi) as [o Ho].
    - by apply (erase_is_Some ms').
    - eauto. }
  split.
  - intros i Hi Hpres. destruct (Hch' i Hi Hpres) as (o & _ & ->). eauto.
  - intros key. rewrite Hsum. apply instance_sum_ext. intros i Hi.
    destruct (ms' !! inst_type i) as [mi|] eqn:Hmi.
    + destruct (Hch' i Hi) as (o & -> & ->); [rewrite Hmi; eauto|done].
    + unfold cntr_of. rewrite Hmi, (erase_lookup_None ms' ms); done.
Qed.

Lemma complete_stable ms ms' m c : stable ms ms' → complete ms m c → complete ms' m c.
Proof. intros [E H]. apply complete_agree; eauto. Qed.

Section acyclic.
Variable ms0 : gmap Value Mod.
Hypothesis Hacyc : acyclic ms0.

Let R := instantiates ms0.

Lemma child_edge ms self m i :
  erase ms = erase ms0 → ms !! self = Some m → i ∈ instances m →
  is_Some (ms !! inst_type i) → R self (inst_type i).
Proof.
  intros E Hm Hi Hp.
  destruct (erase_lookup_Some _ _ _ _ (eq_sym E) Hm) as (m0 & Hm0 & _ & _ & _ & Hin).
  exists m0, i. rewrite Hin. repeat split; try done.
  by apply (erase_is_Some ms).
Qed.

Lemma ok_update_cntr f self ms k :
  erase ms = erase ms0 → tc R self k → ok ms k → ok (update_cntr f self ms) k.
Proof.
  intros E Hk Hok m c Hm Hc.
  assert (k ≠ self) as Hne by (intros ->; by apply (Hacyc self)).
  unfold update_cntr in Hm. rewrite lookup_alter_ne in Hm by done.
  apply (complete_agree ms); [apply erase_update_cntr| |by apply Hok].
  intros i o Hi Ho. rewrite cntr_of_update_cntr.
  destruct (decide (self = inst_type i)) as [Heq|]; [|done].
  exfalso. apply (Hacyc self). eapply tc_r; [apply Hk|].
  rewrite Heq. eapply child_edge; eauto.
  apply cntr_of_Some in Ho as (? & -> & _). eauto.
Qed.

Lemma for_instances_complete rec self :
  (∀ t ms ms', rec t ms = Some ms' → stable ms ms' ∧ is_Some (cntr_of ms' t)) →
  (∀ t ms ms', erase ms = erase ms0 → rec t ms = Some ms' →
     (∀ k', rtc R t k' → ok ms k') →
     (∀ k', rtc R t k' → ok ms' k') ∧ (∀ k', ms' !! k' ≠ ms !! k' → rtc R t k')) →
  ∀ rest done ms ms' m c,
    erase ms = erase ms0 →
    ms !! self = Some m → instances m = done ++ rest →
    cntr m = Some c → Counter_pos c →
    (∀ key, Counter_get c key = instance_sum (cntr_of ms) key done) →
    (∀ i, i ∈ done → is_Some (ms !! inst_type i) → is_Some (cntr_of ms (inst_type i))) →
    (∀ k', tc R self k' → ok ms k') →
    for_instances rec self rest ms = Some ms' →
    erase ms' = erase ms0
    ∧ (∃ m' c', ms' !! self = Some m' ∧ cntr m' = Some c' ∧ complete ms' m' c')
    ∧ (∀ k', tc R self k' → ok ms' k')
    ∧ (∀ k', k' ≠ self → ms' !! k' ≠ ms !! k' → tc R self k').
Proof.
  intros Hst Hrec.
  induction rest as [|i rest IH]; intros done ms ms' m c E Hm Hin Hc Hp Hsum Hch Hok; simpl.
  - intros [= <-]. rewrite app_nil_r in Hin. split; [done|]. split; [|done].
    exists m, c. repeat split; try done; rewrite Hin; done.
  - set (t := inst_type i).
    set (ms_a := update_cntr (Counter_incr t) self ms).
    assert (Ea : erase ms_a = erase ms0) by (unfold ms_a; by rewrite erase_update_cntr).
    set (m_a := set_cntr (Some (Counter_incr t c)) m).
    assert (Hm_a : ms_a !! self = Some m_a).
    { unfold ms_a, update_cntr. rewrite lookup_alter_eq, Hm. simpl. by rewrite Hc. }
    assert (Hothers : ∀ k, k ≠ self → ms_a !! k = ms !! k).
    { intros k Hk. unfold ms_a, update_cntr. by rewrite lookup_alter_ne. }
    assert (Hi_in : i ∈ instances m)
      by (rewrite Hin; apply elem_of_app; right; by left).
    assert (Hoka : ∀ k', tc R self k' → ok ms_a k').
    { intros k' Hk'. apply ok_update_cntr; auto. }
    assert (Hne : ∀ j, j ∈ instances m → is_Some (ms !! inst_type j) → inst_type j ≠ self).
    { intros j Hj Hpj Heq. apply (Hacyc self). apply tc_once.
      pose proof (child_edge ms self m j E Hm Hj Hpj) as Hed.
      by rewrite Heq in Hed. }
    destruct (ms !! t) as [mt|] eqn:Hmt.
    + (* the instance is of a module of the design *)
      assert (Hpres : is_Some (ms !! inst_type i)) by (by exists mt).
      assert (Hedge : R self t) by apply (child_edge ms self m i E Hm Hi_in Hpres).
      assert (Htne : t ≠ self) by (by apply Hne).
      destruct (rec t ms_a) as [ms_b|] eqn:Er; [|done].
      destruct (Hst _ _ _ Er) as [Sab [o Ho]]. fold t. rewrite Ho.
      destruct (Hrec _ _ _ Ea Er) as [Hokb Hframe].
      { intros k' Hk'. apply Hoka. eapply tc_rtc_r; [by apply tc_once|done]. }
      assert (Eb : erase ms_b = erase ms0) by (rewrite (proj1 Sab); done).
      assert (Hself_b : ms_b !! self = Some m_a).
      { destruct (decide (ms_b !! self = ms_a !! self)) as [->|Hd]; [done|].
        destruct (Hacyc self). eapply tc_rtc_r; [by apply tc_once|by apply Hframe]. }
      assert (Hpo : Counter_pos o).
      { apply cntr_of_Some in Ho as (mt' & Hmt' & Hct').
        by destruct (Hokb t (rtc_refl _ _) _ _ Hmt' Hct') as [? _]. }
      destruct (Counter_iadd_pos (Counter_incr t c) o) as [Hp_c Hget_c];
        [by apply Counter_pos_incr|done|].
      set (ms_c := update_cntr (λ c0, Counter_iadd c0 o) self ms_b).
      intros Hfor.
      assert (Hcache : ∀ k o', k ≠ self → cntr_of ms k = Some o' → cntr_of ms_c k = Some o').
      { intros k o' Hk Hko. unfold ms_c. rewrite cntr_of_update_cntr, decide_False by done.
        apply Sab. unfold cntr_of. rewrite Hothers by done. apply Hko. }
      assert (Hot : cntr_of ms_c t = Some o).
      { unfold ms_c. by rewrite cntr_of_update_cntr, decide_False. }
      apply (IH (done ++ [i]) ms_c ms'
               (set_cntr (Some (Counter_iadd (Counter_incr t c) o)) m_a)
               (Counter_iadd (Counter_incr t c) o)) in Hfor.
      * destruct Hfor as (E' & Hself' & Hok' & Hframe').
        split; [done|]. split; [done|]. split; [done|].
        intros k' Hk1 Hk2.
        destruct (decide (ms' !! k' = ms_c !! k')) as [Hd|Hd]; [|by apply Hframe'].
        rewrite Hd in Hk2. unfold ms_c, update_cntr in Hk2.
        rewrite lookup_alter_ne, <- (Hothers k') in Hk2 by done.
        eapply tc_rtc_r; [by apply tc_once|by apply Hframe].
      * unfold ms_c. by rewrite erase_update_cntr.
      * unfold ms_c, update_cntr. rewrite lookup_alter_eq, Hself_b. done.
      * simpl. rewrite Hin, <- app_assoc. done.
      * done.
      * done.
      * intros key. rewrite Hget_c, Counter_get_incr, Hsum, instance_sum_app.
        simpl. unfold contribution. fold t. rewrite Hot. simpl.
        rewrite (instance_sum_ext (cntr_of ms_c) (cntr_of ms)); [lia|].
        intros j Hj. destruct (ms !! inst_type j) as [mj|] eqn:Hmj.
        -- destruct (Hch j Hj) as [oj Hoj]; [rewrite Hmj; eauto|].
           rewrite Hoj, (Hcache _ oj); [done| |done].
           apply Hne; [rewrite Hin; apply elem_of_app; by left|rewrite Hmj; eauto].
        -- unfold cntr_of at 2. rewrite Hmj. unfold cntr_of.
           rewrite (erase_lookup_None ms ms_c); [done| |done].
           unfold ms_c. rewrite erase_update_cntr. congruence.
      * intros j Hj Hpj. apply elem_of_app in Hj as [Hj|Hj%list_elem_of_singleton].
        -- assert (Hpj' : is_Some (ms !! inst_type j)).
           { apply (erase_is_Some ms_c); [|done]. unfold ms_c.
             rewrite erase_update_cntr. congruence. }
           destruct (Hch j Hj Hpj') as [oj Hoj]. rewrite (Hcache _ oj); eauto.
           apply Hne; [rewrite Hin; apply elem_of_app; by left|done].
        -- subst j. fold t. rewrite Hot. eauto.
      * intros k' Hk'. unfold ms_c. apply ok_update_cntr; [done..|].
        destruct (decide (ms_b !! k' = ms_a !! k')) as [Hd|Hd];
          [|by apply Hokb, Hframe].
        intros mk ck Hmk Hck. rewrite Hd in Hmk.
        apply (complete_stable ms_a); [done|]. by apply (Hoka k' Hk').
    + (* the instance is of a primitive *)
      intros Hfor.
      assert (Hcache : ∀ k o', k ≠ self → cntr_of ms k = Some o' → cntr_of ms_a k = Some o').
      { intros k o' Hk Hko. unfold cntr_of. rewrite Hothers by done. apply Hko. }
      apply (IH (done ++ [i]) ms_a ms' m_a (Counter_incr t c)) in Hfor.
      * destruct Hfor as (E' & Hself' & Hok' & Hframe').
        split; [done|]. split; [done|]. split; [done|].
        intros k' Hk1 Hk2. apply Hframe'; [done|]. by rewrite Hothers.
      * done.
      * done.
      * rewrite <- app_assoc. done.
      * done.
      * by apply Counter_pos_incr.
      * intros key. rewrite Counter_get_incr, Hsum, instance_sum_app.
        simpl. unfold contribution. fold t.
        assert (cntr_of ms_a t = None) as ->.
        { unfold cntr_of. rewrite (erase_lookup_None ms ms_a); [done| |done]. congruence. }
        simpl. replace (Counter_get ∅ key) with 0
          by (unfold Counter_get; by rewrite lookup_empty).
        rewrite (instance_sum_ext (cntr_of ms_a) (cntr_of ms)); [lia|].
        intros j Hj. destruct (ms !! inst_type j) as [mj|] eqn:Hmj.
        -- destruct (Hch j Hj) as [oj Hoj]; [rewrite Hmj; eauto|].
           rewrite Hoj, (Hcache _ oj); [done| |done].
           apply Hne; [rewrite Hin; apply elem_of_app; by left|rewrite Hmj; eauto].
        -- unfold cntr_of at 2. rewrite Hmj. unfold cntr_of.
           rewrite (erase_lookup_None ms ms_a); [done| |done]. congruence.
      * intros j Hj Hpj. apply elem_of_app in Hj as [Hj|Hj%list_elem_of_singleton].
        -- assert (Hpj' : is_Some (ms !! inst_type j)).
           { apply (erase_is_Some ms_a); [congruence|done]. }
           destruct (Hch j Hj Hpj') as [oj Hoj]. rewrite (Hcache _ oj); eauto.
           apply Hne; [rewrite Hin; apply elem_of_app; by left|done].
        -- subst j. exfalso. fold t in Hpj.
           rewrite (erase_lookup_None ms ms_a) in Hpj; [by destruct Hpj|congruence|done].
      * done.
Qed.
End acyclic.

Section acyclic_count.
Variable ms0 : gmap Value Mod.
Hypothesis Hacyc : acyclic ms0.

Let R := instantiates ms0.

Lemma rtc_inv_tc (x y : Value) : rtc R x y → x = y ∨ tc R x y.
Proof.
  intros H. apply rtc_tc in H. destruct H; auto.
Qed.

Lemma count_instances_complete fuel :
  ∀ k ms ms', erase ms = erase ms0 → count_instances fuel k ms = Some ms' →
    (∀ k', rtc R k k' → ok ms k') →
    (∀ k', rtc R k k' → ok ms' k') ∧ (∀ k', ms' !! k' ≠ ms !! k' → rtc R k k').
Proof.
  induction fuel as [|fuel IH]; intros k ms ms' E; simpl; [done|].
  destruct (ms !! k) as [m|] eqn:Hk; [|done].
  destruct (cntr m) as [c|] eqn:Hc.
  { intros [= <-] Hok. split; [done|]. intros k' Hk'. done. }
  intros Hfor Hok.
  set (ms1 := <[k := set_cntr (Some ∅) m]> ms) in *.
  assert (E1 : erase ms1 = erase ms0) by (unfold ms1; by rewrite erase_insert).
  assert (Hok1 : ∀ k', tc R k k' → ok ms1 k').
  { intros k' Hk' mk ck Hmk Hck.
    assert (k' ≠ k) as Hne by (intros ->; by apply (Hacyc k)).
    unfold ms1 in Hmk. rewrite lookup_insert_ne in Hmk by done.
    apply (complete_agree ms); [by rewrite E1| |].
    - intros i o Hi Ho. unfold ms1. rewrite cntr_of_insert.
      destruct (decide (k = inst_type i)) as [Heq|]; [|done].
      rewrite <- Heq in Ho. apply cntr_of_Some in Ho as (m2 & ? & ?). congruence.
    - apply (Hok k'); [by apply tc_rtc|done..]. }
  eapply (for_instances_complete ms0 Hacyc _ k) with (done := []) (c := ∅) in Hfor.
  - destruct Hfor as (E' & (m' & c' & Hm' & Hc' & Hcomp) & Hok' & Hframe). split.
    + intros k' [<-|Hk']%rtc_inv_tc.
      * intros m2 c2 Hm2 Hc2. by simplify_eq.
      * by apply Hok'.
    + intros k' Hk'. destruct (decide (k' = k)) as [->|Hne]; [done|].
      apply tc_rtc, Hframe; [done|]. unfold ms1. by rewrite lookup_insert_ne.
  - intros t mt mt' Hr. by apply count_instances_stable in Hr.
  - intros t mt mt' Et Hr Hpre. by apply (IH t mt mt').
  - done.
  - unfold ms1. by rewrite lookup_insert_eq.
  - done.
  - done.
  - apply Counter_pos_empty.
  - intros key. unfold Counter_get. by rewrite lookup_empty.
  - intros i Hi. by apply elem_of_nil in Hi.
  - done.
Qed.

Lemma pred_finite_reach (x : Value) : pred_finite (tc R x).
Proof.
  exists (elements (dom ms0)). intros y Hy.
  apply elem_of_elements, elem_of_dom.
  induction Hy as [x y Hxy|x y z Hxy _ IH]; [|done].
  by destruct Hxy as (m & i & _ & _ & _ & ?).
Qed.

(** On an acyclic design complete counters are unique: they depend on the
    modules only, not on the order in which the caches were filled. *)
Lemma complete_unique k :
  ∀ ms ms' m m' c c', erase ms = erase ms0 → erase ms' = erase ms0 →
    (∀ k', rtc R k k' → ok ms k') → (∀ k', rtc R k k' → ok ms' k') →
    ms !! k = Some m → cntr m = Some c →
    ms' !! k = Some m' → cntr m' = Some c' → c = c'.
Proof.
  assert (Hsn : sn R k) by (apply tc_finite_sn; [exact Hacyc|apply pred_finite_reach]).
  induction Hsn as [k _ IH]. intros ms ms' m m' c c' E E' Hok Hok' Hm Hc Hm' Hc'.
  destruct (Hok k (rtc_refl _ _) m c Hm Hc) as (Hp & Hch & Hsum).
  destruct (Hok' k (rtc_refl _ _) m' c' Hm' Hc') as (Hp' & Hch' & Hsum').
  assert (Hinst : instances m' = instances m).
  { destruct (erase_lookup_Some ms ms' k m) as (m2 & ? & _ & _ & _ & ?);
      [congruence|done|]. congruence. }
  assert (Hget : ∀ key, Counter_get c key = Counter_get c' key).
  { intros key. rewrite Hsum, Hsum', Hinst. apply instance_sum_ext. intros i Hi.
    destruct (ms !! inst_type i) as [mi|] eqn:Hmi.
    - assert (Hedge : R k (inst_type i)).
      { eapply (child_edge ms0 ms); eauto. }
      destruct (Hch i Hi) as [o Ho]; [eauto|].
      destruct (Hch' i) as [o' Ho']; [by rewrite Hinst| |].
      { apply (erase_is_Some ms); [congruence|eauto]. }
      rewrite Ho, Ho'. simpl. f_equal.
      apply cntr_of_Some in Ho as (m1 & Hm1 & Hc1).
      apply cntr_of_Some in Ho' as (m1' & Hm1' & Hc1').
      apply (IH (inst_type i) Hedge ms ms' m1 m1'); try done.
      + intros k' Hk'. apply Hok. by eapply rtc_l.
      + intros k' Hk'. apply Hok'. by eapply rtc_l.
    - unfold cntr_of. rewrite Hmi, (erase_lookup_None ms ms'); [done|congruence|done]. }
  apply map_eq. intros key. specialize (Hget key). unfold Counter_get in Hget.
  destruct (c !! key) as [v|] eqn:Ev, (c' !! key) as [v'|] eqn:Ev'; simpl in Hget.
  - by subst.
  - specialize (Hp _ _ Ev). lia.
  - specialize (Hp' _ _ Ev'). lia.
  - done.
Qed.
End acyclic_count.

(** ** Calls of [Design.count_instances] *)

Lemma Design_count_instances_Ok fuel d k c d' :
  Design_count_instances fuel d k = Ok (c, d') ↔
  is_Some (modules d !! k) ∧ count_instances fuel k (modules d) = Some (modules d')
  ∧ cntr_of (modules d') k = Some c.
Proof.
  unfold Design_count_instances. destruct d' as [ms']. simpl. split.
  - destruct (modules d !! k) as [m|]; [|done].
    destruct (count_instances fuel k (modules d)) as [ms1|]; [|done].
    destruct (cntr_of ms1 k) as [c1|] eqn:E; [|done].
    intros [= <- <-]. eauto.
  - intros ([m ->] & -> & ->). done.
Qed.

Lemma Design_count_instances_fuel fuel fuel' d k r :
  (fuel ≤ fuel')%nat →
  Design_count_instances fuel d k = Ok r → Design_count_instances fuel' d k = Ok r.
Proof.
  intros Hle. destruct r as [c d'].
  rewrite !Design_count_instances_Ok. intros (? & ? & ?).
  eauto using count_instances_fuel.
Qed.

Lemma Design_count_instances_cached fuel d k c :
  cntr_of (modules d) k = Some c →
  Design_count_instances (S fuel) d k = Ok (c, d).
Proof.
  intros Hc. apply Design_count_instances_Ok.
  pose proof Hc as (m & Hm & Hcm)%cntr_of_Some.
  split; [eauto|]. split; [|done]. simpl. by rewrite Hm, Hcm.
Qed.

Lemma Design_count_instances_stable fuel d k c d' :
  Design_count_instances fuel d k = Ok (c, d') → stable (modules d) (modules d').
Proof.
  rewrite Design_count_instances_Ok. intros (_ & H & _).
  by apply count_instances_stable in H as [? _].
Qed.

Lemma count_each_stable fuel ks :
  ∀ d d', count_each fuel d ks = Some d' → stable (modules d) (modules d').
Proof.
  induction ks as [|k ks IH]; intros d d'; simpl.
  - intros [= <-]. apply stable_refl.
  - destruct (Design_count_instances fuel d k) as [[c d1]| |] eqn:E; [|done..].
    intros H. eapply stable_trans; [by eapply Design_count_instances_stable|by apply IH].
Qed.

Lemma Design_count_instances_total fuel d k :
  is_Some (modules d !! k) → (size (modules d) < fuel)%nat →
  ∃ c d', Design_count_instances fuel d k = Ok (c, d').
Proof.
  intros Hk Hfuel.
  destruct (count_instances_total fuel k (modules d)) as [ms' Hms']; [|done|].
  { pose proof (uncached_size (modules d)). lia. }
  destruct (count_instances_stable _ _ _ _ Hms') as [_ [c Hc]].
  exists c, (mkDesign ms'). apply Design_count_instances_Ok. done.
Qed.

Lemma instantiates_erase ms ms' k k' :
  erase ms' = erase ms → instantiates ms k k' → instantiates ms' k k'.
Proof.
  intros E (m & i & Hm & Hi & Ht & Hp).
  destruct (erase_lookup_Some _ _ _ _ E Hm) as (m' & Hm' & _ & _ & _ & Hin).
  exists m', i. rewrite Hin. split_and!; try done. by apply (erase_is_Some ms).
Qed.

Lemma acyclic_erase ms ms' : erase ms' = erase ms → acyclic ms → acyclic ms'.
Proof.
  intros E H k Hk. apply (H k).
  apply (tc_congruence id (instantiates ms)) in Hk; [done|].
  intros x y. by apply instantiates_erase.
Qed.

Lemma coherent_ok ms : coherent ms ↔ ∀ k, ok ms k.
Proof. unfold coherent, ok. naive_solver. Qed.

Lemma fresh_coherent d : fresh d → coherent (modules d).
Proof. intros H k m c Hm Hc. rewrite (H k m Hm) in Hc. done. Qed.

Lemma count_instances_coherent fuel k ms ms' :
  acyclic ms → coherent ms → count_instances fuel k ms = Some ms' → coherent ms'.
Proof.
  intros Ha Hco Hcount. apply coherent_ok. intros k'.
  destruct (count_instances_complete ms Ha fuel k ms ms') as [Hok Hframe]; [done..| |].
  { intros k2 _. by apply coherent_ok. }
  destruct (decide (ms' !! k' = ms !! k')) as [Heq|Hne]; [|by apply Hok, Hframe].
  intros m c Hm Hc. rewrite Heq in Hm.
  apply (complete_stable ms); [by apply count_instances_stable in Hcount as [? _]|].
  by apply (Hco k').
Qed.

Lemma count_each_coherent fuel ks :
  ∀ d d', acyclic (modules d) → coherent (modules d) →
    count_each fuel d ks = Some d' →
    acyclic (modules d') ∧ coherent (modules d').
Proof.
  induction ks as [|k ks IH]; intros d d' Ha Hco; simpl.
  - by intros [= <-].
  - destruct (Design_count_instances fuel d k) as [[c d1]| |] eqn:E; [|done..].
    pose proof E as (_ & Hcount & _)%Design_count_instances_Ok.
    apply IH.
    + eapply acyclic_erase; [|done]. by apply count_instances_stable in Hcount as [[? _] _].
    + by eapply count_instances_coherent.
Qed.

Lemma counted_coherent fuel d M m :
  acyclic (modules d) → coherent (modules d) →
  modules d !! M = Some m → (size (modules d) < fuel)%nat →
  counting_equation fuel d M.
Proof.
  intros Ha Hco Hm Hfuel.
  destruct (Design_count_instances_total fuel d M) as (c & d' & Hcall); [eauto|done|].
  exists m, c, d'. split; [done|]. split; [done|].
  pose proof Hcall as (_ & Hcount & Hc)%Design_count_instances_Ok.
  pose proof (count_instances_stable _ _ _ _ Hcount) as [[E Hst] _].
  pose proof (count_instances_coherent _ _ _ _ Ha Hco Hcount) as Hco'.
  pose proof Hc as (m' & Hm' & Hcm')%cntr_of_Some.
  destruct (Hco' M m' c Hm' Hcm') as (Hp & Hch & Hsum).
  assert (Hinst : instances m' = instances m).
  { destruct (erase_lookup_Some _ _ _ _ E Hm) as (m2 & ? & _ & _ & _ & ?). congruence. }
  rewrite Hinst in *.
  assert (Hget : ∀ key, Counter_get c key = instance_sum (counted fuel d) key (instances m)).
  { intros key. rewrite Hsum. apply instance_sum_ext. intros i Hi. unfold counted.
    destruct (modules d !! inst_type i) as [mi|] eqn:Hmi.
    - destruct (Design_count_instances_total fuel d (inst_type i)) as (ci & di & Hcalli);
        [eauto|done|]. rewrite Hcalli.
      destruct (Hch i Hi) as [o Ho]; [apply (erase_is_Some (modules d)); eauto|].
      rewrite Ho. simpl. f_equal.
      pose proof Hcalli as (_ & Hcounti & Hci)%Design_count_instances_Ok.
      pose proof (count_instances_stable _ _ _ _ Hcounti) as [[Ei _] _].
      pose proof (count_instances_coherent _ _ _ _ Ha Hco Hcounti) as Hcoi.
      apply cntr_of_Some in Ho as (m1 & Hm1 & Hc1).
      apply cntr_of_Some in Hci as (m2 & Hm2 & Hc2).
      apply (complete_unique (modules d) Ha (inst_type i) (modules d') (modules di) m1 m2);
        try done.
      + intros k' _. by apply coherent_ok.
      + intros k' _. by apply coherent_ok.
    - unfold Design_count_instances. rewrite Hmi. unfold cntr_of.
      rewrite (erase_lookup_None (modules d)); done. }
  split; [done|]. intros Hnil. apply Counter_pos_zero; [done|].
  intros key. rewrite Hget, Hnil. done.
Qed.

Lemma Design_init_lookup_cntr mods k m :
  Forall (λ m, cntr m = None) mods →
  modules (Design_init mods) !! k = Some m → cntr m = None.
Proof.
  unfold Design_init. simpl. revert k m.
  induction mods as [|x mods IH] using rev_ind; intros k m Hall; simpl.
  - by rewrite lookup_empty.
  - apply Forall_app in Hall as [Hall Hx]. inversion_clear Hx as [|? ? Hx' _].
    rewrite foldl_app. simpl. rewrite lookup_insert.
    destruct (decide (name x = k)); [by intros [= <-]|by apply IH].
Qed.

Lemma fresh_Design_init mods :
  Forall (λ m, cntr m = None) mods → fresh (Design_init mods).
Proof. intros H k m. by apply Design_init_lookup_cntr. Qed.

Lemma acyclic_by_rank ms (rank : Value → nat) :
  map_Forall (λ k m, Forall (λ i, is_Some (ms !! inst_type i) →
                                  (rank (inst_type i) < rank k)%nat) (instances m)) ms →
  acyclic ms.
Proof.
  intros H.
  assert (Hstep : ∀ k k', instantiates ms k k' → (rank k' < rank k)%nat).
  { intros k k' (m & i & Hm & Hi & <- & Hp).
    specialize (H k m Hm). rewrite Forall_forall in H. by apply H. }
  assert (Htc : ∀ k k', tc (instantiates ms) k k' → (rank k' < rank k)%nat).
  { induction 1 as [x y Hxy|x y z Hxy _ IH]; [by apply Hstep|].
    apply Hstep in Hxy. lia. }
  intros k Hk. apply Htc in Hk. lia.
Qed.

Lemma top_cell_fresh : fresh top_cell.
Proof. apply fresh_Design_init. by repeat constructor. Qed.

Lemma top_cell_acyclic : acyclic (modules top_cell).
Proof.
  apply (acyclic_by_rank _ (λ k, if decide (k = Str "TopCell") then 1%nat else 0%nat)).
  intros k m Hm. apply Forall_forall. intros i Hi Hp.
  unfold top_cell, Design_init in Hm, Hp. simpl in Hm, Hp.
  rewrite !lookup_insert in Hm. rewrite !lookup_insert in Hp.
  repeat case_decide; simplify_eq; simpl in *; try done.
  all: set_solver.
Qed.

(** C1 (amended).  On a design without instantiation cycles, in any state
    that counting calls have left it in since it was parsed,
    [count_instances] of a module [M] of the design returns, and the
    multiset it returns satisfies the counting equation: for every type, its
    count is the number of instances of [M] of that type plus, for each
    instance of [M] whose type is a module of the design, the count of that
    type in what [count_instances] returns for that module; if [M] has no
    instance the multiset is empty. *)
Theorem count_instances_equation (d0 d : Design) (ks : list Value) (M : Value)
    (fuel : nat) :
  fresh d0 → acyclic (modules d0) → count_each fuel d0 ks = Some d →
  is_Some (modules d !! M) → (size (modules d) < fuel)%nat →
  counting_equation fuel d M.
Proof.
  intros Hf Ha Hks [m Hm] Hfuel.
  destruct (count_each_coherent fuel ks d0 d) as [Ha' Hco']; [done|by apply fresh_coherent|done|].
  by eapply counted_coherent.
Qed.

Lemma count_instances_equation_witness :
  counting_equation 3 top_cell (Str "TopCell").
Proof.
  apply (count_instances_equation top_cell top_cell [] (Str "TopCell") 3).
  - apply top_cell_fresh.
  - apply top_cell_acyclic.
  - reflexivity.
  - vm_compute. eauto.
  - vm_compute. lia.
Defined.

(** C1, as stated, fails on a module that instantiates itself: the call
    returns {A: 2}, which is not 1 plus its own count of A. *)
Lemma count_instances_equation_cyclic :
  fresh self_instance ∧ ∀ fuel, ¬ counting_equation fuel self_instance (Str "A").
Proof.
  split; [apply fresh_Design_init; by repeat constructor|].
  intros fuel (m & c & d' & Hm & Hcall & Hsum & _).
  assert (Hfuel : (2 ≤ fuel)%nat).
  { destruct fuel as [|[|fuel]]; [by vm_compute in Hcall..|lia]. }
  assert (H2 : ∃ r, Design_count_instances 2 self_instance (Str "A") = Ok r
               ∧ Counter_get r.1 (Str "A") = 2).
  { eexists. split; [vm_compute; reflexivity|]. by vm_compute. }
  destruct H2 as ([c2 d2] & H2 & Hc2).
  pose proof (Design_count_instances_fuel 2 fuel _ _ _ Hfuel H2) as H3.
  rewrite Hcall in H3. injection H3 as -> ->.
  specialize (Hsum (Str "A")). vm_compute in Hm. injection Hm as <-.
  unfold instance_sum, contribution, counted in Hsum. simpl in Hsum.
  rewrite Hcall in Hsum. simpl in Hsum, Hc2. rewrite Hc2 in Hsum.
  lia.
Qed.

(** C2 (amended).  [count_instances] returns on every design, cyclic or
    not: a module that is reached again while it is being counted returns
    its partly filled cache, so the depth of the recursion is at most the
    number of modules plus one. *)
Theorem count_instances_terminates (d : Design) (k : Value) (fuel : nat) :
  is_Some (modules d !! k) → (size (modules d) < fuel)%nat →
  ∃ c d', Design_count_instances fuel d k = Ok (c, d').
Proof. apply Design_count_instances_total. Qed.

Lemma count_instances_terminates_witness :
  ∃ c d', Design_count_instances 2 self_instance (Str "A") = Ok (c, d').
Proof.
  apply (count_instances_terminates self_instance (Str "A") 2).
  - vm_compute. eauto.
  - vm_compute. lia.
Defined.

(** C2, as stated, fails: module [A] of [self_instance] lies on a cycle,
    and counting it returns. *)
Lemma count_instances_cyclic_returns :
  on_cycle self_instance (Str "A") ∧ ¬ diverges self_instance (Str "A").
Proof.
  split.
  - apply tc_once. eexists _, _. split; [by vm_compute|].
    split; [by left|]. split; [done|]. vm_compute. eauto.
  - intros H. specialize (H 2%nat). by vm_compute in H.
Qed.

(** C3.  Once a call of [count_instances] on a module has returned, a second
    call on that module returns the same multiset and leaves the design as
    it is, so nothing is computed again; and the same holds after any
    further counting calls on the design, whose caches are never changed
    once filled. *)
Theorem count_instances_memoized (fuel : nat) (d d' : Design) (k : Value)
    (c : Counter) :
  Design_count_instances fuel d k = Ok (c, d') →
  (∀ fuel', Design_count_instances (S fuel') d' k = Ok (c, d'))
  ∧ ∀ fuel' ks d'', count_each fuel' d' ks = Some d'' →
      stable (modules d') (modules d'')
      ∧ ∀ fuel'', Design_count_instances (S fuel'') d'' k = Ok (c, d'').
Proof.
  intros (_ & _ & Hc)%Design_count_instances_Ok. split.
  - intros fuel'. by apply Design_count_instances_cached.
  - intros fuel' ks d'' Hks. apply count_each_stable in Hks. split; [done|].
    intros fuel''. apply Design_count_instances_cached. by apply Hks.
Qed.

Lemma count_instances_memoized_witness :
  ∃ c d', Design_count_instances 3 top_cell (Str "TopCell") = Ok (c, d')
          ∧ Design_count_instances 1 d' (Str "TopCell") = Ok (c, d').
Proof.
  destruct (Design_count_instances_total 3 top_cell (Str "TopCell")) as (c & d' & H).
  - vm_compute. eauto.
  - vm_compute. lia.
  - exists c, d'. split; [exact H|].
    apply (count_instances_memoized 3 top_cell d' (Str "TopCell") c H).
Defined.

(** C8.  Asking [Design.count_instances] for a name that is not a key of the
    design's modules raises ([KeyError] from the dictionary lookup); no
    multiset is returned, whatever the depth allowed. *)
Theorem count_instances_unknown_module (fuel : nat) (d : Design) (module : Value) :
  modules d !! module = None →
  Design_count_instances fuel d module = Raise (KeyError module).
Proof. intros H. unfold Design_count_instances. by rewrite H. Qed.

Lemma count_instances_unknown_module_witness :
  Design_count_instances 3 top_cell (Str "AND2") = Raise (KeyError (Str "AND2")).
Proof.
  apply (count_instances_unknown_module 3 top_cell (Str "AND2")).
  vm_compute. reflexivity.
Defined.

(** ** The scanner *)

Lemma span_split p s l r : span p s = (l, r) → s = l ++ r.
Proof.
  revert l r. induction s as [|c s IH]; intros l r; simpl.
  - by intros [= <- <-].
  - destruct (p c); [|by intros [= <- <-]].
    destruct (span p s) as [l' r'] eqn:E. intros [= <- <-].
    simpl. f_equal. by apply IH.
Qed.

Lemma span_Forall p s l r : span p s = (l, r) → Forall (λ c, p c = true) l.
Proof.
  revert l r. induction s as [|c s IH]; intros l r; simpl.
  - intros [= <- <-]. constructor.
  - destruct (p c) eqn:Hc; [|intros [= <- <-]; constructor].
    destruct (span p s) as [l' r'] eqn:E. intros [= <- <-].
    constructor; [done|]. by eapply IH.
Qed.

Lemma span_rest_head p s l c r : span p s = (l, c :: r) → p c = false.
Proof.
  revert l. induction s as [|x s IH]; intros l; simpl; [done|].
  destruct (p x) eqn:Hx.
  - destruct (span p s) as [l1 r1] eqn:E1. intros [= <- ->]. by eapply IH.
  - by intros [= <- -> ->].
Qed.

Lemma span_app p s suf l r :
  span p s = (l, r) →
  (r ≠ [] ∨ match suf with [] => True | c :: _ => p c = false end) →
  span p (s ++ suf) = (l, r ++ suf).
Proof.
  revert l r. induction s as [|c s IH]; intros l r; simpl.
  - intros [= <- <-] [?|H]; [done|]. destruct suf as [|c suf]; [done|].
    simpl. by rewrite H.
  - destruct (p c); [|by intros [= <- <-]].
    destruct (span p s) as [l' r'] eqn:E. intros [= <- <-] H.
    by rewrite (IH l' r').
Qed.

Lemma span_all p l suf :
  Forall (λ c, p c = true) l →
  match suf with [] => True | c :: _ => p c = false end →
  span p (l ++ suf) = (l, suf).
Proof.
  intros Hl Hs. induction Hl as [|c l Hc _ IH]; simpl.
  - destruct suf as [|c suf]; [done|]. simpl. by rewrite Hs.
  - by rewrite Hc, IH.
Qed.

Lemma is_digit_word c : is_digit c = true → is_word c = true.
Proof. unfold is_word. by intros ->. Qed.

Lemma count_nl_app s1 s2 : count_nl (s1 ++ s2) = count_nl s1 + count_nl s2.
Proof.
  unfold count_nl. rewrite foldl_app. generalize (foldl (λ n c, if is_newline c then n + 1 else n) 0 s1).
  induction s2 as [|c s2 IH] using rev_ind; intros z; [simpl; lia|].
  rewrite !foldl_app. simpl. rewrite IH. destruct (is_newline c); lia.
Qed.

Lemma col_after_app col s1 s2 :
  col_after col (s1 ++ s2) = col_after (col_after col s1) s2.
Proof. unfold col_after. by rewrite foldl_app. Qed.

Lemma count_nl_none s :
  Forall (λ c, is_newline c = false) s → count_nl s = 0.
Proof.
  induction s as [|c s IH] using rev_ind; [done|].
  intros [Hs Hc]%Forall_app. inversion_clear Hc as [|? ? Hc' _].
  rewrite count_nl_app, IH by done. unfold count_nl. simpl. by rewrite Hc'.
Qed.

Lemma col_after_none col s :
  Forall (λ c, is_newline c = false) s →
  col_after col s = col + Z.of_nat (length s).
Proof.
  revert col. induction s as [|c s IH]; intros col; [simpl; lia|].
  intros Hall. inversion_clear Hall as [|? ? Hc Hs].
  unfold col_after in *. simpl. rewrite Hc, IH by done. lia.
Qed.

Lemma Forall_not_newline (p : ascii → bool) s :
  (∀ c, p c = true → is_newline c = false) →
  Forall (λ c, p c = true) s → Forall (λ c, is_newline c = false) s.
Proof. intros H Hs. eapply Forall_impl; [exact Hs|exact H]. Qed.

Lemma class_not_newline c :
  is_newline c = true → is_word c = false ∧ is_punct c = false ∧ is_blank c = false.
Proof.
  unfold is_newline. intros H%N.eqb_eq.
  unfold is_word, is_digit, is_punct, is_blank, in_range. rewrite H. done.
Qed.

Lemma word_not_newline c : is_word c = true → is_newline c = false.
Proof.
  intros H. destruct (is_newline c) eqn:E; [|done].
  apply class_not_newline in E as (? & _). congruence.
Qed.

Lemma blank_not_newline c : is_blank c = true → is_newline c = false.
Proof.
  intros H. destruct (is_newline c) eqn:E; [|done].
  apply class_not_newline in E as (? & ? & ?). congruence.
Qed.

Lemma punct_not_newline c : is_punct c = true → is_newline c = false.
Proof.
  intros H. destruct (is_newline c) eqn:E; [|done].
  apply class_not_newline in E as (? & ? & ?). congruence.
Qed.

(** The shape of a lexeme: it is a non-empty prefix of the text, a comment
    or newline ends the line, and any other lexeme stays on it. *)
Lemma regex_match_shape s kind lexeme rest col :
  regex_match s = Some (kind, lexeme, rest) →
  s = lexeme ++ rest ∧ (0 < length lexeme)%nat
  ∧ match kind with
    | COMMENT | NEWLINE => count_nl lexeme = 1 ∧ col_after col lexeme = 0
    | _ => count_nl lexeme = 0
           ∧ col_after col lexeme = col + Z.of_nat (length lexeme)
    end.
Proof.
  unfold regex_match. destruct s as [|c s']; [done|].
  destruct (match_comment (c :: s')) as [[lx r]|] eqn:Hcom.
  { intros [= <- <- <-]. unfold match_comment in Hcom.
    destruct c as [[] [] [] [] [] [] [] []]; try done.
    destruct s' as [|c2 s2]; [done|].
    destruct c2 as [[] [] [] [] [] [] [] []]; try done.
    destruct (span _ s2) as [body r'] eqn:Hsp. destruct r' as [|nl r']; [done|].
    injection Hcom as <- <-.
    pose proof (span_Forall _ _ _ _ Hsp) as Hbody.
    assert (Hnl : is_newline nl = true).
    { apply span_rest_head in Hsp. by apply negb_false_iff in Hsp. }
    assert (Hb : Forall (λ c, is_newline c = false) body).
    { eapply Forall_impl; [exact Hbody|]. intros x Hx. by apply negb_true_iff in Hx. }
    split; [simpl; by rewrite (span_split _ _ _ _ Hsp), <- app_assoc|].
    split; [simpl; lia|].
    change ("/"%char :: "/"%char :: body ++ [nl]) with (["/"%char; "/"%char] ++ body ++ [nl]).
    rewrite !count_nl_app, !col_after_app, (count_nl_none body) by done.
    unfold count_nl, col_after at 1. simpl. rewrite Hnl. done. }
  destruct (is_newline c) eqn:Hnl.
  { intros [= <- <- <-]. split; [done|]. split; [simpl; lia|].
    unfold count_nl, col_after. simpl. by rewrite Hnl. }
  destruct (is_digit c) eqn:Hd.
  { destruct (span is_digit (c :: s')) as [l r] eqn:Hsp. intros [= <- <- <-].
    pose proof (span_split _ _ _ _ Hsp) as Hs.
    pose proof (span_Forall _ _ _ _ Hsp) as Hall.
    assert (Hn : Forall (λ c, is_newline c = false) l).
    { eapply Forall_impl; [exact Hall|]. intros x Hx.
      by apply word_not_newline, is_digit_word. }
    split; [done|]. split.
    - simpl in Hsp. rewrite Hd in Hsp. destruct (span is_digit s').
      injection Hsp as <- <-. simpl. lia.
    - split; [by apply count_nl_none|by apply col_after_none]. }
  destruct (is_word c) eqn:Hw.
  { destruct (span is_word (c :: s')) as [l r] eqn:Hsp. intros [= <- <- <-].
    pose proof (span_split _ _ _ _ Hsp) as Hs.
    pose proof (span_Forall _ _ _ _ Hsp) as Hall.
    assert (Hn : Forall (λ c, is_newline c = false) l).
    { eapply Forall_impl; [exact Hall|]. intros x Hx. by apply word_not_newline. }
    split; [done|]. split.
    - simpl in Hsp. rewrite Hw in Hsp. destruct (span is_word s').
      injection Hsp as <- <-. simpl. lia.
    - split; [by apply count_nl_none|by apply col_after_none]. }
  destruct (is_punct c) eqn:Hp.
  { intros [= <- <- <-]. split; [done|]. split; [simpl; lia|].
    unfold count_nl, col_after. simpl. rewrite Hnl. split; [done|lia]. }
  destruct (is_blank c) eqn:Hb.
  { destruct (span is_blank (c :: s')) as [l r] eqn:Hsp. intros [= <- <- <-].
    pose proof (span_split _ _ _ _ Hsp) as Hs.
    pose proof (span_Forall _ _ _ _ Hsp) as Hall.
    assert (Hn : Forall (λ c, is_newline c = false) l).
    { eapply Forall_impl; [exact Hall|]. intros x Hx. by apply blank_not_newline. }
    split; [done|]. split.
    - simpl in Hsp. rewrite Hb in Hsp. destruct (span is_blank s').
      injection Hsp as <- <-. simpl. lia.
    - split; [by apply count_nl_none|by apply col_after_none]. }
  intros [= <- <- <-]. split; [done|]. split; [simpl; lia|].
  unfold count_nl, col_after. simpl. rewrite Hnl. split; [done|lia].
Qed.

Lemma match_comment_slash c s x : match_comment (c :: s) = Some x → c = "/"%char.
Proof.
  unfold match_comment. destruct c as [[] [] [] [] [] [] [] []]; done.
Qed.

Lemma match_comment_app s suf lx r :
  match_comment s = Some (lx, r) → match_comment (s ++ suf) = Some (lx, r ++ suf).
Proof.
  unfold match_comment. destruct s as [|c s]; [done|].
  destruct c as [[] [] [] [] [] [] [] []]; try done.
  destruct s as [|c2 s2]; [done|].
  destruct c2 as [[] [] [] [] [] [] [] []]; try done.
  destruct (span _ s2) as [body r'] eqn:Hsp. destruct r' as [|nl r']; [done|].
  intros [= <- <-]. simpl.
  rewrite (span_app _ s2 suf body (nl :: r') Hsp) by (by left). done.
Qed.

Lemma regex_match_unrecognized c post :
  unrecognized c post ↔ regex_match (c :: post) = Some (MISMATCH, [c], post).
Proof.
  unfold unrecognized, regex_match. split.
  - intros (Hn & Hw & Hp & Hb & ->). rewrite Hn, Hw, Hp, Hb.
    destruct (is_digit c) eqn:Hd; [|done].
    apply is_digit_word in Hd. congruence.
  - destruct (match_comment (c :: post)) as [[lx r]|]; [done|].
    destruct (is_newline c); [done|].
    destruct (is_digit c) eqn:Hd; [by destruct (span is_digit (c :: post))|].
    destruct (is_word c); [by destruct (span is_word (c :: post))|].
    destruct (is_punct c); [done|].
    destruct (is_blank c); [by destruct (span is_blank (c :: post))|]. done.
Qed.

Lemma regex_match_None s : regex_match s = None → s = [].
Proof.
  destruct s as [|c s']; [done|]. unfold regex_match.
  destruct (match_comment (c :: s')) as [[lx r]|]; [done|].
  destruct (is_newline c); [done|].
  destruct (is_digit c); [by destruct (span is_digit (c :: s'))|].
  destruct (is_word c); [by destruct (span is_word (c :: s'))|].
  destruct (is_punct c); [done|].
  destruct (is_blank c); [by destruct (span is_blank (c :: s'))|]. done.
Qed.

Lemma head_ok_digit suf :
  head_ok suf → match suf with [] => True | c :: _ => is_digit c = false end.
Proof.
  destruct suf as [|c suf]; [done|]. intros [Hw _].
  destruct (is_digit c) eqn:Hd; [|done]. apply is_digit_word in Hd. congruence.
Qed.

Lemma regex_match_app s suf kind lexeme rest :
  regex_match s = Some (kind, lexeme, rest) → kind ≠ MISMATCH → head_ok suf →
  regex_match (s ++ suf) = Some (kind, lexeme, rest ++ suf).
Proof.
  intros Hm Hk Hsuf. unfold regex_match in *. destruct s as [|c s']; [done|].
  simpl app.
  destruct (match_comment (c :: s')) as [[lx r]|] eqn:Hcom.
  { injection Hm as <- <- <-.
    pose proof (match_comment_app (c :: s') suf lx r Hcom) as H.
    simpl app in H. by rewrite H. }
  assert (Hc : is_newline c || is_word c || is_punct c || is_blank c = true).
  { destruct (is_newline c); [done|].
    destruct (is_digit c) eqn:Hd; [by rewrite (is_digit_word c Hd)|].
    destruct (is_word c); [done|]. destruct (is_punct c); [done|].
    destruct (is_blank c); [done|]. by injection Hm as <- _ _. }
  assert (Hcom' : match_comment (c :: s' ++ suf) = None).
  { destruct (match_comment (c :: s' ++ suf)) eqn:E; [|done].
    apply match_comment_slash in E. subst c. done. }
  rewrite Hcom'. destruct (is_newline c); [by injection Hm as <- <- <-|].
  destruct (is_digit c).
  { destruct (span is_digit (c :: s')) as [l r] eqn:Hsp. injection Hm as <- <- <-.
    change (c :: s' ++ suf) with ((c :: s') ++ suf).
    rewrite (span_app _ _ suf l r Hsp); [done|]. right. by apply head_ok_digit. }
  destruct (is_word c).
  { destruct (span is_word (c :: s')) as [l r] eqn:Hsp. injection Hm as <- <- <-.
    change (c :: s' ++ suf) with ((c :: s') ++ suf).
    rewrite (span_app _ _ suf l r Hsp); [done|]. right.
    destruct suf; [done|]. apply Hsuf. }
  destruct (is_punct c); [by injection Hm as <- <- <-|].
  destruct (is_blank c).
  { destruct (span is_blank (c :: s')) as [l r] eqn:Hsp. injection Hm as <- <- <-.
    change (c :: s' ++ suf) with ((c :: s') ++ suf).
    rewrite (span_app _ _ suf l r Hsp); [done|]. right.
    destruct suf; [done|]. apply Hsuf. }
  done.
Qed.

Lemma scan_loop_fuel fuel :
  ∀ fuel' s pos ln start, (length s ≤ fuel)%nat → (length s ≤ fuel')%nat →
    scan_loop fuel s pos ln start = scan_loop fuel' s pos ln start.
Proof.
  induction fuel as [|fuel IH]; intros fuel' s pos ln start Hle Hle'.
  - destruct s; [|simpl in Hle; lia]. by destruct fuel'.
  - destruct fuel' as [|fuel'].
    { destruct s; [done|simpl in Hle'; lia]. }
    simpl. destruct (regex_match s) as [[[kind lexeme] rest']|] eqn:Hm; [|done].
    destruct (regex_match_shape _ _ _ _ 0 Hm) as (Hs & Hl & _).
    assert (length rest' ≤ fuel ∧ length rest' ≤ fuel')%nat as [H1 H2].
    { apply (f_equal length) in Hs. rewrite length_app in Hs. lia. }
    destruct kind; try done; by rewrite (IH fuel').
Qed.

Lemma scan_loop_shift fuel d :
  ∀ s pos ln start,
    scan_loop fuel s (pos + d) ln (start + d) = scan_loop fuel s pos ln start.
Proof.
  induction fuel as [|fuel IH]; intros s pos ln start; [done|]. simpl.
  destruct (regex_match s) as [[[kind lexeme] rest']|]; [|done].
  replace (pos + d - (start + d) + 1) with (pos - start + 1) by lia.
  replace (pos + d + Z.of_nat (length lexeme))
    with (pos + Z.of_nat (length lexeme) + d) by lia.
  destruct kind; try done; by rewrite IH.
Qed.

(** Scanning [s ++ suf], where [s] scans without error and [suf] cannot
    lengthen its last lexeme: the tokens of [s], then the scan of [suf] from
    the line and column that [s] ends on. *)
Lemma scan_loop_app fuel :
  ∀ s suf pos ln start, (length s ≤ fuel)%nat →
    no_raise (scan_loop fuel s pos ln start) → head_ok suf →
    scan_loop (fuel + length suf) (s ++ suf) pos ln start
    = stream_then (scan_loop fuel s pos ln start)
        (scan_loop (length suf) suf (col_after (pos - start) s) (ln + count_nl s) 0).
Proof.
  induction fuel as [|fuel IH]; intros s suf pos ln start Hle Hclean Hsuf.
  - destruct s; [|simpl in Hle; lia]. simpl.
    unfold col_after, count_nl. simpl. rewrite Z.add_0_r.
    rewrite <- (scan_loop_shift _ start suf (pos - start) ln 0).
    f_equal; lia.
  - simpl in Hclean |- *.
    destruct (regex_match s) as [[[kind lexeme] rest']|] eqn:Hm.
    2:{ apply regex_match_None in Hm as ->. simpl.
        destruct suf as [|c suf]; [done|].
        unfold col_after, count_nl. simpl foldl. rewrite Z.add_0_r.
        rewrite <- (scan_loop_shift _ start (c :: suf) (pos - start) ln 0).
        replace (pos - start + start) with pos by lia. rewrite Z.add_0_l.
        apply (scan_loop_fuel (S (fuel + length (c :: suf))) (length (c :: suf)));
          simpl; lia. }
    destruct (regex_match_shape _ _ _ _ (pos - start) Hm) as (Hs & Hl & Hshape).
    assert (Hk : kind ≠ MISMATCH) by (by intros ->).
    rewrite (regex_match_app s suf kind lexeme rest' Hm Hk Hsuf).
    assert (Hr : (length rest' ≤ fuel)%nat).
    { apply (f_equal length) in Hs. rewrite length_app in Hs. lia. }
    subst s. rewrite count_nl_app, col_after_app.
    assert (IH' : ∀ pos' ln' start' col' ln'',
      col' = pos' - start' → ln'' = ln' + count_nl rest' →
      no_raise (scan_loop fuel rest' pos' ln' start') →
      scan_loop (fuel + length suf) (rest' ++ suf) pos' ln' start'
      = stream_then (scan_loop fuel rest' pos' ln' start')
          (scan_loop (length suf) suf (col_after col' rest') ln'' 0)).
    { intros pos' ln' start' col' ln'' -> -> Hc. by apply IH. }
    destruct kind; try done; simpl in Hclean |- *; destruct Hshape as [Hnl Hcol];
      rewrite Hnl, Hcol; try f_equal; apply IH'; (lia || done).
Qed.

Lemma stream_then_of_list toks s : stream_then (stream_of_list toks) s = stream_app toks s.
Proof. induction toks as [|t toks IH]; simpl; [done|]. by rewrite <- IH. Qed.

Lemma no_raise_of_list toks : no_raise (stream_of_list toks).
Proof. by induction toks. Qed.

Lemma scan_text_app pre suf toks :
  scan_text pre = stream_of_list toks → head_ok suf →
  scan_text (pre ++ suf)
  = stream_app toks (scan_loop (length suf) suf (col_after 0 pre) (line_of pre) 0).
Proof.
  unfold scan_text. intros Hpre Hsuf. rewrite length_app.
  rewrite scan_loop_app; [|done| |done].
  - by rewrite Hpre, stream_then_of_list.
  - rewrite Hpre. apply no_raise_of_list.
Qed.

Lemma count_nl_nonneg s : 0 ≤ count_nl s.
Proof.
  induction s as [|c s IH] using rev_ind; [done|].
  rewrite count_nl_app. unfold count_nl at 2. simpl. destruct (is_newline c); lia.
Qed.

Lemma col_after_nonneg col s : 0 ≤ col → 0 ≤ col_after col s.
Proof.
  revert col. induction s as [|c s IH]; intros col Hc; [done|].
  unfold col_after in *. simpl. apply IH. destruct (is_newline c); lia.
Qed.

Lemma scan_text_mismatch pre post c toks :
  scan_text pre = stream_of_list toks → unrecognized c post →
  scan_text (pre ++ c :: post)
  = stream_app toks (SRaise (RuntimeError (String c "") (column_of pre) (line_of pre))).
Proof.
  intros Hpre Hc. rewrite (scan_text_app pre (c :: post) toks Hpre).
  - apply regex_match_unrecognized in Hc.
    cbn [length scan_loop]. rewrite Hc. cbn [string_of_list_ascii].
    unfold column_of. do 3 f_equal. lia.
  - destruct Hc as (_ & ? & _ & ? & _). by split.
Qed.

(** C6.  When the text before a character scans to the tokens [toks] and
    the character matches none of the lexeme classes, scanning the whole
    text yields exactly [toks] and then raises the lexical error, which
    carries that character, its line (one plus the number of newlines
    before it) and its column (one plus the number of characters between
    the last newline and it), both at least 1; nothing is yielded after
    it, whatever follows. *)
Theorem scan_unrecognized (pre post : list ascii) (c : ascii) (toks : list Token) :
  scan_text pre = stream_of_list toks → unrecognized c post →
  scan_text (pre ++ c :: post)
  = stream_app toks (SRaise (RuntimeError (String c "") (column_of pre) (line_of pre)))
  ∧ 1 ≤ line_of pre ∧ 1 ≤ column_of pre.
Proof.
  intros Hpre Hc. split; [by apply scan_text_mismatch|].
  unfold line_of, column_of. pose proof (count_nl_nonneg pre).
    pose proof (col_after_nonneg 0 pre). lia.
Qed.

Lemma scan_unrecognized_witness :
  scan_text (list_ascii_of_string "wire x;" ++ "@"%char :: list_ascii_of_string " y")
  = stream_app [mkToken "wire" (Str "wire") 1 1; mkToken "IDENTIFIER" (Str "x") 1 6;
                mkToken ";" (Str ";") 1 7]
      (SRaise (RuntimeError "@" 8 1))
  ∧ 1 ≤ 1 ∧ 1 ≤ 8.
Proof.
  apply (scan_unrecognized (list_ascii_of_string "wire x;") (list_ascii_of_string " y")
           "@"%char).
  - vm_compute. reflexivity.
  - vm_compute. done.
Defined.

(** C10.  A [//] on the last line of a text that does not end in a newline
    is not a comment: if the text before it scans to [toks], scanning yields
    [toks] and then raises the lexical error for the first [/], at its line
    and column; the same text followed by a newline scans to [toks] without
    error. *)
Theorem unterminated_comment (pre body : list ascii) (toks : list Token) :
  scan_text pre = stream_of_list toks →
  Forall (λ c, is_newline c = false) body →
  scan_text (pre ++ "/"%char :: "/"%char :: body)
  = stream_app toks (SRaise (RuntimeError "/" (column_of pre) (line_of pre)))
  ∧ scan_text (pre ++ "/"%char :: "/"%char :: body ++ ["010"%char])
    = stream_of_list toks.
Proof.
  intros Hpre Hbody.
  assert (Hspan : span (λ c, negb (is_newline c)) body = (body, [])).
  { rewrite <- (app_nil_r body) at 1. apply span_all; [|done].
    eapply Forall_impl; [exact Hbody|]. by intros x ->. }
  assert (Hspan' : span (λ c, negb (is_newline c)) (body ++ ["010"%char])
                   = (body, ["010"%char])).
  { apply span_all; [|done]. eapply Forall_impl; [exact Hbody|]. by intros x ->. }
  split.
  - apply (scan_text_mismatch pre ("/"%char :: body) "/"%char toks Hpre).
    repeat split; try done. simpl. by rewrite Hspan.
  - rewrite (scan_text_app pre _ toks Hpre) by done.
    cbn [length scan_loop regex_match match_comment]. rewrite Hspan'.
    simpl. by destruct (length body + 1)%nat.
Qed.

Lemma unterminated_comment_witness :
  scan_text (list_ascii_of_string "wire x; " ++ "/"%char :: "/"%char :: list_ascii_of_string " hi")
  = stream_app [mkToken "wire" (Str "wire") 1 1; mkToken "IDENTIFIER" (Str "x") 1 6;
                mkToken ";" (Str ";") 1 7]
      (SRaise (RuntimeError "/" 9 1))
  ∧ scan_text (list_ascii_of_string "wire x; " ++ "/"%char :: "/"%char
                 :: list_ascii_of_string " hi" ++ ["010"%char])
    = stream_of_list [mkToken "wire" (Str "wire") 1 1; mkToken "IDENTIFIER" (Str "x") 1 6;
                      mkToken ";" (Str ";") 1 7].
Proof.
  apply (unterminated_comment (list_ascii_of_string "wire x; ") (list_ascii_of_string " hi")).
  - vm_compute. reflexivity.
  - vm_compute. by repeat constructor.
Defined.

(** ** The parser on a well-formed sequence of tokens *)

Lemma advance_on cur t ts :
  _advance (Parser_on cur (t :: ts)) = Ok (tt, Parser_on (Some t) ts).
Proof. by destruct ts. Qed.

Lemma accept_hit k cur t ts :
  type t = k → _accept k (Parser_on cur (t :: ts)) = Ok (true, Parser_on (Some t) ts).
Proof.
  intros <-. unfold _accept. cbn [Parser_on next_token head].
  rewrite String.eqb_refl. unfold bind. change (mkParser _ _ _) with (Parser_on cur (t :: ts)).
  by rewrite advance_on.
Qed.

Lemma accept_miss k cur ts :
  peek ts ≠ Some k → _accept k (Parser_on cur ts) = Ok (false, Parser_on cur ts).
Proof.
  intros H. unfold _accept. cbn [Parser_on next_token].
  destruct ts as [|t ts]; [done|]. cbn [head].
  destruct (String.eqb (type t) k) eqn:E; [|done].
  apply String.eqb_eq in E. destruct H. unfold peek. simpl. by rewrite E.
Qed.

Lemma expect_hit k cur t ts :
  type t = k → _expect k (Parser_on cur (t :: ts)) = Ok (tt, Parser_on (Some t) ts).
Proof. intros H. unfold _expect, bind. by rewrite accept_hit. Qed.

Lemma token_value_on t ts :
  token_value (Parser_on (Some t) ts) = Ok (value t, Parser_on (Some t) ts).
Proof. done. Qed.

Lemma token_type_on t ts :
  token_type (Parser_on (Some t) ts) = Ok (type t, Parser_on (Some t) ts).
Proof. done. Qed.

Lemma last_token_nil cur : last_token cur [] = cur.
Proof. done. Qed.

Lemma last_token_cons cur t ts : last_token cur (t :: ts) = last_token (Some t) ts.
Proof.
  unfold last_token. rewrite last_cons. by destruct (last ts).
Qed.

Lemma last_token_app cur ts1 ts2 :
  last_token cur (ts1 ++ ts2) = last_token (last_token cur ts1) ts2.
Proof.
  revert cur. induction ts1 as [|t ts1 IH]; intros cur; [done|].
  simpl. by rewrite !last_token_cons, IH.
Qed.

Lemma peek_cons t ts k : type t = k → peek (t :: ts) = Some k.
Proof. by intros <-. Qed.

(** One step of a method on a parser that stands on a list of tokens. *)
Ltac peek_ne :=
  match goal with
  | |- peek [] ≠ _ => done
  | |- peek (?t :: _) ≠ Some ?k =>
      let H := fresh in
      intros H; unfold peek in H; simpl in H; congruence
  | |- peek (_ ++ _) ≠ _ => simpl; peek_ne
  | _ => assumption
  end.

Lemma ret_on {A} (a : A) p : ret a p = Ok (a, p).
Proof. done. Qed.

Ltac step :=
  first
    [ rewrite expect_hit by done
    | rewrite accept_hit by done
    | rewrite accept_miss by peek_ne
    | rewrite token_value_on
    | rewrite token_type_on
    | rewrite ret_on ];
  cbn beta iota.

Ltac steps :=
  unfold bind; repeat step;
  rewrite ?last_token_cons, ?last_token_nil; cbn [fst snd].

Lemma parse_dimensions_ok cur ts v rest :
  g_dimensions ts v → peek rest ≠ Some "["%string →
  _parse_dimensions (Parser_on cur (ts ++ rest))
  = Ok (v, Parser_on (last_token cur ts) rest).
Proof.
  intros Hg Hrest. unfold _parse_dimensions. destruct Hg.
  - simpl app. by steps.
  - simpl app. by steps.
Qed.

Lemma parse_arg_ok cur ts a rest :
  g_arg ts a →
  _parse_arg (Parser_on cur (ts ++ rest)) = Ok (a, Parser_on (last_token cur ts) rest).
Proof.
  intros Hg. unfold _parse_arg. destruct Hg as [dot p lp a sel ml rp ? ? ? ? Hsel ?].
  rewrite !last_token_cons, last_token_app.
  destruct Hsel; simpl app; by steps.
Qed.

Lemma parse_args_loop_ok ts l :
  g_rep (g_sep "," g_arg) ts l →
  ∀ fuel acc cur rest, peek rest ≠ Some ","%string → (length ts < fuel)%nat →
    _parse_args_loop fuel acc (Parser_on cur (ts ++ rest))
    = Ok (acc ++ l, Parser_on (last_token cur ts) rest).
Proof.
  induction 1 as [|ts a tss l Hg _ IH]; intros fuel acc cur rest Hrest Hfuel.
  - destruct fuel as [|fuel]; [simpl in Hfuel; lia|]. simpl. steps.
    by rewrite app_nil_r.
  - destruct Hg as [s ts a Hs Harg].
    destruct fuel as [|fuel]; [simpl in Hfuel; lia|].
    rewrite <- app_assoc. cbn [app _parse_args_loop]. steps.
    rewrite (parse_arg_ok _ ts a (tss ++ rest) Harg). cbn beta iota.
    rewrite IH; [|done|simpl in Hfuel; rewrite length_app in Hfuel; lia].
    by rewrite last_token_app, <- app_assoc.
Qed.

Lemma parse_args_ok fuel cur ts l rest :
  g_args ts l → peek rest ≠ Some ","%string → (length ts < fuel)%nat →
  _parse_args fuel (Parser_on cur (ts ++ rest))
  = Ok (l, Parser_on (last_token cur ts) rest).
Proof.
  intros [ts1 a tss l' Harg Hrep] Hrest Hfuel. unfold _parse_args, bind.
  rewrite <- app_assoc, (parse_arg_ok _ ts1 a (tss ++ rest) Harg).
  rewrite (parse_args_loop_ok tss l' Hrep); [|done|rewrite length_app in Hfuel; lia].
  by rewrite last_token_app.
Qed.

Lemma parse_params_loop_ok ts l :
  g_rep (g_sep "," g_identifier) ts l →
  ∀ fuel acc cur rest, peek rest ≠ Some ","%string → (length ts < fuel)%nat →
    _parse_params_loop fuel acc (Parser_on cur (ts ++ rest))
    = Ok (acc ++ l, Parser_on (last_token cur ts) rest).
Proof.
  induction 1 as [|ts a tss l Hg _ IH]; intros fuel acc cur rest Hrest Hfuel.
  - destruct fuel as [|fuel]; [simpl in Hfuel; lia|]. simpl. steps.
    by rewrite app_nil_r.
  - destruct Hg as [s ts a Hs [t Ht]].
    destruct fuel as [|fuel]; [simpl in Hfuel; lia|].
    cbn [app _parse_params_loop]. steps.
    rewrite IH; [|done|simpl in Hfuel; lia].
    by rewrite <- app_assoc.
Qed.

Lemma parse_params_ok fuel cur ts l rest :
  g_params ts l → peek rest ≠ Some ","%string → (length ts < fuel)%nat →
  _parse_params fuel (Parser_on cur (ts ++ rest))
  = Ok (l, Parser_on (last_token cur ts) rest).
Proof.
  intros [t tss vs Ht Hrep] Hrest Hfuel. unfold _parse_params.
  cbn [app]. steps.
  rewrite (parse_params_loop_ok tss vs Hrep); [done|done|simpl in Hfuel; lia].
Qed.

Lemma accept_net_kind_hit cur t ts :
  type t ∈ ["output"; "input"; "wire"]%string →
  accept_net_kind (Parser_on cur (t :: ts)) = Ok (true, Parser_on (Some t) ts).
Proof.
  intros Ht. unfold accept_net_kind.
  apply elem_of_cons in Ht as [Ht|Ht]; [by steps|].
  apply elem_of_cons in Ht as [Ht|Ht]; [by steps|].
  apply list_elem_of_singleton in Ht. by steps.
Qed.

Lemma accept_net_kind_miss cur ts :
  peek ts ≠ Some "output"%string → peek ts ≠ Some "input"%string →
  peek ts ≠ Some "wire"%string →
  accept_net_kind (Parser_on cur ts) = Ok (false, Parser_on cur ts).
Proof. intros. unfold accept_net_kind. by steps. Qed.

Lemma parse_nets_loop_ok ts l :
  g_rep g_net ts l →
  ∀ fuel acc cur rest,
    peek rest ≠ Some "output"%string → peek rest ≠ Some "input"%string →
    peek rest ≠ Some "wire"%string → (length ts < fuel)%nat →
    _parse_nets_loop fuel acc (Parser_on cur (ts ++ rest))
    = Ok (acc ++ l, Parser_on (last_token cur ts) rest).
Proof.
  induction 1 as [|ts a tss l Hg _ IH]; intros fuel acc cur rest Ho Hi Hw Hfuel.
  - destruct fuel as [|fuel]; [simpl in Hfuel; lia|]. simpl. unfold bind.
    rewrite accept_net_kind_miss by done. by rewrite app_nil_r.
  - destruct Hg as [kw ds dims id semi Hkw Hds Hid Hsemi].
    destruct fuel as [|fuel]; [simpl in Hfuel; lia|].
    rewrite <- !app_assoc. cbn [app _parse_nets_loop]. rewrite <- !app_assoc.
    cbn [app]. unfold bind.
    rewrite accept_net_kind_hit by done. cbn beta iota.
    rewrite token_type_on. cbn beta iota.
    rewrite (parse_dimensions_ok _ ds dims _ Hds) by peek_ne. steps.
    rewrite IH; [|done..|simpl in Hfuel; rewrite !length_app in Hfuel; simpl in Hfuel; lia].
    rewrite ?last_token_app, ?last_token_cons, ?last_token_nil.
    by rewrite <- app_assoc.
Qed.

Lemma parse_instances_loop_ok ts l :
  g_rep g_instance ts l →
  ∀ fuel acc cur rest,
    peek rest ≠ Some "IDENTIFIER"%string → (length ts < fuel)%nat →
    _parse_instances_loop fuel acc (Parser_on cur (ts ++ rest))
    = Ok (acc ++ l, Parser_on (last_token cur ts) rest).
Proof.
  induction 1 as [|ts a tss l Hg _ IH]; intros fuel acc cur rest Hrest Hfuel.
  - destruct fuel as [|fuel]; [simpl in Hfuel; lia|]. simpl. steps.
    by rewrite app_nil_r.
  - destruct Hg as [kind nm lp ts args rp semi Hkind Hnm Hlp Hargs Hrp Hsemi].
    destruct fuel as [|fuel]; [simpl in Hfuel; lia|].
    rewrite <- !app_assoc. cbn [app _parse_instances_loop]. rewrite <- !app_assoc.
    cbn [app]. steps.
    rewrite (parse_args_ok fuel _ ts args _ Hargs);
      [|peek_ne|simpl in Hfuel; rewrite !length_app in Hfuel; lia].
    steps.
    rewrite IH; [|done|simpl in Hfuel; rewrite !length_app in Hfuel; simpl in Hfuel; lia].
    rewrite ?last_token_app, ?last_token_cons, ?last_token_nil.
    by rewrite <- app_assoc.
Qed.

Lemma instances_peek tis insts rest :
  g_rep g_instance tis insts →
  peek (tis ++ rest) = peek rest ∨ peek (tis ++ rest) = Some "IDENTIFIER"%string.
Proof.
  destruct 1 as [|ts a tss l Hg _]; [by left|]. right.
  destruct Hg. rewrite <- app_assoc. by apply peek_cons.
Qed.

Lemma parse_file_loop_ok ts l :
  g_rep g_module ts l →
  ∀ fuel acc cur, (length ts < fuel)%nat →
    _parse_file_loop fuel acc (Parser_on cur ts)
    = Ok (Design_init (acc ++ l), Parser_on (last_token cur ts) []).
Proof.
  induction 1 as [|ts a tss l Hg _ IH]; intros fuel acc cur Hfuel.
  - destruct fuel as [|fuel]; [simpl in Hfuel; lia|]. simpl. steps.
    by rewrite app_nil_r.
  - destruct Hg as [kw nm lp tps ps rp semi tns ns tis insts endkw
                      Hkw Hnm Hlp Hps Hrp Hsemi Hns His Hend].
    destruct fuel as [|fuel]; [simpl in Hfuel; lia|].
    simpl in Hfuel. rewrite !length_app in Hfuel. simpl in Hfuel.
    rewrite !length_app in Hfuel. simpl in Hfuel.
    assert (Hpeek : ∀ k, k ≠ "IDENTIFIER"%string → k ≠ "endmodule"%string →
              peek (tis ++ endkw :: tss) ≠ Some k).
    { intros k Hk1 Hk2.
      destruct (instances_peek tis insts (endkw :: tss) His) as [-> | ->];
        [|congruence]. rewrite (peek_cons endkw tss "endmodule") by done. congruence. }
    cbn [app _parse_file_loop]. rewrite <- !app_assoc. cbn [app].
    rewrite <- !app_assoc. cbn [app]. steps.
    rewrite (parse_params_ok fuel _ tps ps _ Hps); [|peek_ne|lia].
    steps. unfold _parse_nets, _parse_instances.
    rewrite (parse_nets_loop_ok tns ns Hns); [|by apply Hpeek..|lia].
    cbn beta iota. rewrite (parse_instances_loop_ok tis insts His); [|peek_ne|lia].
    steps.
    rewrite IH by lia.
    repeat (rewrite last_token_app || rewrite last_token_cons).
    by rewrite <- app_assoc.
Qed.

(** ** No [AttributeError] while parsing *)

Lemma triple_ret {A} (a : A) (post : A → Parser → Prop) pre :
  (∀ p, pre p → post a p) → triple pre (ret a) post.
Proof. intros H p Hp. by apply H. Qed.

Lemma triple_bind {A B} (m : M A) (k : A → M B) pre mid post :
  triple pre m mid → (∀ a, triple (mid a) (k a) post) → triple pre (bind m k) post.
Proof.
  intros Hm Hk p Hp. unfold bind. specialize (Hm p Hp).
  destruct (m p) as [[a p']| |]; [|done..]. by apply Hk.
Qed.

Lemma triple_weaken {A} (m : M A) (pre pre' : Parser → Prop) (post post' : A → Parser → Prop) :
  triple pre m post → (∀ p, pre' p → pre p) → (∀ a p, post a p → post' a p) →
  triple pre' m post'.
Proof.
  intros Hm H1 H2 p Hp. specialize (Hm p (H1 p Hp)).
  destruct (m p) as [[a p']| |]; [|done..]. by apply H2.
Qed.

Lemma accept_triple k :
  triple (λ p, lexical (token_gen p)) (_accept k)
    (λ b p', if b then started p' else lexical (token_gen p')).
Proof.
  intros p Hp. unfold _accept. destruct (next_token p) as [t|] eqn:Ht; [|done].
  destruct (String.eqb (type t) k); [|done].
  unfold bind, _advance. destruct (token_gen p) as [|t' g|e] eqn:Hg; simpl.
  - split; [by rewrite Ht|done].
  - split; [by rewrite Ht|done].
  - by destruct e.
Qed.

Lemma accept_safe k : safe (_accept k).
Proof.
  intros p [Htok Hlex]. pose proof (accept_triple k p Hlex) as H.
  destruct (_accept k p) as [[b p']| |] eqn:E; [|done..].
  destruct b; [done|]. split; [|done].
  unfold _accept in E. destruct (next_token p) as [t|]; [|by injection E as <-].
  destruct (String.eqb (type t) k); [|by injection E as <-].
  unfold bind in E. destruct (_advance p) as [[? ?]| |]; done.
Qed.

Lemma expect_safe k : safe (_expect k).
Proof.
  unfold _expect. eapply triple_bind; [apply accept_safe|].
  intros [|]; cbn beta iota; [by apply triple_ret|].
  intros p [Htok _]. by destruct (token p).
Qed.

Lemma token_value_safe : safe token_value.
Proof.
  intros p [Htok Hlex]. unfold token_value.
  destruct (token p) eqn:E; [|done]. split; [by rewrite E|done].
Qed.

Lemma token_type_safe : safe token_type.
Proof.
  intros p [Htok Hlex]. unfold token_type.
  destruct (token p) eqn:E; [|done]. split; [by rewrite E|done].
Qed.

Lemma safe_bind {A B} (m : M A) (k : A → M B) :
  safe m → (∀ a, safe (k a)) → safe (bind m k).
Proof. intros. by eapply triple_bind. Qed.

Lemma safe_ret {A} (a : A) : safe (ret a).
Proof. by apply triple_ret. Qed.

Ltac safe :=
  repeat first
    [ apply safe_ret | apply expect_safe | apply accept_safe
    | apply token_value_safe | apply token_type_safe
    | assumption
    | apply safe_bind; [|intros ?]
    | match goal with |- safe (if ?b then _ else _) => destruct b end ].

Lemma parse_params_loop_safe fuel : ∀ ps, safe (_parse_params_loop fuel ps).
Proof.
  induction fuel as [|fuel IH]; intros ps; [done|]. simpl. safe. apply IH.
Qed.

Lemma parse_params_safe fuel : safe (_parse_params fuel).
Proof. unfold _parse_params. safe. apply parse_params_loop_safe. Qed.

Lemma parse_dimensions_safe : safe _parse_dimensions.
Proof. unfold _parse_dimensions. safe. Qed.

Lemma accept_net_kind_safe : safe accept_net_kind.
Proof. unfold accept_net_kind. safe. Qed.

Lemma parse_nets_loop_safe fuel : ∀ acc, safe (_parse_nets_loop fuel acc).
Proof.
  induction fuel as [|fuel IH]; intros acc; [done|]. simpl.
  apply safe_bind; [apply accept_net_kind_safe|]. intros [|]; [|safe].
  apply safe_bind; [safe|]. intros kind.
  apply safe_bind; [apply parse_dimensions_safe|]. intros dims. safe. apply IH.
Qed.

Lemma parse_arg_safe : safe _parse_arg.
Proof. unfold _parse_arg. safe. Qed.

Lemma parse_args_loop_safe fuel : ∀ acc, safe (_parse_args_loop fuel acc).
Proof.
  induction fuel as [|fuel IH]; intros acc; [done|]. simpl.
  apply safe_bind; [safe|]. intros [|]; [|safe].
  apply safe_bind; [apply parse_arg_safe|]. intros a. apply IH.
Qed.

Lemma parse_args_safe fuel : safe (_parse_args fuel).
Proof.
  unfold _parse_args. apply safe_bind; [apply parse_arg_safe|].
  intros a. apply parse_args_loop_safe.
Qed.

Lemma parse_instances_loop_safe fuel : ∀ acc, safe (_parse_instances_loop fuel acc).
Proof.
  induction fuel as [|fuel IH]; intros acc; [done|]. simpl.
  apply safe_bind; [safe|]. intros [|]; [|safe].
  do 4 (apply safe_bind; [safe|]; intros ?).
  apply safe_bind; [apply parse_args_safe|]. intros args. safe. apply IH.
Qed.

Lemma parse_file_loop_safe fuel :
  ∀ acc, triple (λ p, lexical (token_gen p)) (_parse_file_loop fuel acc)
           (λ _ p', lexical (token_gen p')).
Proof.
  induction fuel as [|fuel IH]; intros acc; [done|]. simpl.
  eapply triple_bind; [apply accept_triple|]. intros [|]; [|by apply triple_ret].
  do 3 (eapply triple_bind; [safe|]; intros ?).
  eapply triple_bind; [apply parse_params_safe|]. intros ps.
  do 2 (eapply triple_bind; [safe|]; intros ?).
  eapply triple_bind; [apply parse_nets_loop_safe|]. intros ns.
  eapply triple_bind; [apply parse_instances_loop_safe|]. intros insts.
  eapply triple_bind; [safe|]. intros ?.
  eapply triple_weaken; [apply IH| |done]. by intros p [_ ?].
Qed.

Lemma scan_loop_lexical fuel : ∀ s pos ln start, lexical (scan_loop fuel s pos ln start).
Proof.
  induction fuel as [|fuel IH]; intros s pos ln start; [done|]. simpl.
  destruct (regex_match s) as [[[kind lexeme] rest]|]; [|done].
  destruct kind; simpl; try done; apply IH.
Qed.

Lemma parse_no_AttributeError fuel inp : parse fuel inp ≠ Raise AttributeError.
Proof.
  unfold parse.
  assert (H : triple (λ p, lexical (token_gen p)) (parse_tokens fuel) (λ _ _, True)).
  { unfold parse_tokens.
    apply (triple_bind _ _ _ (λ _ p, lexical (token_gen p))).
    - intros p Hp. unfold _advance. destruct (token_gen p) as [| |e] eqn:E; simpl; try done.
      by destruct e.
    - intros _. simpl. eapply triple_bind; [apply parse_file_loop_safe|].
      intros d p Hp. simpl. by destruct (next_token p). }
  specialize (H (Parser_init (scan inp)) (scan_loop_lexical _ _ _ _ _)).
  destruct (parse_tokens fuel (Parser_init (scan inp))) as [[d p]|e|]; congruence.
Qed.

(** ** Parsing well-formed input *)

Lemma advance_init toks :
  _advance (Parser_init (stream_of_list toks)) = Ok (tt, Parser_on None toks).
Proof. by destruct toks. Qed.

Lemma parse_tokens_ok fuel toks mods :
  g_file toks mods → (length toks < fuel)%nat →
  parse_tokens fuel (Parser_init (stream_of_list toks))
  = Ok (Design_init mods, Parser_on (last_token None toks) []).
Proof.
  intros Hg Hfuel. unfold parse_tokens, bind. rewrite advance_init.
  unfold _parse_file. by rewrite (parse_file_loop_ok toks mods Hg).
Qed.

Lemma parse_ok fuel inp toks mods :
  scan inp = stream_of_list toks → g_file toks mods → (length toks < fuel)%nat →
  parse fuel inp = Ok (Design_init mods).
Proof.
  intros Hscan Hg Hfuel. unfold parse.
  by rewrite Hscan, (parse_tokens_ok fuel toks mods).
Qed.

Lemma Design_init_lookup mods n :
  modules (Design_init mods) !! n = last (filter (λ m, name m = n) mods).
Proof.
  unfold Design_init. simpl.
  induction mods as [|m mods IH] using rev_ind; [done|].
  rewrite foldl_app, filter_app. simpl. rewrite lookup_insert.
  rewrite filter_cons, filter_nil.
  destruct (decide (name m = n)) as [Hn|Hn].
  - by rewrite last_snoc.
  - by rewrite app_nil_r.
Qed.

(** C4.  [_parse_arg] on the tokens of a port connection: with a bracketed
    single number, [msb] and [lsb] are both that number; with two numbers
    separated by a colon, [msb] is the first and [lsb] the second; without
    brackets both are 0.  The tokens are consumed up to the closing
    parenthesis. *)
Theorem parse_arg_bit_select (cur : option Token) (rest : list Token)
    (dot p lp a lb m c l rb rp : Token) :
  type dot = "."%string → type p = "IDENTIFIER"%string → type lp = "("%string →
  type a = "IDENTIFIER"%string → type lb = "["%string → type m = "NUMBER"%string →
  type c = ":"%string → type l = "NUMBER"%string → type rb = "]"%string →
  type rp = ")"%string →
  _parse_arg (Parser_on cur (dot :: p :: lp :: a :: lb :: m :: rb :: rp :: rest))
  = Ok (mkArgument (value p) (value a) (value m) (value m), Parser_on (Some rp) rest)
  ∧ _parse_arg (Parser_on cur (dot :: p :: lp :: a :: lb :: m :: c :: l :: rb :: rp :: rest))
    = Ok (mkArgument (value p) (value a) (value m) (value l), Parser_on (Some rp) rest)
  ∧ _parse_arg (Parser_on cur (dot :: p :: lp :: a :: rp :: rest))
    = Ok (mkArgument (value p) (value a) (Int 0) (Int 0), Parser_on (Some rp) rest).
Proof.
  intros. split_and!.
  - apply (parse_arg_ok cur [dot; p; lp; a; lb; m; rb; rp]
             (mkArgument (value p) (value a) (value m, value m).1 (value m, value m).2) rest).
    apply (g_arg_intro dot p lp a [lb; m; rb] _ rp); try done. by constructor.
  - apply (parse_arg_ok cur [dot; p; lp; a; lb; m; c; l; rb; rp]
             (mkArgument (value p) (value a) (value m, value l).1 (value m, value l).2) rest).
    apply (g_arg_intro dot p lp a [lb; m; c; l; rb] _ rp); try done. by constructor.
  - apply (parse_arg_ok cur [dot; p; lp; a; rp]
             (mkArgument (value p) (value a) (Int 0, Int 0).1 (Int 0, Int 0).2) rest).
    apply (g_arg_intro dot p lp a [] _ rp); try done. by constructor.
Qed.

Lemma parse_arg_bit_select_witness :
  let t k v := mkToken k v 1 1 in
  let pre := [t "." (Str "."); t "IDENTIFIER" (Str "A"); t "(" (Str "(");
              t "IDENTIFIER" (Str "x")]%string in
  _parse_arg (Parser_on None
    (pre ++ [t "[" (Str "["); t "NUMBER" (Int 3); t "]" (Str "]"); t ")" (Str ")")]%string))
  = Ok (mkArgument (Str "A") (Str "x") (Int 3) (Int 3),
        Parser_on (Some (t ")" (Str ")"))%string) [])
  ∧ _parse_arg (Parser_on None
      (pre ++ [t "[" (Str "["); t "NUMBER" (Int 3); t ":" (Str ":"); t "NUMBER" (Int 1);
               t "]" (Str "]"); t ")" (Str ")")]%string))
    = Ok (mkArgument (Str "A") (Str "x") (Int 3) (Int 1),
          Parser_on (Some (t ")" (Str ")"))%string) [])
  ∧ _parse_arg (Parser_on None (pre ++ [t ")" (Str ")")]%string))
    = Ok (mkArgument (Str "A") (Str "x") (Int 0) (Int 0),
          Parser_on (Some (t ")" (Str ")"))%string) []).
Proof.
  intros t pre.
  apply (parse_arg_bit_select None [] (t "." (Str ".")) (t "IDENTIFIER" (Str "A"))
           (t "(" (Str "(")) (t "IDENTIFIER" (Str "x")) (t "[" (Str "["))
           (t "NUMBER" (Int 3)) (t ":" (Str ":")) (t "NUMBER" (Int 1))
           (t "]" (Str "]")) (t ")" (Str ")")))%string; reflexivity.
Defined.

(** C5.  When [_expect kind] finds a lookahead of another kind (or none),
    it raises the syntax error that names [kind] and carries the column and
    line of the current token, the last one consumed; the error is the
    outcome of whatever the parser was going to do next, so no design is
    returned.  While parsing there always is a current token when [_expect]
    is called: [parse] never fails on reading the position of a missing
    token. *)
Theorem expect_failure :
  (∀ (kind : string) (p : Parser) (t : Token),
     token p = Some t → type <$> next_token p ≠ Some kind →
     _expect kind p = Raise (SyntaxError (Expected kind (column t) (line t)))
     ∧ ∀ A (k : unit → M A),
         bind (_expect kind) k p = Raise (SyntaxError (Expected kind (column t) (line t))))
  ∧ (∀ (fuel : nat) (inp : string), parse fuel inp ≠ Raise AttributeError).
Proof.
  split; [|apply parse_no_AttributeError].
  intros kind p t Ht Hnext.
  assert (H : _expect kind p = Raise (SyntaxError (Expected kind (column t) (line t)))).
  { unfold _expect, bind, _accept. destruct (next_token p) as [n|]; [|by rewrite Ht].
    destruct (String.eqb (type n) kind) eqn:E; [|by rewrite Ht].
    apply String.eqb_eq in E. simpl in Hnext. congruence. }
  split; [done|]. intros A k. unfold bind. by rewrite H.
Qed.

Lemma expect_failure_witness :
  _expect ";" (Parser_on (Some (mkToken "IDENTIFIER" (Str "a") 3 8))
                 [mkToken "endmodule" (Str "endmodule") 4 1])
  = Raise (SyntaxError (Expected ";" 8 3)).
Proof.
  apply (proj1 expect_failure ";"%string
           (Parser_on (Some (mkToken "IDENTIFIER" (Str "a") 3 8))
              [mkToken "endmodule" (Str "endmodule") 4 1])
           (mkToken "IDENTIFIER" (Str "a") 3 8)).
  - reflexivity.
  - simpl. discriminate.
Defined.

(** C7.  If tokens are left when the loop over the modules ends, [parse]
    raises the syntax error 'Unexpected end of file'.  On a well-formed
    input, one whose tokens the grammar derives, the loop ends with no
    lookahead and an exhausted generator, and [parse] returns the design of
    the modules of the input. *)
Theorem parse_end_of_stream :
  (∀ (fuel : nat) (inp : string) (d : Design) (p : Parser) (t : Token),
     (_advance ;; _parse_file fuel) (Parser_init (scan inp)) = Ok (d, p) →
     next_token p = Some t →
     parse fuel inp = Raise (SyntaxError UnexpectedEndOfFile))
  ∧ (∀ (fuel : nat) (inp : string) (toks : list Token) (mods : list Mod),
       scan inp = stream_of_list toks → g_file toks mods → (length toks < fuel)%nat →
       parse fuel inp = Ok (Design_init mods)
       ∧ ∃ p, (_advance ;; _parse_file fuel) (Parser_init (scan inp))
              = Ok (Design_init mods, p)
              ∧ next_token p = None ∧ token_gen p = SNil).
Proof.
  split.
  - intros fuel inp d p t Hrun Hnext. unfold parse, parse_tokens.
    unfold bind in *. destruct (_advance (Parser_init (scan inp))) as [[[] p0]| |]; [|done..].
    rewrite Hrun, Hnext. done.
  - intros fuel inp toks mods Hscan Hg Hfuel. split; [by eapply parse_ok|].
    exists (Parser_on (last_token None toks) []). split; [|done].
    rewrite Hscan. unfold bind. rewrite advance_init.
    unfold _parse_file. by rewrite (parse_file_loop_ok toks mods Hg).
Qed.

(** A module with one parameter, no net and no instance. *)
Lemma g_module_plain kw nm lp a rp semi endkw :
  type kw = "module"%string → type nm = "IDENTIFIER"%string → type lp = "("%string →
  type a = "IDENTIFIER"%string → type rp = ")"%string → type semi = ";"%string →
  type endkw = "endmodule"%string →
  g_module [kw; nm; lp; a; rp; semi; endkw] (Mod_init (value nm) [value a] [] []).
Proof.
  intros. apply (g_module_intro kw nm lp [a] [value a] rp semi [] [] [] [] endkw);
    try done; by repeat constructor.
Qed.

Lemma parse_end_of_stream_witness :
  parse 20 "module m(a); endmodule ;" = Raise (SyntaxError UnexpectedEndOfFile)
  ∧ parse 20 "module m(a); endmodule" = Ok (Design_init [Mod_init (Str "m") [Str "a"] [] []]).
Proof.
  split.
  - apply (proj1 parse_end_of_stream 20%nat "module m(a); endmodule ;"%string
             (Design_init [Mod_init (Str "m") [Str "a"] [] []])
             (Parser_on (Some (mkToken "endmodule" (Str "endmodule") 1 14))
                [mkToken ";" (Str ";") 1 24])
             (mkToken ";" (Str ";") 1 24)).
    + vm_compute. reflexivity.
    + reflexivity.
  - pose (toks := tokens_of (scan "module m(a); endmodule")). vm_compute in toks.
    apply (proj2 parse_end_of_stream 20%nat "module m(a); endmodule"%string toks
             [Mod_init (Str "m") [Str "a"] [] []]).
    + vm_compute. reflexivity.
    + apply (g_rep_cons g_module toks _ [] []); [|constructor].
      by apply g_module_plain.
    + vm_compute. lia.
Defined.

(** C9.  A well-formed input that defines several modules of the same name
    parses without error, whether names repeat or not, and the design maps
    each name to the last module of that name in the source; the earlier
    ones are not in the design. *)
Theorem parse_duplicate_modules (fuel : nat) (inp : string) (toks : list Token)
    (mods : list Mod) :
  scan inp = stream_of_list toks → g_file toks mods → (length toks < fuel)%nat →
  ∃ d, parse fuel inp = Ok d
       ∧ ∀ n, modules d !! n = last (filter (λ m, name m = n) mods).
Proof.
  intros Hscan Hg Hfuel. exists (Design_init mods).
  split; [by eapply parse_ok|]. apply Design_init_lookup.
Qed.

Lemma dup_tokens_file :
  g_file dup_tokens [Mod_init (Str "m") [Str "a"] [] []; Mod_init (Str "m") [Str "b"] [] []].
Proof.
  apply (g_rep_cons g_module (take 7 dup_tokens) _ (drop 7 dup_tokens) _).
  - by apply g_module_plain.
  - apply (g_rep_cons g_module (drop 7 dup_tokens) _ [] []); [|constructor].
    by apply g_module_plain.
Qed.

Lemma parse_duplicate_modules_witness :
  ∃ d, parse 20 "module m(a); endmodule module m(b); endmodule" = Ok d
       ∧ ∀ n, modules d !! n
              = last (filter (λ m, name m = n)
                        [Mod_init (Str "m") [Str "a"] [] [];
                         Mod_init (Str "m") [Str "b"] [] []]).
Proof.
  refine (parse_duplicate_modules 20 "module m(a); endmodule module m(b); endmodule"
           dup_tokens [Mod_init (Str "m") [Str "a"] [] []; Mod_init (Str "m") [Str "b"] [] []]
           _ dup_tokens_file _).
  - vm_compute. reflexivity.
  - vm_compute. lia.
Defined.

(** ** The parser accepts only what the grammar derives *)

Lemma bind_inv {A B} (m : M A) (k : A → M B) p r :
  bind m k p = Ok r → ∃ a p1, m p = Ok (a, p1) ∧ k a p1 = Ok r.
Proof.
  unfold bind. destruct (m p) as [[a p1]| |]; [|done..]. eauto.
Qed.

Lemma consumes_nil p : consumes p p [].
Proof. done. Qed.

Lemma consumes_trans p p1 p2 ts1 ts2 :
  consumes p p1 ts1 → consumes p1 p2 ts2 → consumes p p2 (ts1 ++ ts2).
Proof.
  intros [U1 T1] [U2 T2]. split.
  - rewrite U1, U2. unfold stream_app. by rewrite foldr_app.
  - by rewrite T2, T1, last_token_app.
Qed.

Lemma advance_inv p u p' :
  _advance p = Ok (u, p') →
  token p' = next_token p ∧ drained p'
  ∧ token_gen p = upcoming p'.
Proof.
  unfold _advance. destruct (token_gen p) as [|t g|e] eqn:E; [| |done].
  - intros [= <- <-]. by repeat split.
  - intros [= <- <-]. by repeat split.
Qed.

Lemma accept_inv k p b p' :
  _accept k p = Ok (b, p') →
  if b then ∃ t, type t = k ∧ consumes p p' [t] ∧ drained p' else p' = p.
Proof.
  unfold _accept. destruct (next_token p) as [t|] eqn:Ht; [|by intros [= <- <-]].
  destruct (String.eqb (type t) k) eqn:E; [|by intros [= <- <-]].
  apply String.eqb_eq in E. intros (u & p1 & Hadv & Hret)%bind_inv.
  injection Hret as <- <-. apply advance_inv in Hadv as (Htok & Hd & Hgen).
  exists t. split; [done|]. split; [|done]. split.
  - unfold upcoming at 1. rewrite Ht, Hgen. done.
  - rewrite Htok, Ht. done.
Qed.

Lemma expect_inv k p u p' :
  _expect k p = Ok (u, p') → ∃ t, type t = k ∧ consumes p p' [t] ∧ drained p'.
Proof.
  unfold _expect. intros ([|] & p1 & Hacc & Hk)%bind_inv.
  - injection Hk as <- <-. by apply accept_inv in Hacc.
  - by destruct (token p1).
Qed.

Lemma token_value_inv p v p' :
  token_value p = Ok (v, p') → p' = p ∧ ∃ t, token p = Some t ∧ v = value t.
Proof.
  unfold token_value. destruct (token p) as [t|]; [|done].
  intros [= <- <-]. eauto.
Qed.

Lemma token_type_inv p v p' :
  token_type p = Ok (v, p') → p' = p ∧ ∃ t, token p = Some t ∧ v = type t.
Proof.
  unfold token_type. destruct (token p) as [t|]; [|done].
  intros [= <- <-]. eauto.
Qed.

Lemma consumes_token p p' ts t : consumes p p' (ts ++ [t]) → token p' = Some t.
Proof.
  intros [_ ->]. rewrite last_token_app, last_token_cons. done.
Qed.

Lemma consumes_one_token p p' t : consumes p p' [t] → token p' = Some t.
Proof. apply (consumes_token p p' []). Qed.

(** [expect] then read the value of the token just consumed. *)
Lemma expect_value_inv k p (u : unit) p1 v p2 :
  _expect k p = Ok (u, p1) → token_value p1 = Ok (v, p2) →
  ∃ t, type t = k ∧ v = value t ∧ p2 = p1 ∧ consumes p p1 [t] ∧ drained p1.
Proof.
  intros (t & Ht & Hc & Hd)%expect_inv (-> & t' & Ht' & ->)%token_value_inv.
  rewrite (consumes_one_token _ _ _ Hc) in Ht'. injection Ht' as <-.
  exists t. done.
Qed.

Tactic Notation "binv" hyp(H) "as" ident(a) ident(p) ident(H1) :=
  apply bind_inv in H as (a & p & H1 & H); cbn beta in H.

Lemma parse_params_loop_sound fuel :
  ∀ acc p l p', _parse_params_loop fuel acc p = Ok (l, p') → drained p →
    ∃ ts l', l = acc ++ l' ∧ g_rep (g_sep "," g_identifier) ts l'
             ∧ consumes p p' ts ∧ drained p'.
Proof.
  induction fuel as [|fuel IH]; intros acc p l p' H Hd; [done|]. simpl in H.
  binv H as more p0 Hacc. destruct more.
  - apply accept_inv in Hacc as (s & Hs & Hc1 & Hd1).
    binv H as u1 p1 He. binv H as v p2 Hv.
    destruct (expect_value_inv _ _ _ _ _ _ He Hv) as (t & Ht & -> & -> & Hc2 & Hd2).
    destruct (IH _ _ _ _ H Hd2) as (ts & l' & -> & Hrep & Hc3 & Hd3).
    exists ([s; t] ++ ts), (value t :: l'). split; [by rewrite <- app_assoc|].
    split; [|split; [|done]].
    + apply (g_rep_cons _ [s; t]); [|done]. by repeat constructor.
    + apply (consumes_trans p p1 p' [s; t] ts); [|done].
      by apply (consumes_trans p p0 p1 [s] [t]).
  - apply accept_inv in Hacc as ->. injection H as <- <-.
    exists [], []. rewrite app_nil_r. repeat split; try done. constructor.
Qed.

Lemma parse_params_sound fuel p l p' :
  _parse_params fuel p = Ok (l, p') →
  ∃ ts, g_params ts l ∧ consumes p p' ts ∧ drained p'.
Proof.
  unfold _parse_params. intros H. binv H as u1 p1 He. binv H as v p2 Hv.
  destruct (expect_value_inv _ _ _ _ _ _ He Hv) as (t & Ht & -> & -> & Hc & Hd).
  destruct (parse_params_loop_sound _ _ _ _ _ H Hd) as (ts & l' & -> & Hrep & Hc' & Hd').
  exists ([t] ++ ts). split; [by constructor|]. split; [|done].
  by eapply consumes_trans.
Qed.

Lemma consumes_cons p p1 p2 t ts :
  consumes p p1 [t] → consumes p1 p2 ts → consumes p p2 (t :: ts).
Proof. apply (consumes_trans p p1 p2 [t] ts). Qed.

Ltac chain :=
  repeat first
    [ eassumption
    | apply consumes_nil
    | eapply consumes_cons; [eassumption|]
    | eapply consumes_trans; [eassumption|] ].

Lemma parse_dimensions_sound p v p' :
  _parse_dimensions p = Ok (v, p') → drained p →
  ∃ ts, g_dimensions ts v ∧ consumes p p' ts ∧ drained p'.
Proof.
  unfold _parse_dimensions. intros H Hd. binv H as open p0 Hacc. destruct open.
  - apply accept_inv in Hacc as (lb & Hlb & Hc0 & Hd0).
    binv H as u1 p1 He1. binv H as m p2 Hv1.
    destruct (expect_value_inv _ _ _ _ _ _ He1 Hv1) as (tm & Htm & -> & -> & Hc1 & Hd1).
    binv H as u2 p3 He2. apply expect_inv in He2 as (c & Hc & Hc2 & Hd2).
    binv H as u3 p4 He3. binv H as l p5 Hv2.
    destruct (expect_value_inv _ _ _ _ _ _ He3 Hv2) as (tl & Htl & -> & -> & Hc3 & Hd3).
    binv H as u4 p6 He4. apply expect_inv in He4 as (rb & Hrb & Hc4 & Hd4).
    injection H as <- <-.
    exists [lb; tm; c; tl; rb]. split; [by constructor|]. split; [chain|done].
  - apply accept_inv in Hacc as ->. injection H as <- <-.
    exists []. split; [constructor|]. by split.
Qed.

Lemma accept_net_kind_inv p b p' :
  accept_net_kind p = Ok (b, p') →
  if b then ∃ t, type t ∈ ["output"; "input"; "wire"]%string
                 ∧ consumes p p' [t] ∧ drained p'
  else p' = p.
Proof.
  unfold accept_net_kind. intros H. binv H as o p0 Ho. destruct o.
  - injection H as <- <-. apply accept_inv in Ho as (t & Ht & ? & ?).
    exists t. split; [rewrite Ht; by left|done].
  - apply accept_inv in Ho as ->. binv H as i p1 Hi. destruct i.
    + injection H as <- <-. apply accept_inv in Hi as (t & Ht & ? & ?).
      exists t. split; [rewrite Ht; right; by left|done].
    + apply accept_inv in Hi as ->. destruct b.
      * apply accept_inv in H as (t & Ht & ? & ?).
        exists t. split; [rewrite Ht; right; right; by left|done].
      * by apply accept_inv in H.
Qed.

Lemma parse_nets_loop_sound fuel :
  ∀ acc p l p', _parse_nets_loop fuel acc p = Ok (l, p') → drained p →
    ∃ ts l', l = acc ++ l' ∧ g_rep g_net ts l' ∧ consumes p p' ts ∧ drained p'.
Proof.
  induction fuel as [|fuel IH]; intros acc p l p' H Hd; [done|]. simpl in H.
  binv H as more p0 Hacc. destruct more.
  - apply accept_net_kind_inv in Hacc as (kw & Hkw & Hc0 & Hd0).
    binv H as kind p1 Hty. apply token_type_inv in Hty as (-> & kw' & Hkw' & ->).
    rewrite (consumes_one_token _ _ _ Hc0) in Hkw'. injection Hkw' as <-.
    binv H as dims p2 Hdims.
    apply parse_dimensions_sound in Hdims as (ds & Hds & Hc1 & Hd1); [|done].
    binv H as u1 p3 He1. binv H as n p4 Hv1.
    destruct (expect_value_inv _ _ _ _ _ _ He1 Hv1) as (id & Hid & -> & -> & Hc2 & Hd2).
    binv H as u2 p5 He2. apply expect_inv in He2 as (semi & Hsemi & Hc3 & Hd3).
    destruct (IH _ _ _ _ H Hd3) as (ts & l' & -> & Hrep & Hc4 & Hd4).
    exists ((kw :: ds ++ [id; semi]) ++ ts), (mkNet (type kw) (value id) dims.1 dims.2 :: l').
    split; [by rewrite <- app_assoc|]. split; [|split; [|done]].
    + apply g_rep_cons; [|done]. by constructor.
    + eapply consumes_trans; [|exact Hc4].
      eapply consumes_cons; [exact Hc0|]. eapply consumes_trans; [exact Hc1|]. chain.
  - apply accept_net_kind_inv in Hacc as ->. injection H as <- <-.
    exists [], []. rewrite app_nil_r. repeat split; try done. constructor.
Qed.

Lemma parse_arg_sound p a p' :
  _parse_arg p = Ok (a, p') → ∃ ts, g_arg ts a ∧ consumes p p' ts ∧ drained p'.
Proof.
  unfold _parse_arg. intros H.
  binv H as u0 p0 He0. apply expect_inv in He0 as (dot & Hdot & Hc0 & Hd0).
  binv H as u1 p1 He1. binv H as prm p2 Hv1.
  destruct (expect_value_inv _ _ _ _ _ _ He1 Hv1) as (tp & Htp & -> & -> & Hc1 & Hd1).
  binv H as u2 p3 He2. apply expect_inv in He2 as (lp & Hlp & Hc2 & Hd2).
  binv H as u3 p4 He3. binv H as av p5 Hv3.
  destruct (expect_value_inv _ _ _ _ _ _ He3 Hv3) as (ta & Hta & -> & -> & Hc3 & Hd3).
  binv H as sel p6 Hsel.
  binv H as u4 p7 He4. apply expect_inv in He4 as (rp & Hrp & Hc4 & Hd4).
  injection H as <- <-.
  assert (Hs : ∃ ts, g_select ts sel ∧ consumes p4 p6 ts).
  { clear Hc4 Hd4. binv Hsel as open q0 Hacc. destruct open.
    - apply accept_inv in Hacc as (lb & Hlb & Hq0 & _).
      binv Hsel as w1 q1 Hn1. binv Hsel as n q2 Hn2.
      destruct (expect_value_inv _ _ _ _ _ _ Hn1 Hn2) as (tn & Htn & -> & -> & Hq1 & _).
      binv Hsel as colon q3 Hcol. destruct colon.
      + apply accept_inv in Hcol as (c & Hc & Hq2 & _).
        binv Hsel as l q4 Hl. binv Hl as w2 q5 Hl1.
        destruct (expect_value_inv _ _ _ _ _ _ Hl1 Hl) as (tl & Htl & -> & -> & Hq3 & _).
        binv Hsel as w3 q6 Hrb. apply expect_inv in Hrb as (rb & Hrb & Hq4 & _).
        injection Hsel as <- <-.
        exists [lb; tn; c; tl; rb]. split; [by constructor|chain].
      + apply accept_inv in Hcol as ->.
        binv Hsel as l q4 Hl. injection Hl as <- <-.
        binv Hsel as w3 q6 Hrb. apply expect_inv in Hrb as (rb & Hrb & Hq4 & _).
        injection Hsel as <- <-.
        exists [lb; tn; rb]. split; [by constructor|chain].
    - apply accept_inv in Hacc as ->. injection Hsel as <- <-.
      exists []. split; [constructor|apply consumes_nil]. }
  destruct Hs as (ts & Hg & Hcs).
  exists (dot :: tp :: lp :: ta :: ts ++ [rp]). split; [by constructor|]. split; [|done].
  do 4 (eapply consumes_cons; [eassumption|]). eapply consumes_trans; eassumption.
Qed.

Lemma parse_args_loop_sound fuel :
  ∀ acc p l p', _parse_args_loop fuel acc p = Ok (l, p') → drained p →
    ∃ ts l', l = acc ++ l' ∧ g_rep (g_sep "," g_arg) ts l'
             ∧ consumes p p' ts ∧ drained p'.
Proof.
  induction fuel as [|fuel IH]; intros acc p l p' H Hd; [done|]. simpl in H.
  binv H as more p0 Hacc. destruct more.
  - apply accept_inv in Hacc as (s & Hs & Hc0 & Hd0).
    binv H as a p1 Harg. apply parse_arg_sound in Harg as (ta & Hga & Hc1 & Hd1).
    destruct (IH _ _ _ _ H Hd1) as (ts & l' & -> & Hrep & Hc2 & Hd2).
    exists ((s :: ta) ++ ts), (a :: l'). split; [by rewrite <- app_assoc|].
    split; [|split; [|done]].
    + apply g_rep_cons; [|done]. by constructor.
    + eapply consumes_trans; [|exact Hc2]. eapply consumes_cons; eassumption.
  - apply accept_inv in Hacc as ->. injection H as <- <-.
    exists [], []. rewrite app_nil_r. repeat split; try done. constructor.
Qed.

Lemma parse_args_sound fuel p l p' :
  _parse_args fuel p = Ok (l, p') → ∃ ts, g_args ts l ∧ consumes p p' ts ∧ drained p'.
Proof.
  unfold _parse_args. intros H. binv H as a p1 Harg.
  apply parse_arg_sound in Harg as (ta & Hga & Hc1 & Hd1).
  destruct (parse_args_loop_sound _ _ _ _ _ H Hd1) as (ts & l' & -> & Hrep & Hc2 & Hd2).
  exists (ta ++ ts). split; [by constructor|]. split; [|done].
  by eapply consumes_trans.
Qed.

Lemma parse_instances_loop_sound fuel :
  ∀ acc p l p', _parse_instances_loop fuel acc p = Ok (l, p') → drained p →
    ∃ ts l', l = acc ++ l' ∧ g_rep g_instance ts l' ∧ consumes p p' ts ∧ drained p'.
Proof.
  induction fuel as [|fuel IH]; intros acc p l p' H Hd; [done|]. simpl in H.
  binv H as more p0 Hacc. destruct more.
  - apply accept_inv in Hacc as (kind & Hkind & Hc0 & Hd0).
    binv H as kv p1 Hkv. apply token_value_inv in Hkv as (-> & kind' & Hk' & ->).
    rewrite (consumes_one_token _ _ _ Hc0) in Hk'. injection Hk' as <-.
    binv H as u1 p2 He1. binv H as n p3 Hv1.
    destruct (expect_value_inv _ _ _ _ _ _ He1 Hv1) as (nm & Hnm & -> & -> & Hc1 & Hd1).
    binv H as u2 p4 He2. apply expect_inv in He2 as (lp & Hlp & Hc2 & Hd2).
    binv H as args p5 Hargs. apply parse_args_sound in Hargs as (ta & Hga & Hc3 & Hd3).
    binv H as u3 p6 He3. apply expect_inv in He3 as (rp & Hrp & Hc4 & Hd4).
    binv H as u4 p7 He4. apply expect_inv in He4 as (semi & Hsemi & Hc5 & Hd5).
    destruct (IH _ _ _ _ H Hd5) as (ts & l' & -> & Hrep & Hc6 & Hd6).
    exists ((kind :: nm :: lp :: ta ++ [rp; semi]) ++ ts),
           (mkInstance (value kind) (value nm) args :: l').
    split; [by rewrite <- app_assoc|]. split; [|split; [|done]].
    + apply g_rep_cons; [|done]. by constructor.
    + eapply consumes_trans; [|exact Hc6].
      do 3 (eapply consumes_cons; [eassumption|]).
      eapply consumes_trans; [exact Hc3|]. chain.
  - apply accept_inv in Hacc as ->. injection H as <- <-.
    exists [], []. rewrite app_nil_r. repeat split; try done. constructor.
Qed.

Lemma parse_file_loop_sound fuel :
  ∀ acc p d p', _parse_file_loop fuel acc p = Ok (d, p') → drained p →
    ∃ ts l, d = Design_init (acc ++ l) ∧ g_file ts l ∧ consumes p p' ts ∧ drained p'.
Proof.
  induction fuel as [|fuel IH]; intros acc p d p' H Hd; [done|]. simpl in H.
  binv H as more p0 Hacc. destruct more.
  - apply accept_inv in Hacc as (kw & Hkw & Hc0 & Hd0).
    binv H as u1 p1 He1. binv H as n p2 Hv1.
    destruct (expect_value_inv _ _ _ _ _ _ He1 Hv1) as (nm & Hnm & -> & -> & Hc1 & Hd1).
    binv H as u2 p3 He2. apply expect_inv in He2 as (lp & Hlp & Hc2 & Hd2).
    binv H as ps p4 Hps. apply parse_params_sound in Hps as (tps & Hgps & Hc3 & Hd3).
    binv H as u3 p5 He3. apply expect_inv in He3 as (rp & Hrp & Hc4 & Hd4).
    binv H as u4 p6 He4. apply expect_inv in He4 as (semi & Hsemi & Hc5 & Hd5).
    binv H as ns p7 Hns. unfold _parse_nets in Hns.
    apply parse_nets_loop_sound in Hns as (tns & ns' & -> & Hgns & Hc6 & Hd6); [|done].
    binv H as insts p8 His. unfold _parse_instances in His.
    apply parse_instances_loop_sound in His as (tis & is' & -> & Hgis & Hc7 & Hd7); [|done].
    binv H as u5 p9 He5. apply expect_inv in He5 as (endkw & Hend & Hc8 & Hd8).
    destruct (IH _ _ _ _ H Hd8) as (ts & l & -> & Hrep & Hc9 & Hd9).
    exists ((kw :: nm :: lp :: tps ++ rp :: semi :: tns ++ tis ++ [endkw]) ++ ts),
           (Mod_init (value nm) ps ns' is' :: l).
    split; [by rewrite <- app_assoc|]. split; [|split; [|done]].
    + apply g_rep_cons; [|done]. by constructor.
    + eapply consumes_trans; [|exact Hc9].
      do 3 (eapply consumes_cons; [eassumption|]).
      eapply consumes_trans; [exact Hc3|].
      do 2 (eapply consumes_cons; [eassumption|]).
      eapply consumes_trans; [exact Hc6|]. eapply consumes_trans; [exact Hc7|]. chain.
  - apply accept_inv in Hacc as ->. injection H as <- <-.
    exists [], []. rewrite app_nil_r. repeat split; try done. constructor.
Qed.

Lemma stream_app_SNil_inv ts s : stream_app ts s = stream_of_list ts → s = SNil.
Proof.
  induction ts as [|t ts IH]; simpl; [done|]. intros [= H]. by apply IH.
Qed.

Lemma parse_tokens_sound fuel g d p' :
  parse_tokens fuel (Parser_init g) = Ok (d, p') →
  ∃ toks mods, g = stream_of_list toks ∧ g_file toks mods ∧ d = Design_init mods.
Proof.
  unfold parse_tokens. intros H. binv H as u p0 Hadv.
  apply advance_inv in Hadv as (Htok & Hd0 & Hgen). simpl in Hgen.
  binv H as d0 p1 Hfile. unfold _parse_file in Hfile.
  apply parse_file_loop_sound in Hfile as (toks & mods & -> & Hg & [Hc _] & Hd1); [|done].
  destruct (next_token p1) as [t|] eqn:Hn; [done|]. injection H as <- <-.
  exists toks, mods. split; [|done].
  rewrite Hgen, Hc. unfold upcoming. rewrite Hn, (Hd1 Hn). done.
Qed.

(** X1.  If [parse] returns a design, the input scans without error to
    tokens that the grammar derives, and the design is the one that
    [Design.__init__] builds from the modules of the derivation: [parse]
    accepts no input that is not well formed. *)
Theorem parse_sound (fuel : nat) (inp : string) (d : Design) :
  parse fuel inp = Ok d →
  ∃ toks mods, scan inp = stream_of_list toks ∧ g_file toks mods
               ∧ d = Design_init mods.
Proof.
  unfold parse. intros H.
  destruct (parse_tokens fuel (Parser_init (scan inp))) as [[d0 p]| |] eqn:E; [|done..].
  injection H as ->. by apply parse_tokens_sound in E.
Qed.

Lemma parse_sound_witness :
  ∃ toks mods, scan "module m(a); endmodule" = stream_of_list toks ∧ g_file toks mods
               ∧ Design_init [Mod_init (Str "m") [Str "a"] [] []] = Design_init mods.
Proof.
  apply (parse_sound 20 "module m(a); endmodule").
  vm_compute. reflexivity.
Defined.

(** ** Termination of the parser *)

Lemma bounded_ret {A} n (a : A) : bounded n (ret a).
Proof. intros p _. simpl. lia. Qed.

Lemma bounded_bind {A B} n (m : M A) (k : A → M B) :
  bounded n m → (∀ a, bounded n (k a)) → bounded n (bind m k).
Proof.
  intros Hm Hk p Hp. unfold bind. specialize (Hm p Hp).
  destruct (m p) as [[a p1]| |]; [|done..].
  specialize (Hk a p1 ltac:(lia)). destruct (k a p1) as [[b p2]| |]; [lia|done..].
Qed.

Lemma bounded_mono {A} n n' (m : M A) : (n' ≤ n)%nat → bounded n m → bounded n' m.
Proof. intros Hle Hm p Hp. apply Hm. lia. Qed.

Lemma advance_remaining p u p' t :
  next_token p = Some t → _advance p = Ok (u, p') → remaining p = S (remaining p').
Proof.
  intros Ht. unfold _advance, remaining, upcoming. rewrite Ht.
  destruct (token_gen p) as [|t' g|e]; [| |done]; by intros [= <- <-].
Qed.

Lemma accept_acceptor k : acceptor (_accept k).
Proof.
  intros p. unfold _accept. destruct (next_token p) as [t|] eqn:Ht; [|done].
  destruct (String.eqb (type t) k); [|done]. unfold bind.
  destruct (_advance p) as [[u p1]| |] eqn:E; [|done|].
  - simpl. rewrite (advance_remaining p u p1 t Ht E). lia.
  - unfold _advance in E. by destruct (token_gen p).
Qed.

Lemma acceptor_bounded n m : acceptor m → bounded n m.
Proof.
  intros Hm p _. specialize (Hm p). destruct (m p) as [[[|] p1]| |]; try done; [lia|].
  by subst.
Qed.

Lemma accept_net_kind_acceptor : acceptor accept_net_kind.
Proof.
  intros p. unfold accept_net_kind, bind.
  pose proof (accept_acceptor "output" p) as Ho.
  destruct (_accept "output" p) as [[[|] p1]| |]; try done. subst p1.
  pose proof (accept_acceptor "input" p) as Hi.
  destruct (_accept "input" p) as [[[|] p1]| |]; try done. subst p1.
  apply accept_acceptor.
Qed.

Lemma expect_bounded n k : bounded n (_expect k).
Proof.
  unfold _expect. intros p _. unfold bind.
  pose proof (accept_acceptor k p) as H.
  destruct (_accept k p) as [[[|] p1]| |]; try done; [simpl; lia|].
  by destruct (token p1).
Qed.

Lemma token_value_bounded n : bounded n token_value.
Proof. intros p _. unfold token_value. destruct (token p); [lia|done]. Qed.

Lemma token_type_bounded n : bounded n token_type.
Proof. intros p _. unfold token_type. destruct (token p); [lia|done]. Qed.

(** A loop step: after the test has consumed a token, the body runs with
    one token less. *)
Lemma bounded_loop {A} n (test : M bool) (body done : M A) :
  acceptor test → bounded n body → bounded (S n) done →
  bounded (S n) (bind test (λ more : bool, if more then body else done)).
Proof.
  intros Ht Hb Hd p Hp. unfold bind. specialize (Ht p).
  destruct (test p) as [[[|] p1]| |]; try done.
  - specialize (Hb p1 ltac:(lia)). destruct (body p1) as [[a p2]| |]; [lia|done..].
  - subst p1. by apply Hd.
Qed.

Ltac bounded :=
  repeat first
    [ apply bounded_ret | apply expect_bounded | apply token_value_bounded
    | apply token_type_bounded | assumption
    | apply acceptor_bounded; apply accept_acceptor
    | apply bounded_bind; [|intros ?]
    | match goal with |- bounded _ (if ?b then _ else _) => destruct b end ].

Lemma parse_params_loop_bounded fuel : ∀ acc, bounded fuel (_parse_params_loop fuel acc).
Proof.
  induction fuel as [|fuel IH]; intros acc; [intros p Hp; lia|]. simpl.
  apply bounded_loop; [apply accept_acceptor| |apply bounded_ret].
  bounded. apply IH.
Qed.

Lemma parse_params_bounded fuel : bounded fuel (_parse_params fuel).
Proof. unfold _parse_params. bounded. apply parse_params_loop_bounded. Qed.

Lemma parse_dimensions_bounded n : bounded n _parse_dimensions.
Proof. unfold _parse_dimensions. bounded. Qed.

Lemma parse_nets_loop_bounded fuel : ∀ acc, bounded fuel (_parse_nets_loop fuel acc).
Proof.
  induction fuel as [|fuel IH]; intros acc; [intros p Hp; lia|]. simpl.
  apply bounded_loop; [apply accept_net_kind_acceptor| |apply bounded_ret].
  apply bounded_bind; [bounded|]. intros kind.
  apply bounded_bind; [apply parse_dimensions_bounded|]. intros dims.
  bounded. apply IH.
Qed.

Lemma parse_arg_bounded n : bounded n _parse_arg.
Proof. unfold _parse_arg. bounded. Qed.

Lemma parse_args_loop_bounded fuel : ∀ acc, bounded fuel (_parse_args_loop fuel acc).
Proof.
  induction fuel as [|fuel IH]; intros acc; [intros p Hp; lia|]. simpl.
  apply bounded_loop; [apply accept_acceptor| |apply bounded_ret].
  apply bounded_bind; [apply parse_arg_bounded|]. intros a. apply IH.
Qed.

Lemma parse_args_bounded fuel : bounded fuel (_parse_args fuel).
Proof.
  unfold _parse_args. apply bounded_bind; [apply parse_arg_bounded|].
  intros a. apply parse_args_loop_bounded.
Qed.

Lemma parse_instances_loop_bounded fuel :
  ∀ acc, bounded fuel (_parse_instances_loop fuel acc).
Proof.
  induction fuel as [|fuel IH]; intros acc; [intros p Hp; lia|]. simpl.
  apply bounded_loop; [apply accept_acceptor| |apply bounded_ret].
  do 4 (apply bounded_bind; [bounded|]; intros ?).
  apply bounded_bind; [apply parse_args_bounded|]. intros args.
  bounded. apply IH.
Qed.

Lemma parse_file_loop_bounded fuel : ∀ acc, bounded fuel (_parse_file_loop fuel acc).
Proof.
  induction fuel as [|fuel IH]; intros acc; [intros p Hp; lia|]. simpl.
  apply bounded_loop; [apply accept_acceptor| |apply bounded_ret].
  do 3 (apply bounded_bind; [bounded|]; intros ?).
  apply bounded_bind; [apply parse_params_bounded|]. intros ps.
  do 2 (apply bounded_bind; [bounded|]; intros ?).
  apply bounded_bind; [apply parse_nets_loop_bounded|]. intros ns.
  apply bounded_bind; [apply parse_instances_loop_bounded|]. intros insts.
  bounded. apply IH.
Qed.

Lemma scan_loop_len fuel :
  ∀ s pos ln start, (stream_len (scan_loop fuel s pos ln start) ≤ length s)%nat.
Proof.
  induction fuel as [|fuel IH]; intros s pos ln start; [simpl; lia|]. simpl.
  destruct (regex_match s) as [[[kind lexeme] rest]|] eqn:Hm; [|simpl; lia].
  destruct (regex_match_shape _ _ _ _ 0 Hm) as (-> & Hl & _).
  rewrite length_app.
  destruct kind; simpl; try lia;
    match goal with |- context [scan_loop fuel rest ?a ?b ?c] =>
      specialize (IH rest a b c); lia end.
Qed.

Lemma parse_tokens_bounded fuel g :
  (stream_len g < fuel)%nat → parse_tokens fuel (Parser_init g) ≠ OutOfFuel.
Proof.
  intros Hlen. unfold parse_tokens, bind.
  destruct (_advance (Parser_init g)) as [[u p0]| |] eqn:E; [|done|].
  - assert (remaining p0 = stream_len g) as Hr.
    { unfold _advance in E. simpl in E. destruct g as [|t g|e]; [| |done];
        by injection E as <- <-. }
    pose proof (parse_file_loop_bounded fuel [] p0 ltac:(lia)) as H.
    unfold _parse_file. destruct (_parse_file_loop fuel [] p0) as [[d p1]| |]; [|done..].
    by destruct (next_token p1).
  - unfold _advance in E. simpl in E. by destruct g.
Qed.

(** X2.  [parse] terminates: with a budget above the number of characters
    of the input no loop of the parser runs out of it, because every
    iteration consumes a token and every token has at least one
    character. *)
Theorem parse_terminates (fuel : nat) (inp : string) :
  (String.length inp < fuel)%nat → parse fuel inp ≠ OutOfFuel.
Proof.
  intros Hlen. unfold parse.
  assert (H : parse_tokens fuel (Parser_init (scan inp)) ≠ OutOfFuel).
  { apply parse_tokens_bounded. unfold scan, scan_text.
    pose proof (scan_loop_len (length (list_ascii_of_string inp))
                  (list_ascii_of_string inp) 0 1 0) as H.
    assert (length (list_ascii_of_string inp) = String.length inp) as Heq.
    { clear. induction inp as [|c inp IH]; simpl; [done|]. by rewrite IH. }
    lia. }
  destruct (parse_tokens fuel (Parser_init (scan inp))) as [[d p]| |]; done.
Qed.

Lemma parse_terminates_witness : parse 25 "module m(a) endmodule" ≠ OutOfFuel.
Proof.
  apply (parse_terminates 25 "module m(a) endmodule"). vm_compute. lia.
Defined.

(** ** What [parse] raises *)

Section relays.
Variable g0 : stream.

Lemma relays_ret {A} (a : A) : relays g0 (ret a).
Proof. by intros p Hp. Qed.

Lemma relays_bind {A B} (m : M A) (k : A → M B) :
  relays g0 m → (∀ a, relays g0 (k a)) → relays g0 (bind m k).
Proof.
  intros Hm Hk p Hp. unfold bind. specialize (Hm p Hp).
  destruct (m p) as [[a p']| |]; [|done..]. by apply Hk.
Qed.

Lemma relays_advance : relays g0 _advance.
Proof.
  intros p (Ht & Hn & Hg & He). unfold _advance.
  destruct (token_gen p) as [|t g|e] eqn:E; simpl in *.
  - split; [done|]. split; [done|]. split; [|done].
    intros t Hin. by apply elem_of_nil in Hin.
  - split; [done|]. split; [|split; [|done]]; simpl.
    + intros t' [= <-]. apply Hg. by left.
    + intros t' Hin. apply Hg. by right.
  - left. by rewrite <- He.
Qed.

Lemma relays_accept k : relays g0 (_accept k).
Proof.
  intros p Hp. unfold _accept. destruct (next_token p) as [t|]; [|done].
  destruct (String.eqb (type t) k); [|done].
  by apply (relays_bind _ _ relays_advance (λ _, relays_ret true)).
Qed.

Lemma relays_expect k : relays g0 (_expect k).
Proof.
  unfold _expect. apply relays_bind; [apply relays_accept|].
  intros [|]; [apply relays_ret|]. intros p (Ht & _).
  destruct (token p) as [t|]; [|by right]. right. exists t. split; [by apply Ht|done].
Qed.

Lemma relays_token_value : relays g0 token_value.
Proof. intros p Hp. unfold token_value. destruct (token p); [done|by right]. Qed.

Lemma relays_token_type : relays g0 token_type.
Proof. intros p Hp. unfold token_type. destruct (token p); [done|by right]. Qed.

Ltac relays :=
  repeat first
    [ apply relays_ret | apply relays_expect | apply relays_accept
    | apply relays_token_value | apply relays_token_type
    | assumption
    | apply relays_bind; [|intros ?]
    | match goal with |- relays _ (if ?b then _ else _) => destruct b end ].












End relays.




(** ** Parsing one file after another *)

Lemma scan_loop_lines fuel d :
  ∀ s pos ln start toks,
    scan_loop fuel s pos ln start = stream_of_list toks →
    scan_loop fuel s pos (ln + d) start = stream_of_list (shift_lines d <$> toks).
Proof.
  induction fuel as [|fuel IH]; intros s pos ln start toks; simpl.
  - by destruct toks.
  - destruct (regex_match s) as [[[kind lexeme] rest]|]; [|by destruct toks].
    destruct kind; try (destruct toks as [|t toks]; [done|]; intros [= <- H]; simpl;
                        f_equal; by apply IH).
    + replace (ln + d + 1) with (ln + 1 + d) by lia. apply IH.
    + replace (ln + d + 1) with (ln + 1 + d) by lia. apply IH.
    + apply IH.
Qed.

Lemma g_rep_app {A} (g : list Token → A → Prop) ts1 l1 ts2 l2 :
  g_rep g ts1 l1 → g_rep g ts2 l2 → g_rep g (ts1 ++ ts2) (l1 ++ l2).
Proof.
  induction 1 as [|ts a tss l Hg _ IH]; intros H2; [done|].
  rewrite <- app_assoc. simpl. constructor; [done|]. by apply IH.
Qed.

Lemma g_rep_shift {A} (g : list Token → A → Prop) d ts l :
  (∀ ts a, g ts a → g (shift_lines d <$> ts) a) →
  g_rep g ts l → g_rep g (shift_lines d <$> ts) l.
Proof.
  intros Hg. induction 1 as [|ts a tss l H _ IH]; [constructor|].
  rewrite fmap_app. constructor; [by apply Hg|done].
Qed.

Lemma g_sep_shift {A} sep (g : list Token → A → Prop) d ts a :
  (∀ ts a, g ts a → g (shift_lines d <$> ts) a) →
  g_sep sep g ts a → g_sep sep g (shift_lines d <$> ts) a.
Proof.
  intros Hg [s ts' a' Hs H]. apply (g_sep_intro sep g (shift_lines d s)); [done|].
  by apply Hg.
Qed.

Lemma g_identifier_shift d ts v :
  g_identifier ts v → g_identifier (shift_lines d <$> ts) v.
Proof. intros [t Ht]. by apply (g_identifier_intro (shift_lines d t)). Qed.

Lemma g_params_shift d ts vs : g_params ts vs → g_params (shift_lines d <$> ts) vs.
Proof.
  intros [t ts' vs' Ht H]. apply (g_params_intro (shift_lines d t)); [done|].
  apply g_rep_shift; [|done]. intros ? ?. apply g_sep_shift, g_identifier_shift.
Qed.

Lemma g_dimensions_shift d ts v : g_dimensions ts v → g_dimensions (shift_lines d <$> ts) v.
Proof.
  intros [|lb m c l rb ? ? ? ? ?]; [constructor|].
  by apply (g_dimensions_range (shift_lines d lb) (shift_lines d m) (shift_lines d c)
              (shift_lines d l) (shift_lines d rb)).
Qed.

Lemma g_net_shift d ts n : g_net ts n → g_net (shift_lines d <$> ts) n.
Proof.
  intros [kw ds dims id semi ? Hd ? ?]. rewrite fmap_cons, fmap_app.
  apply (g_net_intro (shift_lines d kw) _ dims (shift_lines d id) (shift_lines d semi));
    try done. by apply g_dimensions_shift.
Qed.

Lemma g_select_shift d ts v : g_select ts v → g_select (shift_lines d <$> ts) v.
Proof.
  intros [|lb n rb ? ? ?|lb m c l rb ? ? ? ? ?]; [constructor| |].
  - by apply (g_select_bit (shift_lines d lb) (shift_lines d n) (shift_lines d rb)).
  - by apply (g_select_range (shift_lines d lb) (shift_lines d m) (shift_lines d c)
                (shift_lines d l) (shift_lines d rb)).
Qed.

Lemma g_arg_shift d ts a : g_arg ts a → g_arg (shift_lines d <$> ts) a.
Proof.
  intros [dot p lp a' sel ml rp ? ? ? ? Hs ?]. rewrite !fmap_cons, fmap_app.
  apply (g_arg_intro (shift_lines d dot) (shift_lines d p) (shift_lines d lp)
           (shift_lines d a') _ ml (shift_lines d rp)); try done.
  by apply g_select_shift.
Qed.

Lemma g_args_shift d ts l : g_args ts l → g_args (shift_lines d <$> ts) l.
Proof.
  intros [ts' a tss l' Ha H]. rewrite fmap_app. constructor; [by apply g_arg_shift|].
  apply g_rep_shift; [|done]. intros ? ?. apply g_sep_shift. intros ? ?. apply g_arg_shift.
Qed.

Lemma g_instance_shift d ts i : g_instance ts i → g_instance (shift_lines d <$> ts) i.
Proof.
  intros [kind nm lp ts' args rp semi ? ? ? Ha ? ?]. rewrite !fmap_cons, fmap_app.
  apply (g_instance_intro (shift_lines d kind) (shift_lines d nm) (shift_lines d lp)
           _ args (shift_lines d rp) (shift_lines d semi)); try done.
  by apply g_args_shift.
Qed.

Lemma g_module_shift d ts m : g_module ts m → g_module (shift_lines d <$> ts) m.
Proof.
  intros [kw nm lp tps ps rp semi tns ns tis insts endkw ? ? ? Hp ? ? Hn Hi ?].
  rewrite !fmap_cons, fmap_app, !fmap_cons, !fmap_app.
  apply (g_module_intro (shift_lines d kw) (shift_lines d nm) (shift_lines d lp)
           _ ps (shift_lines d rp) (shift_lines d semi) _ ns _ insts
           (shift_lines d endkw)); try done.
  - by apply g_params_shift.
  - apply g_rep_shift; [|done]. intros ? ?. apply g_net_shift.
  - apply g_rep_shift; [|done]. intros ? ?. apply g_instance_shift.
Qed.

Lemma g_file_shift d ts mods : g_file ts mods → g_file (shift_lines d <$> ts) mods.
Proof. apply g_rep_shift. intros ? ?. apply g_module_shift. Qed.

Lemma Design_init_app mods1 mods2 :
  modules (Design_init (mods1 ++ mods2))
  = modules (Design_init mods2) ∪ modules (Design_init mods1).
Proof.
  unfold Design_init. simpl.
  induction mods2 as [|m mods2 IH] using rev_ind.
  - rewrite app_nil_r. simpl. by rewrite (left_id_L ∅ (∪)).
  - rewrite app_assoc, (foldl_app _ (mods1 ++ mods2)), (foldl_app _ mods2). simpl.
    rewrite IH. by rewrite insert_union_l.
Qed.

Lemma list_ascii_of_string_app s1 s2 :
  list_ascii_of_string (s1 ++ s2) = list_ascii_of_string s1 ++ list_ascii_of_string s2.
Proof. induction s1 as [|c s1 IH]; simpl; [done|]. by rewrite IH. Qed.

Lemma list_ascii_length s : length (list_ascii_of_string s) = String.length s.
Proof. induction s as [|c s IH]; simpl; [done|]. by rewrite IH. Qed.

Lemma stream_len_of_list toks : stream_len (stream_of_list toks) = length toks.
Proof. induction toks as [|t toks IH]; simpl; [done|]. by rewrite <- IH. Qed.

Lemma scan_tokens_length inp toks :
  scan inp = stream_of_list toks → (length toks ≤ String.length inp)%nat.
Proof.
  intros H. rewrite <- stream_len_of_list, <- H, <- list_ascii_length.
  apply scan_loop_len.
Qed.

(** X4.  Parsing composes: when two inputs parse, so does the first followed
    by a newline and the second, and the design it gives has the modules of
    both, those of the second input replacing modules of the same name of
    the first.  The lines on which the tokens stand play no part in what
    is parsed. *)
Theorem parse_concat (fuel1 fuel2 fuel : nat) (inp1 inp2 : string) (d1 d2 : Design) :
  parse fuel1 inp1 = Ok d1 → parse fuel2 inp2 = Ok d2 →
  (String.length inp1 + String.length inp2 < fuel)%nat →
  parse fuel (inp1 ++ String "010" inp2) = Ok (mkDesign (modules d2 ∪ modules d1)).
Proof.
  unfold parse at 1 2. intros H1 H2 Hfuel.
  destruct (parse_tokens fuel1 (Parser_init (scan inp1))) as [[e1 p1]| |] eqn:E1; [|done..].
  destruct (parse_tokens fuel2 (Parser_init (scan inp2))) as [[e2 p2]| |] eqn:E2; [|done..].
  injection H1 as ->. injection H2 as ->.
  apply parse_tokens_sound in E1 as (toks1 & mods1 & Hs1 & Hg1 & ->).
  apply parse_tokens_sound in E2 as (toks2 & mods2 & Hs2 & Hg2 & ->).
  pose proof (scan_tokens_length _ _ Hs1) as Hl1.
  pose proof (scan_tokens_length _ _ Hs2) as Hl2.
  set (d := line_of (list_ascii_of_string inp1)).
  rewrite <- Design_init_app.
  apply (parse_ok fuel _ (toks1 ++ (shift_lines d <$> toks2))).
  - unfold scan. rewrite list_ascii_of_string_app. cbn [list_ascii_of_string].
    rewrite (scan_text_app _ _ toks1 Hs1); [|done].
    unfold stream_of_list, stream_app. rewrite foldr_app. f_equal.
    cbn [length scan_loop]. unfold regex_match. cbn [match_comment]. simpl.
    pose proof (scan_loop_shift (length (list_ascii_of_string inp2))
                  (col_after 0 (list_ascii_of_string inp1) + Z.of_nat 1)
                  (list_ascii_of_string inp2) 0
                  (line_of (list_ascii_of_string inp1) + 1) 0) as Hsh.
    rewrite !Z.add_0_l in Hsh. rewrite Hsh. clear Hsh.
    unfold scan, scan_text in Hs2.
    apply (scan_loop_lines _ d) in Hs2. subst d.
    replace (line_of (list_ascii_of_string inp1) + 1)
      with (1 + line_of (list_ascii_of_string inp1)) by lia.
    exact Hs2.
  - apply g_rep_app; [done|]. by apply g_file_shift.
  - rewrite length_app, length_fmap. lia.
Qed.

Lemma parse_concat_witness :
  parse 50 ("module a(x); endmodule" ++ String "010" "module b(y); endmodule")
  = Ok (mkDesign (modules (Design_init [Mod_init (Str "b") [Str "y"] [] []])
                  ∪ modules (Design_init [Mod_init (Str "a") [Str "x"] [] []]))).
Proof.
  apply (parse_concat 30 30 50 "module a(x); endmodule" "module b(y); endmodule").
  - vm_compute. reflexivity.
  - vm_compute. reflexivity.
  - vm_compute. lia.
Defined.

(** ** Every token is where the scanner says *)

Lemma regex_match_class s kind lexeme rest :
  regex_match s = Some (kind, lexeme, rest) →
  match kind with
  | NUMBER => Forall (λ c, is_digit c = true) lexeme
  | IDENTIFIER => Forall (λ c, is_word c = true) lexeme
  | PUNCTUATOR => ∃ c, lexeme = [c] ∧ is_punct c = true
  | MISMATCH => ∃ c, lexeme = [c] ∧ unrecognized c rest
  | _ => True
  end.
Proof.
  unfold regex_match. destruct s as [|c s']; [done|].
  destruct (match_comment (c :: s')) as [[lx r]|] eqn:Hcom; [by intros [= <- <- <-]|].
  destruct (is_newline c) eqn:Hn; [by intros [= <- <- <-]|].
  destruct (is_digit c) eqn:Hd.
  { destruct (span is_digit (c :: s')) as [l r] eqn:Hsp. intros [= <- <- <-].
    by eapply span_Forall. }
  destruct (is_word c) eqn:Hw.
  { destruct (span is_word (c :: s')) as [l r] eqn:Hsp. intros [= <- <- <-].
    by eapply span_Forall. }
  destruct (is_punct c) eqn:Hp; [intros [= <- <- <-]; eauto|].
  destruct (is_blank c) eqn:Hb.
  { destruct (span is_blank (c :: s')) as [l r] eqn:Hsp. by intros [= <- <- <-]. }
  intros [= <- <- <-]. exists c. by repeat split.
Qed.

Lemma scan_loop_located fuel :
  ∀ s pre pos ln start t,
    ln = line_of pre → pos - start = col_after 0 pre →
    t ∈ tokens_of (scan_loop fuel s pos ln start) →
    ∃ pre' lexeme post, pre ++ s = pre' ++ lexeme ++ post
      ∧ line t = line_of pre' ∧ column t = column_of pre' ∧ lexeme_token lexeme t.
Proof.
  induction fuel as [|fuel IH]; intros s pre pos ln start t Hln Hcol; simpl.
  { by intros ?%elem_of_nil. }
  destruct (regex_match s) as [[[kind lexeme] rest]|] eqn:Hm; [|by intros ?%elem_of_nil].
  destruct (regex_match_shape _ _ _ _ (pos - start) Hm) as (-> & Hl & Hshape).
  pose proof (regex_match_class _ _ _ _ Hm) as Hclass.
  assert (Hnext : ∀ ln' start',
    ln' = ln + count_nl lexeme →
    pos + Z.of_nat (length lexeme) - start' = col_after (pos - start) lexeme →
    t ∈ tokens_of (scan_loop fuel rest (pos + Z.of_nat (length lexeme)) ln' start') →
    ∃ pre' lexeme' post, pre ++ lexeme ++ rest = pre' ++ lexeme' ++ post
      ∧ line t = line_of pre' ∧ column t = column_of pre' ∧ lexeme_token lexeme' t).
  { intros ln' start' Hln' Hcol' Ht.
    destruct (IH rest (pre ++ lexeme) (pos + Z.of_nat (length lexeme)) ln' start' t)
      as (pre' & lx & post & E & ?); try done.
    - unfold line_of in *. rewrite count_nl_app. lia.
    - rewrite col_after_app, <- Hcol. done.
    - exists pre', lx, post. by rewrite app_assoc. }
  assert (Hhere : ∀ t0, line t0 = ln → column t0 = pos - start + 1 →
                        lexeme_token lexeme t0 →
    ∃ pre' lexeme' post, pre ++ lexeme ++ rest = pre' ++ lexeme' ++ post
      ∧ line t0 = line_of pre' ∧ column t0 = column_of pre' ∧ lexeme_token lexeme' t0).
  { intros t0 H1 H2 H3. exists pre, lexeme, rest. split; [done|].
    split; [congruence|]. split; [|done]. unfold column_of. lia. }
  destruct kind; simpl; destruct Hshape as [Hnl Hc].
  - intros Ht. eapply Hnext; [| |exact Ht]; lia.
  - intros Ht. eapply Hnext; [| |exact Ht]; lia.
  - intros [->|Ht]%elem_of_cons; [|eapply Hnext; [| |exact Ht]; lia].
    apply Hhere; [done..|]. left. done.
  - intros [->|Ht]%elem_of_cons; [|eapply Hnext; [| |exact Ht]; lia].
    apply Hhere; [done..|]. right. left. done.
  - intros [->|Ht]%elem_of_cons; [|eapply Hnext; [| |exact Ht]; lia].
    apply Hhere; [done..|]. right. right. destruct Hclass as (c & -> & Hp). eauto.
  - intros Ht. eapply Hnext; [| |exact Ht]; lia.
  - by intros ?%elem_of_nil.
Qed.






(** ** Further properties of the counter *)

Lemma all_pos_update f self ms :
  all_pos ms → (∀ c, Counter_pos c → Counter_pos (f c)) →
  all_pos (update_cntr f self ms).
Proof.
  intros Hp Hf k c. rewrite cntr_of_update_cntr.
  destruct (decide (self = k)) as [->|]; [|apply Hp].
  destruct (cntr_of ms k) as [c0|] eqn:E; [|done]. intros [= <-]. apply Hf. by apply (Hp k).
Qed.

Lemma for_instances_pos rec self :
  (∀ k ms ms', all_pos ms → rec k ms = Some ms' → all_pos ms') →
  ∀ insts ms ms', all_pos ms → for_instances rec self insts ms = Some ms' → all_pos ms'.
Proof.
  intros Hrec. induction insts as [|i rest IH]; intros ms ms' Hp; simpl.
  - by intros [= <-].
  - assert (Hp1 : all_pos (update_cntr (Counter_incr (inst_type i)) self ms)).
    { apply all_pos_update; [done|]. intros c. apply Counter_pos_incr. }
    destruct (ms !! inst_type i); [|by apply IH].
    destruct (rec _ _) as [ms1|] eqn:Er; [|done].
    destruct (cntr_of ms1 _) as [other|] eqn:Eo; [|done].
    pose proof (Hrec _ _ _ Hp1 Er) as Hp2. apply IH.
    apply all_pos_update; [done|]. intros c Hc.
    apply Counter_iadd_pos; [done|]. by apply (Hp2 (inst_type i)).
Qed.

Lemma count_instances_pos fuel :
  ∀ k ms ms', all_pos ms → count_instances fuel k ms = Some ms' → all_pos ms'.
Proof.
  induction fuel as [|fuel IH]; intros k ms ms' Hp; simpl; [done|].
  destruct (ms !! k) as [m|] eqn:Hk; [|done].
  destruct (cntr m); [by intros [= <-]|].
  apply for_instances_pos; [apply IH|].
  intros k' c. rewrite cntr_of_insert. destruct (decide (k = k')); [|apply Hp].
  intros [= <-]. apply Counter_pos_empty.
Qed.

Lemma count_each_pos fuel ks :
  ∀ d d', all_pos (modules d) → count_each fuel d ks = Some d' → all_pos (modules d').
Proof.
  induction ks as [|k ks IH]; intros d d' Hp; simpl; [by intros [= <-]|].
  destruct (Design_count_instances fuel d k) as [[c d1]| |] eqn:E; [|done..].
  apply IH. apply Design_count_instances_Ok in E as (_ & E & _).
  by eapply count_instances_pos.
Qed.

(** X7.  On every design, cyclic or not, in any state that counting calls
    have left it in since it was parsed, the multiset that
    [count_instances] returns has positive counts only: no key is stored
    with a zero or negative count. *)
Theorem count_instances_positive (d0 d d' : Design) (ks : list Value) (k : Value)
    (fuel : nat) (c : Counter) :
  fresh d0 → count_each fuel d0 ks = Some d →
  Design_count_instances fuel d k = Ok (c, d') →
  ∀ key v, c !! key = Some v → 0 < v.
Proof.
  intros Hf Hks Hcall.
  assert (Hp0 : all_pos (modules d0)).
  { intros k' c' (m & Hm & Hc)%cntr_of_Some. by rewrite (Hf k' m Hm) in Hc. }
  pose proof (count_each_pos _ _ _ _ Hp0 Hks) as Hp.
  apply Design_count_instances_Ok in Hcall as (_ & Hcount & Hc).
  exact (count_instances_pos _ _ _ _ Hp Hcount k c Hc).
Qed.

Lemma count_instances_positive_witness :
  ∃ c d', Design_count_instances 2 self_instance (Str "A") = Ok (c, d')
          ∧ ∀ key v, c !! key = Some v → 0 < v.
Proof.
  destruct (Design_count_instances_total 2 self_instance (Str "A")) as (c & d' & H).
  - vm_compute. eauto.
  - vm_compute. lia.
  - exists c, d'. split; [exact H|].
    apply (count_instances_positive self_instance self_instance d' [] (Str "A") 2 c).
    + apply fresh_Design_init. by repeat constructor.
    + reflexivity.
    + exact H.
Defined.

(** X8.  A call of [count_instances] that returns changes nothing but
    caches: every module is still stored under its key with the same name,
    parameters, nets and instances, no module is added, a cache that was
    filled keeps its multiset, and the cache of the module asked for holds
    the multiset returned. *)
Theorem count_instances_frame (fuel : nat) (d d' : Design) (k : Value) (c : Counter) :
  Design_count_instances fuel d k = Ok (c, d') →
  (∀ k' m, modules d !! k' = Some m →
     ∃ m', modules d' !! k' = Some m' ∧ name m' = name m ∧ params m' = params m
           ∧ nets m' = nets m ∧ instances m' = instances m
           ∧ ∀ c', cntr m = Some c' → cntr m' = Some c')
  ∧ (∀ k', modules d !! k' = None → modules d' !! k' = None)
  ∧ cntr_of (modules d') k = Some c.
Proof.
  intros (_ & Hcount & Hc)%Design_count_instances_Ok.
  apply count_instances_stable in Hcount as [[E Hst] _]. split; [|split; [|done]].
  - intros k' m Hm. destruct (erase_lookup_Some _ _ _ _ E Hm) as (m' & Hm' & ? & ? & ? & ?).
    exists m'. repeat split; try done. intros c' Hc'.
    assert (Hk : cntr_of (modules d') k' = Some c')
      by (apply Hst, cntr_of_Some; eauto).
    apply cntr_of_Some in Hk as (m2 & Hm2 & Hc2). congruence.
  - intros k'. by apply erase_lookup_None.
Qed.

Lemma count_instances_frame_witness :
  ∃ c d', Design_count_instances 3 top_cell (Str "TopCell") = Ok (c, d')
          ∧ cntr_of (modules d') (Str "TopCell") = Some c.
Proof.
  destruct (Design_count_instances_total 3 top_cell (Str "TopCell")) as (c & d' & H).
  - vm_compute. eauto.
  - vm_compute. lia.
  - exists c, d'. split; [exact H|].
    apply (count_instances_frame 3 top_cell d' (Str "TopCell") c H).
Defined.

Lemma count_each_erase fuel ks d d' :
  count_each fuel d ks = Some d' → erase (modules d') = erase (modules d).
Proof. intros H. by apply count_each_stable in H as [? _]. Qed.

Lemma counted_unique fuel d1 d2 M :
  acyclic (modules d1) → coherent (modules d1) → coherent (modules d2) →
  erase (modules d2) = erase (modules d1) →
  is_Some (modules d1 !! M) → (size (modules d1) < fuel)%nat →
  ∃ c, counted fuel d1 M = Some c ∧ counted fuel d2 M = Some c.
Proof.
  intros Ha Hco1 Hco2 E HM Hfuel.
  assert (Hsize : size (modules d2) = size (modules d1)).
  { rewrite <- !size_dom. f_equal. apply set_eq. intros k. rewrite !elem_of_dom.
    split; apply erase_is_Some; congruence. }
  assert (Ha2 : acyclic (modules d2)) by (by eapply acyclic_erase).
  destruct (Design_count_instances_total fuel d1 M) as (c1 & e1 & H1); [done..|].
  destruct (Design_count_instances_total fuel d2 M) as (c2 & e2 & H2);
    [by apply (erase_is_Some (modules d1))|lia|].
  unfold counted. rewrite H1, H2. exists c1. split; [done|]. f_equal.
  apply Design_count_instances_Ok in H1 as (_ & Hc1 & Hr1).
  apply Design_count_instances_Ok in H2 as (_ & Hc2 & Hr2).
  pose proof (count_instances_coherent _ _ _ _ Ha Hco1 Hc1) as Hf1.
  pose proof (count_instances_coherent _ _ _ _ Ha2 Hco2 Hc2) as Hf2.
  apply count_instances_stable in Hc1 as [[E1 _] _].
  apply count_instances_stable in Hc2 as [[E2 _] _].
  apply cntr_of_Some in Hr1 as (m1 & Hm1 & Hk1).
  apply cntr_of_Some in Hr2 as (m2 & Hm2 & Hk2).
  symmetry.
  apply (complete_unique (modules d1) Ha M (modules e1) (modules e2) m1 m2); try done.
  - congruence.
  - intros k' _. by apply coherent_ok.
  - intros k' _. by apply coherent_ok.
Qed.

(** X9.  On an acyclic design the multiset counted for a module does not
    depend on what was counted before: after any sequence of counting calls
    [count_instances] returns for it what it returns on the design as
    parsed. *)
Theorem count_instances_order_independent (d0 d : Design) (ks : list Value) (M : Value)
    (fuel : nat) :
  fresh d0 → acyclic (modules d0) → count_each fuel d0 ks = Some d →
  is_Some (modules d0 !! M) → (size (modules d0) < fuel)%nat →
  ∃ c, counted fuel d0 M = Some c ∧ counted fuel d M = Some c.
Proof.
  intros Hf Ha Hks HM Hfuel.
  destruct (count_each_coherent fuel ks d0 d) as [_ Hco]; [done|by apply fresh_coherent|done|].
  apply counted_unique; try done; [by apply fresh_coherent|by eapply count_each_erase].
Qed.

Lemma count_instances_order_independent_witness :
  ∃ d, count_each 3 top_cell [Str "cellB"] = Some d
       ∧ ∃ c, counted 3 top_cell (Str "TopCell") = Some c
              ∧ counted 3 d (Str "TopCell") = Some c.
Proof.
  destruct (count_each 3 top_cell [Str "cellB"]) as [d|] eqn:E.
  - exists d. split; [done|].
    apply (count_instances_order_independent top_cell d [Str "cellB"] (Str "TopCell") 3).
    + apply top_cell_fresh.
    + apply top_cell_acyclic.
    + exact E.
    + vm_compute. eauto.
    + vm_compute. lia.
  - exfalso. vm_compute in E. discriminate.
Defined.

(** ** The keys of the counters *)

Lemma uses_erase ms ms' k key :
  erase ms' = erase ms → uses ms k key → uses ms' k key.
Proof.
  intros E (k' & m & i & Hr & Hm & Hi & Ht).
  destruct (erase_lookup_Some _ _ _ _ E Hm) as (m' & Hm' & _ & _ & _ & Hin).
  exists k', m', i. rewrite Hin. split; [|done].
  apply (rtc_congruence id (instantiates ms')) in Hr; [exact Hr|].
  intros x y. by apply instantiates_erase.
Qed.

Lemma uses_step ms k k' key :
  instantiates ms k k' → uses ms k' key → uses ms k key.
Proof.
  intros H (k2 & m & i & Hr & Hrest). exists k2, m, i. split; [|done].
  by eapply rtc_l.
Qed.

Lemma Counter_iadd_keys (c other : Counter) key :
  is_Some (Counter_iadd c other !! key) → is_Some (c !! key) ∨ is_Some (other !! key).
Proof.
  intros [v Hv]. unfold Counter_iadd, Counter_keep_positive in Hv.
  apply map_lookup_filter_Some in Hv as [Hv _]. rewrite Counter_fold_lookup in Hv.
  destruct (other !! key); [right; eauto|left; eauto].
Qed.

Lemma keys_used_update f self ms :
  keys_used ms →
  (∀ c key, cntr_of ms self = Some c → is_Some (f c !! key) → uses ms self key) →
  keys_used (update_cntr f self ms).
Proof.
  intros Hk Hf k c key. rewrite cntr_of_update_cntr. intros Hc Hkey.
  apply (uses_erase ms); [by rewrite erase_update_cntr|].
  destruct (decide (self = k)) as [->|]; [|by apply (Hk k c)].
  destruct (cntr_of ms k) as [c0|] eqn:E; [|done]. injection Hc as <-. by apply (Hf c0).
Qed.

Lemma for_instances_keys rec self :
  (∀ k ms ms', keys_used ms → rec k ms = Some ms' →
               keys_used ms' ∧ erase ms' = erase ms) →
  ∀ insts ms ms',
    (∀ i, i ∈ insts → ∃ m, ms !! self = Some m ∧ i ∈ instances m) →
    keys_used ms → for_instances rec self insts ms = Some ms' → keys_used ms'.
Proof.
  intros Hrec. induction insts as [|i rest IH]; intros ms ms' Hin Hk; simpl.
  - by intros [= <-].
  - destruct (Hin i) as (m & Hm & Hi); [by left|].
    assert (Hrest : ∀ ms1, erase ms1 = erase ms →
              ∀ j, j ∈ rest → ∃ m1, ms1 !! self = Some m1 ∧ j ∈ instances m1).
    { intros ms1 E j Hj. destruct (Hin j) as (mj & Hmj & Hij); [by right|].
      destruct (erase_lookup_Some _ _ _ _ E Hmj) as (m1 & Hm1 & _ & _ & _ & Hinst).
      exists m1. by rewrite Hinst. }
    assert (Hk1 : keys_used (update_cntr (Counter_incr (inst_type i)) self ms)).
    { apply keys_used_update; [done|]. intros c key Hc. unfold Counter_incr.
      rewrite lookup_insert. destruct (decide (inst_type i = key)) as [<-|]; [|by apply Hk].
      intros _. exists self, m, i. by split; [apply rtc_refl|]. }
    destruct (ms !! inst_type i) as [mi|] eqn:Hmi.
    + destruct (rec _ _) as [ms1|] eqn:Er; [|done].
      destruct (cntr_of ms1 _) as [other|] eqn:Eo; [|done].
      destruct (Hrec _ _ _ Hk1 Er) as [Hk2 E2]. rewrite erase_update_cntr in E2.
      apply IH.
      * apply Hrest. by rewrite erase_update_cntr.
      * apply keys_used_update; [done|]. intros c key Hc [H|H]%Counter_iadd_keys.
        -- by apply (Hk2 self c).
        -- apply (uses_step ms1 self (inst_type i)); [|by apply (Hk2 _ other)].
           apply (instantiates_erase ms); [done|]. exists m, i. eauto.
    + apply IH; [|done]. apply Hrest. apply erase_update_cntr.
Qed.

Lemma count_instances_keys fuel :
  ∀ k ms ms', keys_used ms → count_instances fuel k ms = Some ms' →
    keys_used ms' ∧ erase ms' = erase ms.
Proof.
  induction fuel as [|fuel IH]; intros k ms ms' Hk Hcount; [done|].
  split; [|by apply count_instances_stable in Hcount as [[? _] _]].
  simpl in Hcount. destruct (ms !! k) as [m|] eqn:Hm; [|done].
  destruct (cntr m); [by injection Hcount as <-|].
  revert Hcount. apply for_instances_keys; [apply IH| |].
  - intros i Hi. exists (set_cntr (Some ∅) m). by rewrite lookup_insert, decide_True.
  - intros k' c key. rewrite cntr_of_insert. intros Hc Hkey.
    apply (uses_erase ms); [by rewrite erase_insert|].
    destruct (decide (k = k')) as [->|]; [|by apply (Hk k' c)].
    injection Hc as <-. rewrite lookup_empty in Hkey. by destruct Hkey.
Qed.

Lemma count_each_keys fuel ks :
  ∀ d d', keys_used (modules d) → count_each fuel d ks = Some d' →
    keys_used (modules d').
Proof.
  induction ks as [|k ks IH]; intros d d' Hk; simpl; [by intros [= <-]|].
  destruct (Design_count_instances fuel d k) as [[c d1]| |] eqn:E; [|done..].
  apply IH. apply Design_count_instances_Ok in E as (_ & E & _).
  by eapply count_instances_keys.
Qed.

Lemma instance_sum_ge sub key insts i :
  (∀ j, j ∈ insts → 0 ≤ contribution sub key j) → i ∈ insts →
  contribution sub key i ≤ instance_sum sub key insts.
Proof.
  unfold instance_sum. induction insts as [|j l IH]; intros Hpos Hi.
  - by apply elem_of_nil in Hi.
  - simpl. assert (Hl : 0 ≤ foldr (λ i acc, contribution sub key i + acc) 0 l).
    { clear IH Hi. induction l as [|a l IHl]; simpl; [done|].
      pose proof (Hpos a ltac:(right; by left)).
      assert (0 ≤ foldr (λ i acc, contribution sub key i + acc) 0 l); [|lia].
      apply IHl. intros j' Hj'. apply Hpos. apply elem_of_cons in Hj' as [->|Hj'].
      - by left.
      - right. by right. }
    apply elem_of_cons in Hi as [->|Hi]; [lia|].
    pose proof (Hpos j ltac:(by left)).
    assert (contribution sub key i ≤ foldr (λ i acc, contribution sub key i + acc) 0 l); [|lia].
    apply IH; [|done]. intros j' Hj'. apply Hpos. by right.
Qed.

Lemma contribution_nonneg ms key i :
  coherent ms → 0 ≤ contribution (cntr_of ms) key i.
Proof.
  intros Hco. unfold contribution.
  assert (0 ≤ Counter_get (default ∅ (cntr_of ms (inst_type i))) key).
  { destruct (cntr_of ms (inst_type i)) as [c|] eqn:E; simpl; [|done].
    apply Counter_get_nonneg. apply cntr_of_Some in E as (m & Hm & Hc).
    by destruct (Hco _ _ _ Hm Hc). }
  destruct (decide (inst_type i = key)); lia.
Qed.

Lemma coherent_uses ms k k' :
  coherent ms → rtc (instantiates ms) k k' →
  ∀ m' i c, ms !! k' = Some m' → i ∈ instances m' → cntr_of ms k = Some c →
    0 < Counter_get c (inst_type i).
Proof.
  intros Hco Hr. induction Hr as [k|k k1 k' Hstep _ IH]; intros m' i c Hm' Hi Hc.
  - apply cntr_of_Some in Hc as (m & Hm & Hcm). assert (m = m') as -> by congruence.
    destruct (Hco _ _ _ Hm Hcm) as (_ & _ & Hsum). rewrite Hsum.
    pose proof (instance_sum_ge (cntr_of ms) (inst_type i) (instances m') i
                  (λ j _, contribution_nonneg ms _ j Hco) Hi) as Hge.
    assert (1 ≤ contribution (cntr_of ms) (inst_type i) i); [|lia].
    unfold contribution. rewrite decide_True by done.
    assert (0 ≤ Counter_get (default ∅ (cntr_of ms (inst_type i))) (inst_type i)); [|lia].
    destruct (cntr_of ms (inst_type i)) as [ci|] eqn:E; simpl; [|done].
    apply Counter_get_nonneg. apply cntr_of_Some in E as (mi & Hmi & Hci).
    by destruct (Hco _ _ _ Hmi Hci).
  - destruct Hstep as (m & i1 & Hm & Hi1 & Ht & Hsome).
    apply cntr_of_Some in Hc as (m0 & Hm0 & Hcm). assert (m0 = m) as -> by congruence.
    destruct (Hco _ _ _ Hm Hcm) as (_ & Hcached & Hsum). rewrite Hsum.
    destruct (Hcached i1 Hi1) as [c1 Hc1]; [by rewrite Ht|].
    rewrite Ht in Hc1. specialize (IH m' i c1 Hm' Hi Hc1).
    pose proof (instance_sum_ge (cntr_of ms) (inst_type i) (instances m) i1
                  (λ j _, contribution_nonneg ms _ j Hco) Hi1) as Hge.
    assert (0 < contribution (cntr_of ms) (inst_type i) i1); [|lia].
    unfold contribution. rewrite Ht, Hc1. simpl.
    destruct (decide (k1 = inst_type i)); lia.
Qed.

(** X10.  The keys of the multiset that [count_instances] returns for a
    module are types of instances found in its hierarchy: in the module
    itself or in a module reached from it through instances.  On an acyclic
    design they are exactly these types, sub-modules and primitives
    alike. *)
Theorem count_instances_keys_used (d0 d d' : Design) (ks : list Value) (k : Value)
    (fuel : nat) (c : Counter) :
  fresh d0 → count_each fuel d0 ks = Some d →
  Design_count_instances fuel d k = Ok (c, d') →
  (∀ key, is_Some (c !! key) → uses (modules d0) k key)
  ∧ (acyclic (modules d0) → ∀ key, uses (modules d0) k key → is_Some (c !! key)).
Proof.
  intros Hf Hks Hcall.
  assert (Hk0 : keys_used (modules d0)).
  { intros k' c' key (m & Hm & Hc)%cntr_of_Some. by rewrite (Hf k' m Hm) in Hc. }
  pose proof (count_each_keys _ _ _ _ Hk0 Hks) as Hk.
  pose proof (count_each_stable _ _ _ _ Hks) as [E0 _].
  apply Design_count_instances_Ok in Hcall as (_ & Hcount & Hc).
  destruct (count_instances_keys _ _ _ _ Hk Hcount) as [Hk' E].
  split.
  - intros key Hkey. apply (uses_erase (modules d')); [congruence|]. by apply (Hk' k c).
  - intros Ha key Hu.
    destruct (count_each_coherent fuel ks d0 d) as [Ha1 Hco1];
      [done|by apply fresh_coherent|done|].
    pose proof (count_instances_coherent _ _ _ _ Ha1 Hco1 Hcount) as Hco.
    apply (uses_erase _ (modules d')) in Hu; [|congruence].
    destruct Hu as (k' & m & i & Hr & Hm & Hi & <-).
    pose proof (coherent_uses _ _ _ Hco Hr m i c Hm Hi Hc) as Hpos.
    unfold Counter_get in Hpos. destruct (c !! inst_type i); [eauto|simpl in Hpos; lia].
Qed.

Lemma count_instances_keys_used_witness :
  ∃ c d', Design_count_instances 3 top_cell (Str "TopCell") = Ok (c, d')
          ∧ (∀ key, is_Some (c !! key) → uses (modules top_cell) (Str "TopCell") key)
          ∧ (acyclic (modules top_cell) →
             ∀ key, uses (modules top_cell) (Str "TopCell") key → is_Some (c !! key)).
Proof.
  destruct (Design_count_instances_total 3 top_cell (Str "TopCell")) as (c & d' & H).
  - vm_compute. eauto.
  - vm_compute. lia.
  - exists c, d'. split; [exact H|].
    apply (count_instances_keys_used top_cell top_cell d' [] (Str "TopCell") 3 c).
    + apply top_cell_fresh.
    + reflexivity.
    + exact H.
Defined.

(** ** The design that parsing builds *)

(** X11.  [Design.__init__] stores every module under its own name: a name is
    a key of the design exactly when some module of the list has it, and
    the module found under a name is a module of the list with that
    name. *)
Theorem Design_init_keys (mods : list Mod) (n : Value) :
  (is_Some (modules (Design_init mods) !! n) ↔ n ∈ map name mods)
  ∧ ∀ m, modules (Design_init mods) !! n = Some m → name m = n ∧ m ∈ mods.
Proof.
  rewrite Design_init_lookup. split.
  - split.
    + intros [m Hm]. apply last_Some in Hm as [l Hl].
      assert (Hin : m ∈ filter (λ m, name m = n) mods) by (rewrite Hl; set_solver).
      apply list_elem_of_filter in Hin as [<- Hin]. by apply list_elem_of_fmap_2.
    + intros (m & -> & Hin)%list_elem_of_fmap.
      assert (Hin' : m ∈ filter (λ m0, name m0 = name m) mods)
        by (by apply list_elem_of_filter).
      destruct (filter (λ m0, name m0 = name m) mods) as [|x l] eqn:E using rev_ind.
      * by apply elem_of_nil in Hin'.
      * rewrite last_snoc. eauto.
  - intros m Hm. apply last_Some in Hm as [l Hl].
    assert (Hin : m ∈ filter (λ m, name m = n) mods) by (rewrite Hl; set_solver).
    by apply list_elem_of_filter in Hin.
Qed.

Lemma g_module_cntr ts m : g_module ts m → cntr m = None.
Proof. by destruct 1. Qed.

Lemma g_file_fresh ts mods : g_file ts mods → Forall (λ m, cntr m = None) mods.
Proof.
  induction 1 as [|ts m tss l Hg _ IH]; constructor; [|done].
  by eapply g_module_cntr.
Qed.

(** X12.  The design that [parse] returns has no cache filled, and every
    module in it is stored under its own name. *)
Theorem parse_fresh (fuel : nat) (inp : string) (d : Design) :
  parse fuel inp = Ok d →
  fresh d ∧ ∀ n m, modules d !! n = Some m → name m = n.
Proof.
  unfold parse. intros H.
  destruct (parse_tokens fuel (Parser_init (scan inp))) as [[d0 p]| |] eqn:E; [|done..].
  injection H as ->. apply parse_tokens_sound in E as (toks & mods & _ & Hg & ->).
  split.
  - apply fresh_Design_init. by eapply g_file_fresh.
  - intros n m. rewrite Design_init_lookup. intros [l Hl]%last_Some.
    assert (Hin : m ∈ filter (λ m, name m = n) mods) by (rewrite Hl; set_solver).
    by apply list_elem_of_filter in Hin as [? _].
Qed.

Lemma parse_fresh_witness :
  fresh (Design_init [Mod_init (Str "m") [Str "a"] [] []])
  ∧ ∀ n m, modules (Design_init [Mod_init (Str "m") [Str "a"] [] []]) !! n = Some m →
           name m = n.
Proof.
  apply (parse_fresh 20 "module m(a); endmodule").
  vm_compute. reflexivity.
Defined.

(** X13.  Parsing and counting compose: on the design that [parse] returns,
    if no module instantiates itself directly or indirectly, the first
    [count_instances] of any of its modules returns and satisfies the
    counting equation. *)
Theorem parse_then_count (fuel fuel' : nat) (inp : string) (d : Design) (M : Value) :
  parse fuel inp = Ok d → acyclic (modules d) →
  is_Some (modules d !! M) → (size (modules d) < fuel')%nat →
  counting_equation fuel' d M.
Proof.
  unfold parse. intros H Ha [m Hm] Hfuel.
  destruct (parse_tokens fuel (Parser_init (scan inp))) as [[d0 p]| |] eqn:E; [|done..].
  injection H as ->. apply parse_tokens_sound in E as (toks & mods & _ & Hg & ->).
  eapply counted_coherent; try done.
  apply fresh_coherent, fresh_Design_init. by eapply g_file_fresh.
Qed.

Lemma parse_then_count_witness :
  counting_equation 3 top_cell (Str "TopCell").
Proof.
  apply (parse_then_count 60 3
    "module cellB(a); wire a; endmodule module TopCell(x); wire x; AND2 u1(.A(x), .B(x)); cellB u2(.a(x)); endmodule"
    top_cell (Str "TopCell")).
  - vm_compute. reflexivity.
  - apply top_cell_acyclic.
  - vm_compute. eauto.
  - vm_compute. lia.
Defined.

(** ** The tokens of the scanner *)

Lemma int_nonneg lexeme : Forall (λ c, is_digit c = true) lexeme → 0 ≤ int lexeme.
Proof.
  unfold int. intros H.
  assert (G : ∀ acc, 0 ≤ acc →
    0 ≤ foldl (λ acc c, 10 * acc + (Z.of_N (code c) - 48)) acc lexeme).
  { induction H as [|c l Hc _ IH]; intros acc Hacc; simpl; [done|].
    apply IH. unfold is_digit, in_range in Hc.
    apply andb_true_iff in Hc as [H1%N.leb_le _]. lia. }
  by apply G.
Qed.

Lemma punct_kind c : is_punct c = true → String c "" ∈ token_kinds.
Proof.
  intros H. unfold is_punct in H.
  repeat (apply orb_true_iff in H as [H|H]); apply N.eqb_eq in H;
    apply (f_equal ascii_of_N) in H; unfold code in H; rewrite ascii_N_embedding in H;
    subst c; vm_compute; set_solver.
Qed.

(** X14.  The scanner yields tokens of fifteen kinds only (numbers,
    identifiers, the five keywords and the eight punctuation characters),
    never a comment, newline, blank or mismatch.  A NUMBER token carries a
    non-negative integer; any other token carries its lexeme as a string,
    which is its kind unless the token is an identifier, whose lexeme is
    not a keyword. *)
Theorem scan_token_kinds (inp : list ascii) (t : Token) :
  t ∈ tokens_of (scan_text inp) →
  type t ∈ token_kinds
  ∧ ((type t = "NUMBER"%string ∧ ∃ z, value t = Int z ∧ 0 ≤ z)
     ∨ (type t ≠ "NUMBER"%string
        ∧ ∃ s, value t = Str s
               ∧ (type t = s ∨ type t = "IDENTIFIER"%string ∧ s ∉ keywords))).
Proof.
  intros Ht.
  destruct (scan_loop_located (length inp) inp [] 0 1 0 t) as (pre & lx & post & _ & _ & _ & H);
    [done..|].
  destruct H as [(Hd & Hty & Hv)|[(Hw & Hty & Hv)|(c & -> & Hp & Hty & Hv)]].
  - rewrite Hty. split; [by left|]. left. split; [done|].
    exists (int lx). split; [done|]. by apply int_nonneg.
  - rewrite Hv. case_bool_decide as Hk.
    + rewrite Hty. split.
      * unfold keywords in Hk. unfold token_kinds. set_solver.
      * right. split; [|eauto]. intros E. rewrite E in Hk.
        unfold keywords in Hk. set_solver.
    + rewrite Hty. split; [right; by left|]. right. split; [done|]. eauto.
  - rewrite Hty, Hv. split; [by apply punct_kind|]. right. split; [|eauto].
    intros E. apply punct_kind in Hp. simpl in E. by injection E.
Qed.

Lemma scan_token_kinds_witness :
  "NUMBER"%string ∈ token_kinds
  ∧ (("NUMBER"%string = "NUMBER"%string ∧ ∃ z, Int 42 = Int z ∧ 0 ≤ z)
     ∨ ("NUMBER"%string ≠ "NUMBER"%string
        ∧ ∃ s, Int 42 = Str s
               ∧ ("NUMBER"%string = s ∨ "NUMBER"%string = "IDENTIFIER"%string ∧ s ∉ keywords))).
Proof.
  apply (scan_token_kinds (list_ascii_of_string "[42]") (mkToken "NUMBER" (Int 42) 1 2)).
  vm_compute. right. left.
Defined.

Lemma scan_loop_blank fuel :
  ∀ s pos ln start, Forall (λ c, is_blank c || is_newline c = true) s →
    scan_loop fuel s pos ln start = SNil.
Proof.
  induction fuel as [|fuel IH]; intros s pos ln start Hs; [done|]. simpl.
  destruct (regex_match s) as [[[kind lexeme] rest]|] eqn:Hm; [|done].
  destruct (regex_match_shape _ _ _ _ 0 Hm) as (-> & Hl & _).
  pose proof (regex_match_class _ _ _ _ Hm) as Hclass.
  apply Forall_app in Hs as [Hlx Hrest].
  destruct lexeme as [|c lexeme]; [simpl in Hl; lia|].
  inversion_clear Hlx as [|? ? Hc _].
  assert (Hnw : is_word c = false).
  { destruct (is_word c) eqn:E; [|done]. apply orb_true_iff in Hc as [Hc|Hc].
    - unfold is_blank in Hc. apply orb_true_iff in Hc as [Hc|Hc]; apply N.eqb_eq in Hc;
        unfold is_word, is_digit, in_range in E; rewrite Hc in E; done.
    - apply class_not_newline in Hc as (? & _). congruence. }
  assert (Hnp : is_punct c = false).
  { destruct (is_punct c) eqn:E; [|done]. apply orb_true_iff in Hc as [Hc|Hc].
    - unfold is_blank in Hc. apply orb_true_iff in Hc as [Hc|Hc]; apply N.eqb_eq in Hc;
        unfold is_punct in E; rewrite Hc in E; done.
    - apply class_not_newline in Hc as (? & ? & ?). congruence. }
  destruct kind; try (by apply IH).
  - inversion_clear Hclass as [|? ? Hd _]. apply is_digit_word in Hd. congruence.
  - inversion_clear Hclass as [|? ? Hw _]. congruence.
  - destruct Hclass as (c' & [= -> ->] & Hp). congruence.
  - destruct Hclass as (c' & [= -> ->] & (Hn & _ & _ & Hb & _)).
    rewrite Hn, Hb in Hc. done.
Qed.

(** X15.  An input without any lexeme (empty, or made of blanks, tabs and
    newlines) scans to no token, and [parse] returns the design with no
    module, whatever the budget above zero. *)
Theorem parse_blank (fuel : nat) (inp : string) :
  Forall (λ c, is_blank c || is_newline c = true) (list_ascii_of_string inp) →
  scan inp = SNil ∧ parse (S fuel) inp = Ok (Design_init []).
Proof.
  intros H. assert (Hs : scan inp = SNil) by (by apply scan_loop_blank).
  split; [done|]. unfold parse. by rewrite Hs.
Qed.

Lemma parse_blank_witness :
  scan "  " = SNil ∧ parse 1 "  " = Ok (Design_init []).
Proof.
  apply (parse_blank 0 "  "). by repeat constructor.
Defined.
